(** * Spherical and rhumb-line geodesy on latitude/longitude points

    A shallow embedding of [latlon-spherical.js].  JavaScript Numbers are
    IEEE-754 binary64 values, modelled by Rocq's primitive [float]; the
    arithmetic operators are the primitive operations, [%] (written [%%]) is defined below
    from the language definition, and the transcendental functions of the
    host's [Math] object are the fields of a class, constrained only by the
    laws collected in [Math.laws]. *)

From Stdlib Require Import ZArith Lia Bool List String Floats Reals Lra Psatz RNsatz.
Import ListNotations.

Set Warnings "-inexact-float,-register-all".

(** ** JavaScript numbers *)

Declare Scope js_scope.
Delimit Scope js_scope with js.

Section Remainder.
Local Open Scope Z_scope.

(** The [%] operator on two Numbers: NaN when the dividend is infinite or
    the divisor is zero, the dividend itself when the divisor is infinite
    or the dividend is zero, and otherwise [n - d * q] with [q] the
    quotient truncated towards zero, so that the result has the sign of
    the dividend. *)
Definition SFrem (n d : spec_float) : spec_float :=
  match n, d with
  | S754_nan, _ | _, S754_nan => S754_nan
  | S754_infinity _, _ => S754_nan
  | _, S754_zero _ => S754_nan
  | _, S754_infinity _ => n
  | S754_zero _, _ => n
  | S754_finite sn mn en, S754_finite _ md ed =>
      let ez := Z.min en ed in
      let r := Z.rem (Zpos (fst (shl_align mn en ez)))
                     (Zpos (fst (shl_align md ed ez))) in
      binary_normalize prec emax (cond_Zopp sn r) ez sn
  end.
End Remainder.

Definition rem (n d : float) : float := SF2Prim (SFrem (Prim2SF n) (Prim2SF d)).

Notation "x %% y" := (rem x y) (at level 40, left associativity) : float_scope.
Notation "x >? y" := (PrimFloat.ltb y x) (at level 70, no associativity) : float_scope.

Definition isNaN (x : float) : bool := PrimFloat.is_nan x.
Definition isFinite (x : float) : bool := PrimFloat.is_finite x.

(** ** The host's Math object *)

Module Math.
Local Open Scope float_scope.

(** [Math.PI] is the Number nearest to pi. *)
Definition PI : float := 0x1.921fb54442d18p+1.

(** [Math.sqrt] and [Math.abs] are the IEEE operations. *)
Definition sqrt (x : float) : float := PrimFloat.sqrt x.
Definition abs (x : float) : float := PrimFloat.abs x.

(** The remaining functions are approximations chosen by the host. *)
Class host : Type := {
  sin : float -> float;
  cos : float -> float;
  tan : float -> float;
  asin : float -> float;
  acos : float -> float;
  atan2 : float -> float -> float;
  log : float -> float
}.

(** Arguments below [2^-27] in magnitude: a faithful sine, cosine or
    arc sine returns [x], [1] and [x] there. *)
Definition tiny (x : float) : bool := PrimFloat.abs x <? 0x1p-27.

(** What the development assumes of a host: the special values fixed by
    the language definition and the elementary shape of the functions. *)
Record laws (M : host) : Prop := {
  sin_tiny : forall x, tiny x = true -> sin x = x;
  sin_odd : forall x, sin (- x) = - sin x;
  sin_nan : sin nan = nan;
  sin_range : forall x, is_finite x = true -> (PrimFloat.abs (sin x) <=? 1) = true;
  cos_tiny : forall x, tiny x = true -> cos x = 1;
  cos_nan : cos nan = nan;
  cos_range : forall x, is_finite x = true -> (PrimFloat.abs (cos x) <=? 1) = true;
  asin_tiny : forall x, tiny x = true -> asin x = x;
  asin_nan : asin nan = nan;
  acos_domain : forall x, (PrimFloat.abs x <=? 1) = false -> acos x = nan;
  acos_range : forall x, (0 <=? x) = true -> (x <=? 1) = true ->
               (0 <=? acos x) = true /\ (acos x <=? PI / 2) = true;
  atan2_nan_l : forall x, atan2 nan x = nan;
  atan2_nan_r : forall y, atan2 y nan = nan;
  atan2_zero_pos : forall x, (0 <? x) = true -> atan2 0 x = 0
}.
End Math.

(** A small executable host, used to run the code on concrete inputs:
    truncated power series, cut off to the range of the function. *)
Module RefHost.
Local Open Scope float_scope.

Definition unit_or_zero (y : float) : float :=
  if (PrimFloat.abs y <=? 1) then y else 0.

Definition sin_series (u : float) : float :=
  1 - u / 6 * (1 - u / 20 * (1 - u / 42 * (1 - u / 72))).
Definition cos_series (u : float) : float :=
  1 - u / 2 * (1 - u / 12 * (1 - u / 30 * (1 - u / 56))).
Definition asin_series (u : float) : float :=
  1 + u / 6 * (1 + u * 9 / 20 * (1 + u * 25 / 42)).

Definition sin_nonneg (x : float) : float :=
  if Math.tiny x then x
  else if is_finite x then unit_or_zero (x * sin_series (x * x))
  else nan.

Definition sin (x : float) : float :=
  if (x <? 0) then - sin_nonneg (- x) else sin_nonneg x.

Definition cos (x : float) : float :=
  if Math.tiny x then 1
  else if is_finite x then unit_or_zero (cos_series (x * x))
  else nan.

Definition tan (x : float) : float := sin x / cos x.

Definition asin (x : float) : float :=
  if Math.tiny x then x
  else if (PrimFloat.abs x <=? 1) then x * asin_series (x * x)
  else nan.

Definition quarter_turn (y : float) : float :=
  if (0 <=? y) && (y <=? Math.PI / 2) then y else Math.PI / 2.

Definition acos (x : float) : float :=
  if (PrimFloat.abs x <=? 1) then
    if (0 <=? x) then quarter_turn (Math.PI / 2 - asin x)
    else Math.PI / 2 + asin (- x)
  else nan.

Definition atan (t : float) : float :=
  if (PrimFloat.abs t <=? 1) then t / (1 + 0.28125 * (t * t))
  else if (0 <? t) then Math.PI / 2 - t / (t * t + 0.28125)
  else - (Math.PI / 2) - t / (t * t + 0.28125).

Definition atan2 (y x : float) : float :=
  if is_nan y || is_nan x then nan
  else if is_zero y && (0 <? x) then y
  else if (0 <? x) then atan (y / x)
  else if (x <? 0) then
    (if (y <? 0) then atan (y / x) - Math.PI else atan (y / x) + Math.PI)
  else if (0 <? y) then Math.PI / 2
  else if (y <? 0) then - (Math.PI / 2)
  else y.

Definition log (x : float) : float :=
  let z := (x - 1) / (x + 1) in
  2 * z * (1 + z * z / 3 * (1 + z * z * 3 / 5)).

#[export] Instance host : Math.host := {|
  Math.sin := sin; Math.cos := cos; Math.tan := tan;
  Math.asin := asin; Math.acos := acos; Math.atan2 := atan2;
  Math.log := log
|}.
End RefHost.

(** ** Values, errors and completions *)

(** A point: [this.lat], [this.lon], in degrees. *)
Record LatLon : Type := mkLatLon { lat : float; lon : float }.

(** The values a caller can pass where a point is expected.  [VLatLon] is
    an object constructed by [LatLon]; [VObject] is any other object, given
    by its own properties. *)
Inductive value : Type :=
| VUndefined
| VNull
| VBoolean (b : bool)
| VNumber (n : float)
| VString (s : string)
| VLatLon (p : LatLon)
| VObject (props : list (string * value)).

Inductive error : Type :=
| TypeError (message : string).

Inductive completion (A : Type) : Type :=
| Normal (a : A)
| Throw (e : error).
Arguments Normal {A} a.
Arguments Throw {A} e.

Definition bind {A B : Type} (c : completion A) (k : A -> completion B) : completion B :=
  match c with
  | Normal a => k a
  | Throw e => Throw e
  end.

Notation "x <- c ;; k" := (bind c (fun x => k))
  (at level 61, c at next level, right associativity) : js_scope.

Definition throws {A : Type} (c : completion A) : Prop :=
  exists message, c = Throw (TypeError message).

(** [v instanceof LatLon], throwing [TypeError(message)] otherwise. *)
Definition instanceof_LatLon (v : value) (message : string) : completion LatLon :=
  match v with
  | VLatLon p => Normal p
  | _ => Throw (TypeError message)
  end.

Fixpoint own_property (props : list (string * value)) (name : string) : value :=
  match props with
  | [] => VUndefined
  | (k, v) :: rest => if String.eqb k name then v else own_property rest name
  end.

(** [v.lat] and [v.lon]: reading a property of [undefined] or [null]
    throws, a primitive has neither property. *)
Definition get (v : value) (name : string) : completion value :=
  match v with
  | VUndefined | VNull =>
      Throw (TypeError ("Cannot read property '" ++ name ++ "' of undefined"))
  | VLatLon p =>
      Normal (if String.eqb name "lat" then VNumber (lat p)
              else if String.eqb name "lon" then VNumber (lon p)
              else VUndefined)
  | VObject props => Normal (own_property props name)
  | VBoolean _ | VNumber _ | VString _ => Normal VUndefined
  end.

Local Open Scope float_scope.
Local Open Scope js_scope.

(** [Number.prototype.toRadians] and [Number.prototype.toDegrees]. *)
Definition toRadians (this : float) : float := this * Math.PI / 180.
Definition toDegrees (this : float) : float := this * 180 / Math.PI.

(** [v.toRadians()] on an arbitrary value: only Numbers have the method. *)
Definition call_toRadians (v : value) : completion float :=
  match v with
  | VNumber n => Normal (toRadians n)
  | VUndefined | VNull =>
      Throw (TypeError "Cannot read property 'toRadians' of undefined")
  | _ => Throw (TypeError "toRadians is not a function")
  end.

(** [radius = (radius === undefined) ? 6371e3 : Number(radius)]. *)
Definition radius_or_default (radius : option float) : float :=
  match radius with
  | None => 6371e3
  | Some r => r
  end.

(** ** The LatLon methods *)

Section LatLonSpherical.
Context {M : Math.host}.

(** [LatLon.prototype.distanceTo]: haversine distance. *)
Definition distanceTo (this : LatLon) (point : value) (radius : option float)
  : completion float :=
  point <- instanceof_LatLon point "point is not LatLon object" ;;
  let radius := radius_or_default radius in
  let R := radius in
  let φ1 := toRadians (lat this) in let λ1 := toRadians (lon this) in
  let φ2 := toRadians (lat point) in let λ2 := toRadians (lon point) in
  let Δφ := φ2 - φ1 in
  let Δλ := λ2 - λ1 in
  let a := Math.sin (Δφ / 2) * Math.sin (Δφ / 2)
           + Math.cos φ1 * Math.cos φ2
             * Math.sin (Δλ / 2) * Math.sin (Δλ / 2) in
  let c := 2 * Math.atan2 (Math.sqrt a) (Math.sqrt (1 - a)) in
  let d := R * c in
  Normal d.

(** [LatLon.prototype.bearingTo]: initial bearing. *)
Definition bearingTo (this : LatLon) (point : value) : completion float :=
  point <- instanceof_LatLon point "point is not LatLon object" ;;
  let φ1 := toRadians (lat this) in let φ2 := toRadians (lat point) in
  let Δλ := toRadians (lon point - lon this) in
  let y := Math.sin Δλ * Math.cos φ2 in
  let x := Math.cos φ1 * Math.sin φ2
           - Math.sin φ1 * Math.cos φ2 * Math.cos Δλ in
  let θ := Math.atan2 y x in
  Normal ((toDegrees θ + 360) %% 360).

(** [LatLon.prototype.finalBearingTo]. *)
Definition finalBearingTo (this : LatLon) (point : value) : completion float :=
  point <- instanceof_LatLon point "point is not LatLon object" ;;
  b <- bearingTo point (VLatLon this) ;;
  Normal ((b + 180) %% 360).

(** [LatLon.prototype.midpointTo]. *)
Definition midpointTo (this : LatLon) (point : value) : completion LatLon :=
  point <- instanceof_LatLon point "point is not LatLon object" ;;
  let φ1 := toRadians (lat this) in let λ1 := toRadians (lon this) in
  let φ2 := toRadians (lat point) in
  let Δλ := toRadians (lon point - lon this) in
  let Bx := Math.cos φ2 * Math.cos Δλ in
  let By := Math.cos φ2 * Math.sin Δλ in
  let x := Math.sqrt ((Math.cos φ1 + Bx) * (Math.cos φ1 + Bx) + By * By) in
  let y := Math.sin φ1 + Math.sin φ2 in
  let φ3 := Math.atan2 y x in
  let λ3 := λ1 + Math.atan2 By (Math.cos φ1 + Bx) in
  Normal (mkLatLon (toDegrees φ3) ((toDegrees λ3 + 540) %% 360 - 180)).

(** [LatLon.prototype.intermediatePointTo]. *)
Definition intermediatePointTo (this : LatLon) (point : value) (fraction : float)
  : completion LatLon :=
  point <- instanceof_LatLon point "point is not LatLon object" ;;
  let φ1 := toRadians (lat this) in let λ1 := toRadians (lon this) in
  let φ2 := toRadians (lat point) in let λ2 := toRadians (lon point) in
  let sinφ1 := Math.sin φ1 in let cosφ1 := Math.cos φ1 in
  let sinλ1 := Math.sin λ1 in let cosλ1 := Math.cos λ1 in
  let sinφ2 := Math.sin φ2 in let cosφ2 := Math.cos φ2 in
  let sinλ2 := Math.sin λ2 in let cosλ2 := Math.cos λ2 in
  let Δφ := φ2 - φ1 in
  let Δλ := λ2 - λ1 in
  let a := Math.sin (Δφ / 2) * Math.sin (Δφ / 2)
           + Math.cos φ1 * Math.cos φ2 * Math.sin (Δλ / 2) * Math.sin (Δλ / 2) in
  let δ := 2 * Math.atan2 (Math.sqrt a) (Math.sqrt (1 - a)) in
  let A := Math.sin ((1 - fraction) * δ) / Math.sin δ in
  let B := Math.sin (fraction * δ) / Math.sin δ in
  let x := A * cosφ1 * cosλ1 + B * cosφ2 * cosλ2 in
  let y := A * cosφ1 * sinλ1 + B * cosφ2 * sinλ2 in
  let z := A * sinφ1 + B * sinφ2 in
  let φ3 := Math.atan2 z (Math.sqrt (x * x + y * y)) in
  let λ3 := Math.atan2 y x in
  Normal (mkLatLon (toDegrees φ3) ((toDegrees λ3 + 540) %% 360 - 180)).

(** [LatLon.prototype.destinationPoint]. *)
Definition destinationPoint (this : LatLon) (distance bearing : float)
  (radius : option float) : completion LatLon :=
  let radius := radius_or_default radius in
  let δ := distance / radius in
  let θ := toRadians bearing in
  let φ1 := toRadians (lat this) in
  let λ1 := toRadians (lon this) in
  let φ2 := Math.asin (Math.sin φ1 * Math.cos δ
                       + Math.cos φ1 * Math.sin δ * Math.cos θ) in
  let x := Math.cos δ - Math.sin φ1 * Math.sin φ2 in
  let y := Math.sin θ * Math.sin δ * Math.cos φ1 in
  let λ2 := λ1 + Math.atan2 y x in
  Normal (mkLatLon (toDegrees φ2) ((toDegrees λ2 + 540) %% 360 - 180)).

(** The angular separation [δ12] of [LatLon.intersection]. *)
Definition intersection_delta12 (p1 p2 : LatLon) : float :=
  let φ1 := toRadians (lat p1) in let λ1 := toRadians (lon p1) in
  let φ2 := toRadians (lat p2) in let λ2 := toRadians (lon p2) in
  let Δφ := φ2 - φ1 in let Δλ := λ2 - λ1 in
  2 * Math.asin (Math.sqrt (Math.sin (Δφ / 2) * Math.sin (Δφ / 2)
        + Math.cos φ1 * Math.cos φ2 * Math.sin (Δλ / 2) * Math.sin (Δλ / 2))).

(** The arc-cosine arguments behind [θa] and [θb]. *)
Definition intersection_cos_theta_a (p1 p2 : LatLon) : float :=
  let φ1 := toRadians (lat p1) in let φ2 := toRadians (lat p2) in
  let δ12 := intersection_delta12 p1 p2 in
  (Math.sin φ2 - Math.sin φ1 * Math.cos δ12) / (Math.sin δ12 * Math.cos φ1).

Definition intersection_cos_theta_b (p1 p2 : LatLon) : float :=
  let φ1 := toRadians (lat p1) in let φ2 := toRadians (lat p2) in
  let δ12 := intersection_delta12 p1 p2 in
  (Math.sin φ1 - Math.sin φ2 * Math.cos δ12) / (Math.sin δ12 * Math.cos φ2).

(** The included angles [α1] (2-1-3) and [α2] (1-2-3). *)
Definition intersection_alpha (p1 : LatLon) (brng1 : float) (p2 : LatLon) (brng2 : float)
  : float * float :=
  let λ1 := toRadians (lon p1) in let λ2 := toRadians (lon p2) in
  let θ13 := toRadians brng1 in let θ23 := toRadians brng2 in
  let θa := Math.acos (intersection_cos_theta_a p1 p2) in
  let θa := if isNaN θa then 0 else θa in
  let θb := Math.acos (intersection_cos_theta_b p1 p2) in
  let θ12 := if Math.sin (λ2 - λ1) >? 0 then θa else 2 * Math.PI - θa in
  let θ21 := if Math.sin (λ2 - λ1) >? 0 then 2 * Math.PI - θb else θb in
  let α1 := (θ13 - θ12 + Math.PI) %% (2 * Math.PI) - Math.PI in
  let α2 := (θ21 - θ23 + Math.PI) %% (2 * Math.PI) - Math.PI in
  (α1, α2).

(** [LatLon.intersection]; [None] is [null]. *)
Definition intersection (p1 : value) (brng1 : float) (p2 : value) (brng2 : float)
  : completion (option LatLon) :=
  p1 <- instanceof_LatLon p1 "p1 is not LatLon object" ;;
  p2 <- instanceof_LatLon p2 "p2 is not LatLon object" ;;
  let φ1 := toRadians (lat p1) in let λ1 := toRadians (lon p1) in
  let φ2 := toRadians (lat p2) in let λ2 := toRadians (lon p2) in
  let θ13 := toRadians brng1 in let θ23 := toRadians brng2 in
  let Δφ := φ2 - φ1 in let Δλ := λ2 - λ1 in
  let δ12 := 2 * Math.asin (Math.sqrt (Math.sin (Δφ / 2) * Math.sin (Δφ / 2)
        + Math.cos φ1 * Math.cos φ2 * Math.sin (Δλ / 2) * Math.sin (Δλ / 2))) in
  if δ12 =? 0 then Normal None else
  let θa := Math.acos ((Math.sin φ2 - Math.sin φ1 * Math.cos δ12)
                       / (Math.sin δ12 * Math.cos φ1)) in
  let θa := if isNaN θa then 0 else θa in
  let θb := Math.acos ((Math.sin φ1 - Math.sin φ2 * Math.cos δ12)
                       / (Math.sin δ12 * Math.cos φ2)) in
  let θ12 := if Math.sin (λ2 - λ1) >? 0 then θa else 2 * Math.PI - θa in
  let θ21 := if Math.sin (λ2 - λ1) >? 0 then 2 * Math.PI - θb else θb in
  let α1 := (θ13 - θ12 + Math.PI) %% (2 * Math.PI) - Math.PI in
  let α2 := (θ21 - θ23 + Math.PI) %% (2 * Math.PI) - Math.PI in
  if (Math.sin α1 =? 0) && (Math.sin α2 =? 0) then Normal None else
  if Math.sin α1 * Math.sin α2 <? 0 then Normal None else
  let α3 := Math.acos ((- Math.cos α1) * Math.cos α2
                       + Math.sin α1 * Math.sin α2 * Math.cos δ12) in
  let δ13 := Math.atan2 (Math.sin δ12 * Math.sin α1 * Math.sin α2)
                        (Math.cos α2 + Math.cos α1 * Math.cos α3) in
  let φ3 := Math.asin (Math.sin φ1 * Math.cos δ13
                       + Math.cos φ1 * Math.sin δ13 * Math.cos θ13) in
  let Δλ13 := Math.atan2 (Math.sin θ13 * Math.sin δ13 * Math.cos φ1)
                         (Math.cos δ13 - Math.sin φ1 * Math.sin φ3) in
  let λ3 := λ1 + Δλ13 in
  Normal (Some (mkLatLon (toDegrees φ3) ((toDegrees λ3 + 540) %% 360 - 180))).

(** [LatLon.prototype.crossTrackDistanceTo]. *)
Definition crossTrackDistanceTo (this : LatLon) (pathStart pathEnd : value)
  (radius : option float) : completion float :=
  pathStart <- instanceof_LatLon pathStart "pathStart is not LatLon object" ;;
  pathEnd <- instanceof_LatLon pathEnd "pathEnd is not LatLon object" ;;
  let radius := radius_or_default radius in
  d13 <- distanceTo pathStart (VLatLon this) (Some radius) ;;
  let δ13 := d13 / radius in
  b13 <- bearingTo pathStart (VLatLon this) ;;
  let θ13 := toRadians b13 in
  b12 <- bearingTo pathStart (VLatLon pathEnd) ;;
  let θ12 := toRadians b12 in
  let dxt := Math.asin (Math.sin δ13 * Math.sin (θ13 - θ12)) * radius in
  Normal dxt.

(** [LatLon.prototype.maxLatitude]. *)
Definition maxLatitude (this : LatLon) (bearing : float) : completion float :=
  let θ := toRadians bearing in
  let φ := toRadians (lat this) in
  let φMax := Math.acos (Math.abs (Math.sin θ * Math.cos φ)) in
  Normal (toDegrees φMax).

(** The result object [{ lon1, lon2 }] of [LatLon.crossingParallels]. *)
Record Crossings : Type := mkCrossings { lon1 : float; lon2 : float }.

(** The three components tested by [LatLon.crossingParallels]. *)
Definition crossing_xyz (φ φ1 φ2 Δλ : float) : float * float * float :=
  let x := Math.sin φ1 * Math.cos φ2 * Math.cos φ * Math.sin Δλ in
  let y := Math.sin φ1 * Math.cos φ2 * Math.cos φ * Math.cos Δλ
           - Math.cos φ1 * Math.sin φ2 * Math.cos φ in
  let z := Math.cos φ1 * Math.cos φ2 * Math.sin φ * Math.sin Δλ in
  (x, y, z).

(** [LatLon.crossingParallels]; the arguments are not checked, their
    properties are read as they are. *)
Definition crossingParallels (point1 point2 : value) (latitude : float)
  : completion (option Crossings) :=
  let φ := toRadians latitude in
  v <- get point1 "lat" ;; φ1 <- call_toRadians v ;;
  v <- get point1 "lon" ;; λ1 <- call_toRadians v ;;
  v <- get point2 "lat" ;; φ2 <- call_toRadians v ;;
  v <- get point2 "lon" ;; λ2 <- call_toRadians v ;;
  let Δλ := λ2 - λ1 in
  let x := Math.sin φ1 * Math.cos φ2 * Math.cos φ * Math.sin Δλ in
  let y := Math.sin φ1 * Math.cos φ2 * Math.cos φ * Math.cos Δλ
           - Math.cos φ1 * Math.sin φ2 * Math.cos φ in
  let z := Math.cos φ1 * Math.cos φ2 * Math.sin φ * Math.sin Δλ in
  if z * z >? x * x + y * y then Normal None else
  let λm := Math.atan2 (- y) x in
  let Δλi := Math.acos (z / Math.sqrt (x * x + y * y)) in
  let λi1 := λ1 + λm - Δλi in
  let λi2 := λ1 + λm + Δλi in
  Normal (Some (mkCrossings ((toDegrees λi1 + 540) %% 360 - 180)
                            ((toDegrees λi2 + 540) %% 360 - 180))).

(** The difference [Δψ] of isometric latitudes of the rhumb-line methods. *)
Definition rhumb_dpsi (φ1 φ2 : float) : float :=
  Math.log (Math.tan (φ2 / 2 + Math.PI / 4) / Math.tan (φ1 / 2 + Math.PI / 4)).

(** The stretch factor [q] of the rhumb-line methods. *)
Definition rhumb_q (Δφ Δψ φ1 : float) : float :=
  if Math.abs Δψ >? 10e-12 then Δφ / Δψ else Math.cos φ1.

(** [LatLon.prototype.rhumbDistanceTo]. *)
Definition rhumbDistanceTo (this : LatLon) (point : value) (radius : option float)
  : completion float :=
  point <- instanceof_LatLon point "point is not LatLon object" ;;
  let radius := radius_or_default radius in
  let R := radius in
  let φ1 := toRadians (lat this) in let φ2 := toRadians (lat point) in
  let Δφ := φ2 - φ1 in
  let Δλ := toRadians (Math.abs (lon point - lon this)) in
  let Δλ := if Math.abs Δλ >? Math.PI
            then (if Δλ >? 0 then - (2 * Math.PI - Δλ) else 2 * Math.PI + Δλ)
            else Δλ in
  let Δψ := Math.log (Math.tan (φ2 / 2 + Math.PI / 4)
                      / Math.tan (φ1 / 2 + Math.PI / 4)) in
  let q := if Math.abs Δψ >? 10e-12 then Δφ / Δψ else Math.cos φ1 in
  let δ := Math.sqrt (Δφ * Δφ + q * q * Δλ * Δλ) in
  let dist := δ * R in
  Normal dist.

(** [LatLon.prototype.rhumbBearingTo]. *)
Definition rhumbBearingTo (this : LatLon) (point : value) : completion float :=
  point <- instanceof_LatLon point "point is not LatLon object" ;;
  let φ1 := toRadians (lat this) in let φ2 := toRadians (lat point) in
  let Δλ := toRadians (lon point - lon this) in
  let Δλ := if Math.abs Δλ >? Math.PI
            then (if Δλ >? 0 then - (2 * Math.PI - Δλ) else 2 * Math.PI + Δλ)
            else Δλ in
  let Δψ := Math.log (Math.tan (φ2 / 2 + Math.PI / 4)
                      / Math.tan (φ1 / 2 + Math.PI / 4)) in
  let θ := Math.atan2 Δλ Δψ in
  Normal ((toDegrees θ + 360) %% 360).

(** The latitude [φ2] reached by [rhumbDestinationPoint], brought back
    across the pole when it lies beyond it. *)
Definition rhumb_phi2 (φ1 Δφ : float) : float :=
  let φ2 := φ1 + Δφ in
  if Math.abs φ2 >? Math.PI / 2
  then (if φ2 >? 0 then Math.PI - φ2 else - Math.PI - φ2)
  else φ2.

(** [LatLon.prototype.rhumbDestinationPoint]. *)
Definition rhumbDestinationPoint (this : LatLon) (distance bearing : float)
  (radius : option float) : completion LatLon :=
  let radius := radius_or_default radius in
  let δ := distance / radius in
  let φ1 := toRadians (lat this) in let λ1 := toRadians (lon this) in
  let θ := toRadians bearing in
  let Δφ := δ * Math.cos θ in
  let φ2 := φ1 + Δφ in
  let φ2 := if Math.abs φ2 >? Math.PI / 2
            then (if φ2 >? 0 then Math.PI - φ2 else - Math.PI - φ2)
            else φ2 in
  let Δψ := Math.log (Math.tan (φ2 / 2 + Math.PI / 4)
                      / Math.tan (φ1 / 2 + Math.PI / 4)) in
  let q := if Math.abs Δψ >? 10e-12 then Δφ / Δψ else Math.cos φ1 in
  let Δλ := δ * Math.sin θ / q in
  let λ2 := λ1 + Δλ in
  Normal (mkLatLon (toDegrees φ2) ((toDegrees λ2 + 540) %% 360 - 180)).

(** [LatLon.prototype.rhumbMidpointTo]. *)
Definition rhumbMidpointTo (this : LatLon) (point : value) : completion LatLon :=
  point <- instanceof_LatLon point "point is not LatLon object" ;;
  let φ1 := toRadians (lat this) in let λ1 := toRadians (lon this) in
  let φ2 := toRadians (lat point) in let λ2 := toRadians (lon point) in
  let λ1 := if Math.abs (λ2 - λ1) >? Math.PI then λ1 + 2 * Math.PI else λ1 in
  let φ3 := (φ1 + φ2) / 2 in
  let f1 := Math.tan (Math.PI / 4 + φ1 / 2) in
  let f2 := Math.tan (Math.PI / 4 + φ2 / 2) in
  let f3 := Math.tan (Math.PI / 4 + φ3 / 2) in
  let λ3 := ((λ2 - λ1) * Math.log f3 + λ1 * Math.log f2 - λ2 * Math.log f1)
            / Math.log (f2 / f1) in
  let λ3 := if negb (isFinite λ3) then (λ1 + λ2) / 2 else λ3 in
  let p := mkLatLon (toDegrees φ3) ((toDegrees λ3 + 540) %% 360 - 180) in
  Normal p.

End LatLonSpherical.

(** ** Conversion to Number, the constructor and the worker *)

(** [Number(v)] parses a string and, on an object, asks the object's
    [valueOf] and [toString], which the own properties kept in [value] do
    not determine: both are left to the host. *)
Class conversions : Type := {
  StringToNumber : string -> float;
  ObjectToNumber : value -> completion float
}.

(** Conversions for running examples, whose fields are Numbers or
    missing. *)
Module RefConversions.
#[export] Instance conversions : conversions := {|
  StringToNumber := fun _ => nan;
  ObjectToNumber := fun _ => Normal nan
|}.
End RefConversions.

Section Worker.
Context {M : Math.host} {C : conversions}.

(** [Number(v)]. *)
Definition ToNumber (v : value) : completion float :=
  match v with
  | VUndefined => Normal nan
  | VNull => Normal 0
  | VBoolean b => Normal (if b then 1 else 0)
  | VNumber n => Normal n
  | VString s => Normal (StringToNumber s)
  | VLatLon _ | VObject _ => ObjectToNumber v
  end.

(** The constructor [LatLon(lat, lon)], called with or without [new]. *)
Definition new_LatLon (lat lon : value) : completion LatLon :=
  lat <- ToNumber lat ;;
  lon <- ToNumber lon ;;
  Normal (mkLatLon lat lon).

(** [v === s] for a string literal [s]. *)
Definition strict_equals (v : value) (s : string) : bool :=
  match v with
  | VString t => String.eqb t s
  | _ => false
  end.

(** [message(data)] is [self.postMessage(data)]; the state is the list of
    the messages posted so far. *)
Definition message (data : value) (posted : list value) : list value :=
  (posted ++ [data])%list.

(** The listener for ['message'] events, applied to [event.data]. *)
Definition on_message (data : value) (posted : list value) : completion (list value) :=
  action <- get data "action" ;;
  if strict_equals action "distance" then
    nr <- get data "nr" ;;
    lat1 <- get data "lat1" ;; lon1 <- get data "lon1" ;;
    p1 <- new_LatLon lat1 lon1 ;;
    lat2 <- get data "lat2" ;; lon2 <- get data "lon2" ;;
    p2 <- new_LatLon lat2 lon2 ;;
    d <- distanceTo p1 (VLatLon p2) None ;;
    Normal (message (VObject [("nr"%string, nr);
                              ("data"%string,
                               VObject [("distance"%string, VNumber d)])]) posted)
  else
    action <- get data "action" ;;
    if strict_equals action "midpoint" then
      lat1 <- get data "lat1" ;; lon1 <- get data "lon1" ;;
      p1 <- new_LatLon lat1 lon1 ;;
      lat2 <- get data "lat2" ;; lon2 <- get data "lon2" ;;
      point <- new_LatLon lat2 lon2 ;;
      p2 <- midpointTo p1 (VLatLon point) ;;
      nr <- get data "nr" ;;
      Normal (message (VObject [("nr"%string, nr);
                                ("data"%string,
                                 VObject [("lat"%string, VNumber (lat p2));
                                          ("lon"%string, VNumber (lon p2))])]) posted)
    else
      lat0 <- get data "lat" ;; lon0 <- get data "lon" ;;
      p1 <- new_LatLon lat0 lon0 ;;
      distance <- get data "distance" ;; degree <- get data "degree" ;;
      distance <- ToNumber distance ;;
      bearing <- ToNumber degree ;;
      p2 <- destinationPoint p1 distance bearing None ;;
      nr <- get data "nr" ;;
      Normal (message (VObject [("nr"%string, nr);
                                ("data"%string,
                                 VObject [("lat"%string, VNumber (lat p2));
                                          ("lon"%string, VNumber (lon p2))])]) posted).

End Worker.

(** ** Vocabulary of the properties *)

(** [l] is the longitude [x], in degrees, brought back by
    [(x + 540) % 360 - 180]; it lies in [[-180, 180)] as soon as
    [x + 540] is a finite number that is not negative. *)
Definition normalised (x l : float) : Prop :=
  l = (x + 540) %% 360 - 180 /\
  (is_finite (x + 540) = true -> (0 <=? x + 540) = true ->
   (-180 <=? l) = true /\ (l <? 180) = true).

(** A point whose coordinates have finite radian values. *)
Definition radians_finite (p : LatLon) : Prop :=
  is_finite (toRadians (lat p)) = true /\ is_finite (toRadians (lon p)) = true.

(** Two points with the same coordinates, compared as Numbers. *)
Definition coincident (a b : LatLon) : Prop :=
  (lat a =? lat b) = true /\ (lon a =? lon b) = true.

(** A value constructed by [LatLon]. *)
Definition is_LatLon (v : value) : bool :=
  match v with
  | VLatLon _ => true
  | _ => false
  end.

(** A plain object [{ lat: ..., lon: ... }] that is not a [LatLon]. *)
Definition plain_point (lat lon : float) : value :=
  VObject [("lat"%string, VNumber lat); ("lon"%string, VNumber lon)].

(** A compass bearing: a Number in [[0, 360)]. *)
Definition compass (b : float) : Prop := (0 <=? b) = true /\ (b <? 360) = true.

(** A zero of either sign. *)
Definition zero_like (z : float) : Prop := z = 0 \/ z = - 0.

Section Angles.
Context {M : Math.host}.

(** The angle [θ] of [bearingTo], before it is turned into a bearing. *)
Definition bearingTo_theta (this point : LatLon) : float :=
  let φ1 := toRadians (lat this) in let φ2 := toRadians (lat point) in
  let Δλ := toRadians (lon point - lon this) in
  let y := Math.sin Δλ * Math.cos φ2 in
  let x := Math.cos φ1 * Math.sin φ2
           - Math.sin φ1 * Math.cos φ2 * Math.cos Δλ in
  Math.atan2 y x.

(** The difference of longitudes of the rhumb-line methods, taken the
    shorter way round. *)
Definition rhumb_dlon (Δλ : float) : float :=
  if Math.abs Δλ >? Math.PI
  then (if Δλ >? 0 then - (2 * Math.PI - Δλ) else 2 * Math.PI + Δλ)
  else Δλ.

(** The angle [θ] of [rhumbBearingTo]. *)
Definition rhumbBearingTo_theta (this point : LatLon) : float :=
  let φ1 := toRadians (lat this) in let φ2 := toRadians (lat point) in
  Math.atan2 (rhumb_dlon (toRadians (lon point - lon this))) (rhumb_dpsi φ1 φ2).

(** The latitude [φ2] of [destinationPoint], in radians. *)
Definition destinationPoint_phi2 (this : LatLon) (distance bearing : float)
  (radius : option float) : float :=
  let radius := radius_or_default radius in
  let δ := distance / radius in
  let θ := toRadians bearing in
  let φ1 := toRadians (lat this) in
  Math.asin (Math.sin φ1 * Math.cos δ + Math.cos φ1 * Math.sin δ * Math.cos θ).

End Angles.

(** The longitudes the methods compute, in radians, before they are
    converted and wrapped. *)
Section ComputedLongitudes.
Context {M : Math.host}.

(** The longitude [λ3] computed by [midpointTo], in radians. *)
Definition midpointTo_lambda3 (this point : LatLon) : float :=
  let φ1 := toRadians (lat this) in let λ1 := toRadians (lon this) in
  let φ2 := toRadians (lat point) in
  let Δλ := toRadians (lon point - lon this) in
  let Bx := Math.cos φ2 * Math.cos Δλ in
  let By := Math.cos φ2 * Math.sin Δλ in
  λ1 + Math.atan2 By (Math.cos φ1 + Bx).

(** The longitude [λ3] computed by [intermediatePointTo]. *)
Definition intermediatePointTo_lambda3 (this point : LatLon) (fraction : float) : float :=
  let φ1 := toRadians (lat this) in let λ1 := toRadians (lon this) in
  let φ2 := toRadians (lat point) in let λ2 := toRadians (lon point) in
  let sinφ1 := Math.sin φ1 in let cosφ1 := Math.cos φ1 in
  let sinλ1 := Math.sin λ1 in let cosλ1 := Math.cos λ1 in
  let sinφ2 := Math.sin φ2 in let cosφ2 := Math.cos φ2 in
  let sinλ2 := Math.sin λ2 in let cosλ2 := Math.cos λ2 in
  let Δφ := φ2 - φ1 in
  let Δλ := λ2 - λ1 in
  let a := Math.sin (Δφ / 2) * Math.sin (Δφ / 2)
           + Math.cos φ1 * Math.cos φ2 * Math.sin (Δλ / 2) * Math.sin (Δλ / 2) in
  let δ := 2 * Math.atan2 (Math.sqrt a) (Math.sqrt (1 - a)) in
  let A := Math.sin ((1 - fraction) * δ) / Math.sin δ in
  let B := Math.sin (fraction * δ) / Math.sin δ in
  let x := A * cosφ1 * cosλ1 + B * cosφ2 * cosλ2 in
  let y := A * cosφ1 * sinλ1 + B * cosφ2 * sinλ2 in
  Math.atan2 y x.

(** The longitude [λ2] computed by [destinationPoint]. *)
Definition destinationPoint_lambda2 (this : LatLon) (distance bearing : float)
  (radius : option float) : float :=
  let radius := radius_or_default radius in
  let δ := distance / radius in
  let θ := toRadians bearing in
  let φ1 := toRadians (lat this) in
  let λ1 := toRadians (lon this) in
  let φ2 := Math.asin (Math.sin φ1 * Math.cos δ
                       + Math.cos φ1 * Math.sin δ * Math.cos θ) in
  let x := Math.cos δ - Math.sin φ1 * Math.sin φ2 in
  let y := Math.sin θ * Math.sin δ * Math.cos φ1 in
  λ1 + Math.atan2 y x.

(** The longitude [λ3] computed by [intersection] once its three tests
    are passed. *)
Definition intersection_lambda3 (p1 : LatLon) (brng1 : float) (p2 : LatLon)
  (brng2 : float) : float :=
  let φ1 := toRadians (lat p1) in let λ1 := toRadians (lon p1) in
  let θ13 := toRadians brng1 in
  let δ12 := intersection_delta12 p1 p2 in
  let α1 := fst (intersection_alpha p1 brng1 p2 brng2) in
  let α2 := snd (intersection_alpha p1 brng1 p2 brng2) in
  let α3 := Math.acos ((- Math.cos α1) * Math.cos α2
                       + Math.sin α1 * Math.sin α2 * Math.cos δ12) in
  let δ13 := Math.atan2 (Math.sin δ12 * Math.sin α1 * Math.sin α2)
                        (Math.cos α2 + Math.cos α1 * Math.cos α3) in
  let φ3 := Math.asin (Math.sin φ1 * Math.cos δ13
                       + Math.cos φ1 * Math.sin δ13 * Math.cos θ13) in
  let Δλ13 := Math.atan2 (Math.sin θ13 * Math.sin δ13 * Math.cos φ1)
                         (Math.cos δ13 - Math.sin φ1 * Math.sin φ3) in
  λ1 + Δλ13.

(** The two longitudes [λi1], [λi2] computed by [crossingParallels]. *)
Definition crossingParallels_lambda (p1 p2 : LatLon) (latitude : float) : float * float :=
  let φ := toRadians latitude in
  let φ1 := toRadians (lat p1) in let λ1 := toRadians (lon p1) in
  let φ2 := toRadians (lat p2) in let λ2 := toRadians (lon p2) in
  let '(x, y, z) := crossing_xyz φ φ1 φ2 (λ2 - λ1) in
  let λm := Math.atan2 (- y) x in
  let Δλi := Math.acos (z / Math.sqrt (x * x + y * y)) in
  (λ1 + λm - Δλi, λ1 + λm + Δλi).

(** The longitude [λ2] computed by [rhumbDestinationPoint]. *)
Definition rhumbDestinationPoint_lambda2 (this : LatLon) (distance bearing : float)
  (radius : option float) : float :=
  let radius := radius_or_default radius in
  let δ := distance / radius in
  let φ1 := toRadians (lat this) in let λ1 := toRadians (lon this) in
  let θ := toRadians bearing in
  let Δφ := δ * Math.cos θ in
  let φ2 := rhumb_phi2 φ1 Δφ in
  let q := rhumb_q Δφ (rhumb_dpsi φ1 φ2) φ1 in
  λ1 + δ * Math.sin θ / q.

(** The longitude [λ3] computed by [rhumbMidpointTo]. *)
Definition rhumbMidpointTo_lambda3 (this point : LatLon) : float :=
  let φ1 := toRadians (lat this) in let λ1 := toRadians (lon this) in
  let φ2 := toRadians (lat point) in let λ2 := toRadians (lon point) in
  let λ1 := if Math.abs (λ2 - λ1) >? Math.PI then λ1 + 2 * Math.PI else λ1 in
  let φ3 := (φ1 + φ2) / 2 in
  let f1 := Math.tan (Math.PI / 4 + φ1 / 2) in
  let f2 := Math.tan (Math.PI / 4 + φ2 / 2) in
  let f3 := Math.tan (Math.PI / 4 + φ3 / 2) in
  let λ3 := ((λ2 - λ1) * Math.log f3 + λ1 * Math.log f2 - λ2 * Math.log f1)
            / Math.log (f2 / f1) in
  if negb (isFinite λ3) then (λ1 + λ2) / 2 else λ3.

End ComputedLongitudes.

(** The parts of [intermediatePointTo]. *)
Section Interpolation.
Context {M : Math.host}.

(** The angular distance [δ] computed inside [intermediatePointTo]. *)
Definition intermediatePointTo_delta (this point : LatLon) : float :=
  let φ1 := toRadians (lat this) in let λ1 := toRadians (lon this) in
  let φ2 := toRadians (lat point) in let λ2 := toRadians (lon point) in
  let Δφ := φ2 - φ1 in
  let Δλ := λ2 - λ1 in
  let a := Math.sin (Δφ / 2) * Math.sin (Δφ / 2)
           + Math.cos φ1 * Math.cos φ2 * Math.sin (Δλ / 2) * Math.sin (Δλ / 2) in
  2 * Math.atan2 (Math.sqrt a) (Math.sqrt (1 - a)).

(** The interpolation weights [A] and [B] of [intermediatePointTo]. *)
Definition intermediatePointTo_A (this point : LatLon) (fraction : float) : float :=
  let δ := intermediatePointTo_delta this point in
  Math.sin ((1 - fraction) * δ) / Math.sin δ.

Definition intermediatePointTo_B (this point : LatLon) (fraction : float) : float :=
  let δ := intermediatePointTo_delta this point in
  Math.sin (fraction * δ) / Math.sin δ.

(** The point [intermediatePointTo] builds from the two weights. *)
Definition intermediatePointTo_weighted (this point : LatLon) (A B : float) : LatLon :=
  let φ1 := toRadians (lat this) in let λ1 := toRadians (lon this) in
  let φ2 := toRadians (lat point) in let λ2 := toRadians (lon point) in
  let sinφ1 := Math.sin φ1 in let cosφ1 := Math.cos φ1 in
  let sinλ1 := Math.sin λ1 in let cosλ1 := Math.cos λ1 in
  let sinφ2 := Math.sin φ2 in let cosφ2 := Math.cos φ2 in
  let sinλ2 := Math.sin λ2 in let cosλ2 := Math.cos λ2 in
  let x := A * cosφ1 * cosλ1 + B * cosφ2 * cosλ2 in
  let y := A * cosφ1 * sinλ1 + B * cosφ2 * sinλ2 in
  let z := A * sinφ1 + B * sinφ2 in
  let φ3 := Math.atan2 z (Math.sqrt (x * x + y * y)) in
  let λ3 := Math.atan2 y x in
  mkLatLon (toDegrees φ3) ((toDegrees λ3 + 540) %% 360 - 180).
End Interpolation.

(** [v.name] is a Number. *)
Definition numeric (v : value) (name : string) : bool :=
  match get v name with
  | Normal (VNumber _) => true
  | _ => false
  end.

(** A value that is not an object. *)
Definition primitive (v : value) : bool :=
  match v with
  | VLatLon _ | VObject _ => false
  | _ => true
  end.

(** A message whose fields are all primitive values. *)
Definition flat (props : list (string * value)) : bool :=
  forallb (fun kv => primitive (snd kv)) props.

(** A distance request with Number coordinates. *)
Definition distance_request (nr : value) (lat1 lon1 lat2 lon2 : float) : value :=
  VObject [("action"%string, VString "distance"); ("nr"%string, nr);
           ("lat1"%string, VNumber lat1); ("lon1"%string, VNumber lon1);
           ("lat2"%string, VNumber lat2); ("lon2"%string, VNumber lon2)].

(** ** The great circle through two points, over the reals *)

Section GreatCircle.
Local Open Scope R_scope.

Definition vec : Type := (R * R * R)%type.

(** The unit vector of the point at latitude [φ] and longitude [λ]. *)
Definition nvector (φ λ : R) : vec :=
  (cos φ * cos λ, cos φ * sin λ, sin φ).

Definition cross (a b : vec) : vec :=
  let '(ax, ay, az) := a in
  let '(bx, by_, bz) := b in
  (ay * bz - az * by_, az * bx - ax * bz, ax * by_ - ay * bx).

Definition dot (a b : vec) : R :=
  let '(ax, ay, az) := a in
  let '(bx, by_, bz) := b in
  ax * bx + ay * by_ + az * bz.

(** The great circle through two points meets the parallel of latitude
    [φ]: some point of that parallel lies in the plane of the two. *)
Definition reaches_latitude (φ1 λ1 φ2 λ2 φ : R) : Prop :=
  exists λ, dot (cross (nvector φ1 λ1) (nvector φ2 λ2)) (nvector φ λ) = 0.

(** The components [x], [y], [z] of [crossingParallels], in exact
    arithmetic. *)
Definition crossing_xyz_exact (φ φ1 φ2 Δλ : R) : R * R * R :=
  let x := sin φ1 * cos φ2 * cos φ * sin Δλ in
  let y := sin φ1 * cos φ2 * cos φ * cos Δλ - cos φ1 * sin φ2 * cos φ in
  let z := cos φ1 * cos φ2 * sin φ * sin Δλ in
  (x, y, z).

End GreatCircle.

(** ** Real values of binary64 numbers *)

Section RealValue.
Local Open Scope R_scope.

Definition bpow (e : Z) : R := powerRZ 2 e.

Definition F2R (m e : Z) : R := IZR m * bpow e.

(** The real number a finite float stands for; [0] for the others. *)
Definition SF2R (f : spec_float) : R :=
  match f with
  | S754_finite s m e => F2R (cond_Zopp s (Zpos m)) e
  | _ => 0
  end.

Definition SFfinite (f : spec_float) : bool :=
  match f with
  | S754_zero _ | S754_finite _ _ _ => true
  | _ => false
  end.

Definition B2R (x : float) : R := SF2R (Prim2SF x).

Definition Rcompare (a b : R) : comparison :=
  match total_order_T a b with
  | inleft (left _) => Lt
  | inleft (right _) => Eq
  | inright _ => Gt
  end.

End RealValue.

(** The bits a right shift has dropped are all zero. *)
Definition shr_exact (mrs : shr_record) : bool := negb (shr_r mrs || shr_s mrs).

(** [b] is [a] shifted right by [k] bits. *)
Definition shifted (k : Z) (a b : shr_record) : Prop :=
  (shr_m b = shr_m a / 2 ^ k /\
   (shr_exact b = true <-> shr_exact a = true /\ shr_m a mod 2 ^ k = 0))%Z.

(** The real [x] is at or above [m * 2^e], strictly so when the
    location says that digits have been lost. *)
Definition located (x : R) (m e : Z) (l : location) : Prop :=
  (F2R m e <= x /\ (l <> loc_Exact -> F2R m e < x))%R.

(** The magnitude of a finite float, and the sign it was rounded with. *)
Definition SFmag (f : spec_float) : R :=
  match f with
  | S754_finite _ m e => F2R (Zpos m) e
  | _ => 0%R
  end.

Definition signed_by (s : bool) (f : spec_float) : Prop :=
  match f with
  | S754_zero s' | S754_finite s' _ _ => s' = s
  | _ => False
  end.

(** * Powers of two and digit counts *)

Section Bpow.
Local Open Scope R_scope.

Lemma Rabs_le_inv (a b : R) : Rabs a <= b -> - b <= a <= b.
Proof. unfold Rabs. destruct (Rcase_abs a); lra. Qed.

Lemma bpow_gt_0 (e : Z) : 0 < bpow e.
Proof. apply powerRZ_lt; lra. Qed.

Lemma bpow_plus (a b : Z) : bpow (a + b) = bpow a * bpow b.
Proof. apply powerRZ_add; lra. Qed.

Lemma bpow_IZR (k : Z) : (0 <= k)%Z -> bpow k = IZR (2 ^ k).
Proof.
  intros Hk. unfold bpow.
  destruct k as [|p|p]; [reflexivity| |lia].
  cbn [powerRZ]. rewrite pow_IZR. now rewrite positive_nat_Z.
Qed.

Lemma bpow_ge_1 (k : Z) : (0 <= k)%Z -> 1 <= bpow k.
Proof.
  intros Hk. rewrite bpow_IZR by assumption. apply IZR_le.
  assert (0 < 2 ^ k)%Z by (apply Z.pow_pos_nonneg; lia). lia.
Qed.

Lemma bpow_le (a b : Z) : (a <= b)%Z -> bpow a <= bpow b.
Proof.
  intros Hab. replace b with (a + (b - a))%Z by lia. rewrite bpow_plus.
  pose proof (bpow_gt_0 a). pose proof (bpow_ge_1 (b - a) ltac:(lia)). nra.
Qed.

Lemma F2R_shift (m e k : Z) : (0 <= k)%Z -> F2R (m * 2 ^ k) e = F2R m (e + k).
Proof.
  intros Hk. unfold F2R. rewrite mult_IZR, <- bpow_IZR by assumption.
  rewrite (Z.add_comm e k), bpow_plus. ring.
Qed.

Lemma F2R_le (m1 m2 e : Z) : (m1 <= m2)%Z -> F2R m1 e <= F2R m2 e.
Proof.
  intros H. unfold F2R. apply IZR_le in H. pose proof (bpow_gt_0 e). nra.
Qed.

Lemma F2R_lt_inv (m1 m2 e : Z) : F2R m1 e < F2R m2 e -> (m1 < m2)%Z.
Proof.
  unfold F2R. intros H. apply lt_IZR. pose proof (bpow_gt_0 e). nra.
Qed.

Lemma F2R_le_inv (m1 m2 e : Z) : F2R m1 e <= F2R m2 e -> (m1 <= m2)%Z.
Proof.
  unfold F2R. intros H. apply le_IZR. pose proof (bpow_gt_0 e). nra.
Qed.

Lemma F2R_lt (m1 m2 e : Z) : (m1 < m2)%Z -> F2R m1 e < F2R m2 e.
Proof.
  intros H. unfold F2R. apply IZR_lt in H. pose proof (bpow_gt_0 e). nra.
Qed.

Lemma F2R_ge_0 (m e : Z) : (0 <= m)%Z -> 0 <= F2R m e.
Proof.
  intros H. unfold F2R. apply IZR_le in H. pose proof (bpow_gt_0 e). nra.
Qed.

Lemma F2R_opp (m e : Z) : F2R (- m) e = - F2R m e.
Proof. unfold F2R. rewrite opp_IZR. ring. Qed.

Lemma F2R_mult (m1 e1 m2 e2 : Z) : F2R m1 e1 * F2R m2 e2 = F2R (m1 * m2) (e1 + e2).
Proof. unfold F2R. rewrite mult_IZR, bpow_plus. ring. Qed.

Lemma bpow_succ (e : Z) : bpow (e + 1) = 2 * bpow e.
Proof. rewrite bpow_plus. change (bpow 1) with (2 * 1). ring. Qed.

Lemma F2R_exp_le (m e e' : Z) : (0 <= m)%Z -> (e <= e')%Z -> F2R m e <= F2R m e'.
Proof.
  intros Hm He. unfold F2R. apply IZR_le in Hm. pose proof (bpow_le e e' He).
  pose proof (bpow_gt_0 e). nra.
Qed.

End Bpow.

Section Digits.
Local Open Scope Z_scope.

Lemma digits2_bounds (p : positive) :
  2 ^ (Zpos (digits2_pos p) - 1) <= Zpos p < 2 ^ Zpos (digits2_pos p).
Proof.
  induction p as [p IH|p IH|]; cbn [digits2_pos].
  - rewrite Pos2Z.inj_succ, (Pos2Z.inj_xI p).
    replace (Z.succ (Zpos (digits2_pos p)) - 1) with (Z.succ (Zpos (digits2_pos p) - 1)) by lia.
    rewrite !Z.pow_succ_r by lia. lia.
  - rewrite Pos2Z.inj_succ, (Pos2Z.inj_xO p).
    replace (Z.succ (Zpos (digits2_pos p)) - 1) with (Z.succ (Zpos (digits2_pos p) - 1)) by lia.
    rewrite !Z.pow_succ_r by lia. lia.
  - cbn. lia.
Qed.

Lemma Zdigits2_nonneg (m : Z) : 0 <= Zdigits2 m.
Proof. destruct m; cbn; lia. Qed.

Lemma Zdigits2_bounds (m : Z) :
  0 < m -> 2 ^ (Zdigits2 m - 1) <= m < 2 ^ Zdigits2 m.
Proof.
  destruct m as [|p|p]; try lia. intros _. apply digits2_bounds.
Qed.

Lemma pow2_pos (k : Z) : 0 <= k -> 0 < 2 ^ k.
Proof. intros. apply Z.pow_pos_nonneg; lia. Qed.

Lemma pow2_le (a b : Z) : 0 <= a <= b -> 2 ^ a <= 2 ^ b.
Proof. intros. apply Z.pow_le_mono_r; lia. Qed.

Lemma pow2_lt (a b : Z) : 0 <= a < b -> 2 ^ a < 2 ^ b.
Proof. intros. apply Z.pow_lt_mono_r; lia. Qed.

Lemma Zdigits2_unique (v a : Z) :
  0 < v -> 2 ^ (a - 1) <= v < 2 ^ a -> 0 < a -> Zdigits2 v = a.
Proof.
  intros Hv [Hlo Hhi] Ha.
  pose proof (Zdigits2_bounds v Hv) as [Dlo Dhi].
  pose proof (Zdigits2_nonneg v) as Dn.
  destruct (Z.lt_trichotomy (Zdigits2 v) a) as [H|[H|H]]; [|assumption|].
  - assert (2 ^ Zdigits2 v <= 2 ^ (a - 1)) by (apply pow2_le; lia). lia.
  - assert (2 ^ a <= 2 ^ (Zdigits2 v - 1)) by (apply pow2_le; lia). lia.
Qed.

Lemma Zdigits2_pos (v : Z) : 0 < v -> 0 < Zdigits2 v.
Proof. destruct v; cbn; lia. Qed.

Lemma Zdigits2_shift (v k : Z) :
  0 < v -> 0 <= k -> Zdigits2 (v * 2 ^ k) = Zdigits2 v + k.
Proof.
  intros Hv Hk.
  pose proof (Zdigits2_bounds v Hv) as [Dlo Dhi].
  pose proof (Zdigits2_pos v Hv) as Dp.
  pose proof (pow2_pos k Hk) as Pk.
  apply Zdigits2_unique; [nia| |lia].
  replace (Zdigits2 v + k - 1) with (Zdigits2 v - 1 + k) by lia.
  rewrite !Z.pow_add_r by lia. nia.
Qed.

Lemma iter_xO_spec (m d : positive) : Zpos (Pos.iter xO m d) = Zpos m * 2 ^ Zpos d.
Proof.
  induction d as [|d IH] using Pos.peano_ind.
  - cbn. lia.
  - rewrite Pos.iter_succ, Pos2Z.inj_xO, IH, Pos2Z.inj_succ, Z.pow_succ_r by lia. ring.
Qed.

Lemma shl_align_spec (m : positive) (e e' : Z) :
  snd (shl_align m e e') = Z.min e e' /\
  Zpos (fst (shl_align m e e')) = Zpos m * 2 ^ (e - Z.min e e').
Proof.
  unfold shl_align. destruct (e' - e) as [|d|d] eqn:E; cbn [fst snd].
  - rewrite Z.min_l by lia. rewrite Z.sub_diag. split; [reflexivity|lia].
  - rewrite Z.min_l by lia. rewrite Z.sub_diag. split; [reflexivity|lia].
  - rewrite Z.min_r by lia. split; [reflexivity|].
    rewrite iter_xO_spec. f_equal. f_equal. lia.
Qed.

(** A number with [d] digits keeps [d - k] of them after a right shift. *)
Lemma div_pow2_lower (m d k : Z) :
  0 <= k < d -> 2 ^ (d - 1) <= m -> 2 ^ (d - 1 - k) <= m / 2 ^ k.
Proof.
  intros Hk Hm.
  assert (H2 : 2 ^ (d - 1) = 2 ^ (d - 1 - k) * 2 ^ k).
  { rewrite <- Z.pow_add_r by lia. f_equal. lia. }
  apply Z.div_le_lower_bound; [apply pow2_pos; lia|]. lia.
Qed.

End Digits.

(** * Right shifts *)

Section Shifts.
Local Open Scope Z_scope.

Lemma shifted_1 (mrs : shr_record) : 0 <= shr_m mrs -> shifted 1 mrs (shr_1 mrs).
Proof.
  destruct mrs as [m r s]. unfold shifted, shr_exact. cbn [shr_m shr_r shr_s].
  intros Hm. change (2 ^ 1) with 2.
  destruct m as [|[p|p|]|p]; try lia; cbn [shr_1 shr_m shr_r shr_s].
  - split; [reflexivity|]. destruct r, s; cbn; intuition (auto; discriminate).
  - split; [rewrite (Pos2Z.inj_xI p); apply Z.div_unique with 1; lia|].
    assert (Zpos p~1 mod 2 = 1) as ->.
    { rewrite (Pos2Z.inj_xI p). symmetry. apply Z.mod_unique with (Zpos p); lia. }
    cbn. intuition discriminate.
  - split; [rewrite (Pos2Z.inj_xO p); apply Z.div_unique with 0; lia|].
    rewrite (Pos2Z.inj_xO p). replace (2 * Zpos p) with (Zpos p * 2) by lia.
    rewrite Z.mod_mul by lia.
    destruct r, s; cbn; intuition (auto; discriminate).
  - split; [reflexivity|]. cbn. intuition discriminate.
Qed.

Lemma mod_pow2_split (m j k : Z) :
  0 <= j -> 0 <= k ->
  m mod 2 ^ (j + k) = 0 <-> m mod 2 ^ j = 0 /\ (m / 2 ^ j) mod 2 ^ k = 0.
Proof.
  intros Hj Hk.
  pose proof (pow2_pos j Hj) as Pj. pose proof (pow2_pos k Hk) as Pk.
  rewrite Z.pow_add_r by lia. split.
  - intros H. apply Z.mod_divide in H; [|lia]. destruct H as [w Hw]. split.
    + rewrite Hw. replace (w * (2 ^ j * 2 ^ k)) with (w * 2 ^ k * 2 ^ j) by ring.
      apply Z.mod_mul. lia.
    + rewrite Hw. replace (w * (2 ^ j * 2 ^ k)) with (w * 2 ^ k * 2 ^ j) by ring.
      rewrite Z.div_mul by lia. apply Z.mod_mul. lia.
  - intros [H1 H2].
    apply Z.mod_divide in H1; [|lia]. destruct H1 as [u Hu].
    rewrite Hu, Z.div_mul in H2 by lia.
    apply Z.mod_divide in H2; [|lia]. destruct H2 as [v Hv].
    rewrite Hu, Hv. replace (v * 2 ^ k * 2 ^ j) with (v * (2 ^ j * 2 ^ k)) by ring.
    apply Z.mod_mul. lia.
Qed.

Lemma shifted_trans (j k : Z) (a b c : shr_record) :
  0 <= j -> 0 <= k -> 0 <= shr_m a ->
  shifted j a b -> shifted k b c -> shifted (j + k) a c.
Proof.
  intros Hj Hk Ha [Hb Eb] [Hc Ec]. split.
  - rewrite Hc, Hb, Z.pow_add_r by lia.
    pose proof (pow2_pos j Hj). pose proof (pow2_pos k Hk).
    rewrite Z.div_div by lia. reflexivity.
  - rewrite Ec, Eb, Hb, (mod_pow2_split (shr_m a) j k) by assumption. tauto.
Qed.

Lemma shifted_nonneg (k : Z) (a b : shr_record) :
  0 <= k -> 0 <= shr_m a -> shifted k a b -> 0 <= shr_m b.
Proof.
  intros Hk Ha [Hb _]. rewrite Hb. apply Z.div_pos; [assumption|now apply pow2_pos].
Qed.

Lemma shifted_iter (p : positive) (mrs : shr_record) :
  0 <= shr_m mrs -> shifted (Zpos p) mrs (SpecFloat.iter_pos shr_1 p mrs).
Proof.
  revert mrs. induction p as [p IH|p IH|]; intros mrs Hm; cbn [SpecFloat.iter_pos].
  - pose proof (shifted_1 mrs Hm) as H1.
    pose proof (shifted_nonneg 1 _ _ ltac:(lia) Hm H1) as N1.
    pose proof (IH _ N1) as H2.
    pose proof (shifted_nonneg (Zpos p) _ _ ltac:(lia) N1 H2) as N2.
    pose proof (IH _ N2) as H3.
    replace (Zpos p~1) with (1 + (Zpos p + Zpos p)) by lia.
    eapply shifted_trans; try eassumption; try lia.
    eapply shifted_trans; try eassumption; lia.
  - pose proof (IH _ Hm) as H2.
    pose proof (shifted_nonneg (Zpos p) _ _ ltac:(lia) Hm H2) as N2.
    pose proof (IH _ N2) as H3.
    replace (Zpos p~0) with (Zpos p + Zpos p) by lia.
    eapply shifted_trans; try eassumption; lia.
  - now apply shifted_1.
Qed.

Lemma shifted_0 (a : shr_record) : shifted 0 a a.
Proof.
  split; [now rewrite Z.pow_0_r, Z.div_1_r|].
  rewrite Z.pow_0_r, Z.mod_1_r. tauto.
Qed.

End Shifts.

(** * Rounding to binary64 stays below every float above the exact value *)

Section Rounding.
Local Open Scope Z_scope.

Lemma fexp_eq (e : Z) : SpecFloat.fexp prec emax e = Z.max (e - 53) (-1074).
Proof. reflexivity. Qed.

Lemma bounded_facts (m : positive) (e : Z) :
  SpecFloat.bounded prec emax m e = true ->
  -1074 <= e <= 971 /\ Zpos m < 2 ^ 53 /\ (-1074 < e -> 2 ^ 52 <= Zpos m).
Proof.
  unfold SpecFloat.bounded, canonical_mantissa. rewrite fexp_eq.
  intros H. apply andb_prop in H. destruct H as [Hc He].
  apply Z.eqb_eq in Hc. apply Z.leb_le in He.
  change (emax - prec) with 971 in He.
  pose proof (digits2_bounds m) as [Hlo Hhi].
  assert (Hd : Zpos (digits2_pos m) <= 53) by lia.
  repeat split; try lia.
  - apply Z.lt_le_trans with (1 := Hhi). apply pow2_le. lia.
  - intros He'. assert (Zpos (digits2_pos m) = 53) as E by lia.
    rewrite E in Hlo. exact Hlo.
Qed.

Lemma loc_of_shr_record_exact (mrs : shr_record) :
  loc_of_shr_record mrs = loc_Exact <-> shr_exact mrs = true.
Proof.
  destruct mrs as [m [|] [|]]; cbn; split; intros H; congruence.
Qed.

Lemma loc_of_shr_record_of_loc (m : Z) (l : location) :
  loc_of_shr_record (shr_record_of_loc m l) = l /\ shr_m (shr_record_of_loc m l) = m.
Proof. destruct l as [|[| |]]; split; reflexivity. Qed.

(** [shr_fexp] shifts right by the distance to the canonical exponent,
    when that distance is positive. *)
Lemma shr_fexp_shifted (m e : Z) (l : location) :
  0 <= m ->
  exists mrs,
    shr_fexp prec emax m e l
    = (mrs, e + Z.max 0 (SpecFloat.fexp prec emax (Zdigits2 m + e) - e))
    /\ shifted (Z.max 0 (SpecFloat.fexp prec emax (Zdigits2 m + e) - e))
               (shr_record_of_loc m l) mrs.
Proof.
  intros Hm. unfold shr_fexp, shr.
  destruct (SpecFloat.fexp prec emax (Zdigits2 m + e) - e) as [|p|p] eqn:En.
  - exists (shr_record_of_loc m l). rewrite Z.add_0_r. split; [reflexivity|apply shifted_0].
  - exists (SpecFloat.iter_pos shr_1 p (shr_record_of_loc m l)).
    rewrite Z.max_r by lia. split; [reflexivity|].
    apply shifted_iter. now rewrite (proj2 (loc_of_shr_record_of_loc m l)).
  - exists (shr_record_of_loc m l). rewrite Z.max_l by lia. rewrite Z.add_0_r.
    split; [reflexivity|apply shifted_0].
Qed.

Lemma shifted_value_le (k m e : Z) (a b : shr_record) :
  0 <= k -> shr_m a = m -> shifted k a b -> (F2R (shr_m b) (e + k) <= F2R m e)%R.
Proof.
  intros Hk Ha [Hb _]. rewrite <- F2R_shift by assumption. apply F2R_le.
  rewrite Hb, Ha. rewrite Z.mul_comm. apply Z.mul_div_le. now apply pow2_pos.
Qed.

Lemma shifted_located (k m e : Z) (l : location) (x : R) (b : shr_record) :
  0 <= k -> 0 <= m -> located x m e l ->
  shifted k (shr_record_of_loc m l) b ->
  located x (shr_m b) (e + k) (loc_of_shr_record b).
Proof.
  intros Hk Hm [Hx Hl] Hs.
  pose proof (loc_of_shr_record_of_loc m l) as [Hloc Hma].
  pose proof (shifted_value_le k m e _ _ Hk Hma Hs) as Hle.
  split; [lra|]. intros Hne.
  destruct Hs as [Hb Eb]. rewrite Hma in Hb, Eb.
  destruct (Z.eq_dec (m mod 2 ^ k) 0) as [Hz|Hnz].
  - (* nothing was dropped: the input itself was inexact *)
    assert (l <> loc_Exact) as Hl'.
    { intros ->. apply Hne. apply loc_of_shr_record_exact, Eb. now split. }
    specialize (Hl Hl'). lra.
  - (* a non-zero bit was dropped *)
    apply Rlt_le_trans with (2 := Hx).
    rewrite <- F2R_shift by assumption.
    assert (shr_m b * 2 ^ k < m); [|unfold F2R; apply IZR_lt in H;
      pose proof (bpow_gt_0 e); nra].
    rewrite Hb. pose proof (pow2_pos k Hk).
    pose proof (Z.div_mod m (2 ^ k) ltac:(lia)).
    pose proof (Z.mod_pos_bound m (2 ^ k) ltac:(lia)). lia.
Qed.

Lemma round_nearest_even_cases (m : Z) (l : location) :
  round_nearest_even m l = m \/
  (round_nearest_even m l = m + 1 /\ l <> loc_Exact).
Proof.
  destruct l as [|[| |]]; cbn; try (left; reflexivity).
  - destruct (Z.even m); [left; reflexivity|right; split; [reflexivity|discriminate]].
  - right; split; [reflexivity|discriminate].
Qed.

(** Between [m1 * 2^e1], with [m1] normalised, and the next multiple of
    [2^e1] there is no binary64 number. *)
Lemma above_grid (m1 e1 : Z) (mF : positive) (eF : Z) :
  SpecFloat.bounded prec emax mF eF = true ->
  -1074 <= e1 -> (-1074 < e1 -> 2 ^ 52 <= m1) ->
  (F2R m1 e1 < F2R (Zpos mF) eF)%R ->
  (F2R (m1 + 1) e1 <= F2R (Zpos mF) eF)%R.
Proof.
  intros HF He1 Hc Hlt. destruct (bounded_facts _ _ HF) as (HeF & HmF & HnF).
  destruct (Z_le_gt_dec e1 eF) as [Hle|Hgt].
  - assert (E : F2R (Zpos mF) eF = F2R (Zpos mF * 2 ^ (eF - e1)) e1).
    { rewrite F2R_shift by lia. f_equal. lia. }
    rewrite E in *. apply F2R_le. apply F2R_lt_inv in Hlt. lia.
  - exfalso. assert (H52 : 2 ^ 52 <= m1) by (apply Hc; lia).
    assert (E : F2R m1 e1 = F2R (m1 * 2 ^ (e1 - eF)) eF).
    { rewrite F2R_shift by lia. f_equal. lia. }
    rewrite E in Hlt. apply F2R_lt_inv in Hlt.
    assert (H2 : 2 ^ 1 <= 2 ^ (e1 - eF)) by (apply pow2_le; lia).
    change (2 ^ 1) with 2 in H2. change (2 ^ 53) with (2 ^ 52 * 2) in HmF.
    assert (0 < 2 ^ 52) by (apply pow2_pos; lia). nia.
Qed.

(** The upper-bound theorem: rounding [x], located at [(m, e, l)] and not
    more precise than the format, never exceeds a binary64 number [F]
    that lies at or above [x]; in particular it does not overflow. *)
Theorem binary_round_aux_le (s : bool) (m e : Z) (l : location) (x : R)
  (mF : positive) (eF : Z) :
  0 <= m -> e <= SpecFloat.fexp prec emax (Zdigits2 m + e) ->
  located x m e l ->
  SpecFloat.bounded prec emax mF eF = true ->
  (x <= F2R (Zpos mF) eF)%R ->
  signed_by s (binary_round_aux prec emax s m e l) /\
  (SFmag (binary_round_aux prec emax s m e l) <= F2R (Zpos mF) eF)%R.
Proof.
  intros Hm Hwf Hx HF HxF.
  destruct (bounded_facts _ _ HF) as (HeF & HmF & HnF).
  unfold binary_round_aux.
  destruct (shr_fexp_shifted m e l Hm) as (mrs1 & E1 & S1). rewrite E1.
  remember (Z.max 0 (SpecFloat.fexp prec emax (Zdigits2 m + e) - e)) as n eqn:En.
  assert (Hn : n = SpecFloat.fexp prec emax (Zdigits2 m + e) - e) by lia.
  assert (Hn0 : 0 <= n) by lia.
  pose proof (shifted_located n m e l x mrs1 Hn0 Hm Hx S1) as [L1 L1'].
  pose proof (loc_of_shr_record_of_loc m l) as [_ Hma].
  assert (N1 : 0 <= shr_m mrs1).
  { apply (shifted_nonneg n (shr_record_of_loc m l)); [assumption| |assumption].
    now rewrite Hma. }
  assert (Hm1 : shr_m mrs1 = m / 2 ^ n).
  { destruct S1 as [S1 _]. now rewrite S1, Hma. }
  remember (shr_m mrs1) as m1 eqn:Em1.
  remember (e + n) as e1 eqn:Ee1.
  assert (He1 : -1074 <= e1) by (rewrite fexp_eq in Hn; lia).
  assert (Hcan : -1074 < e1 -> 2 ^ 52 <= m1).
  { intros H. rewrite fexp_eq in Hn.
    assert (Hd : Zdigits2 m = n + 53) by lia.
    assert (Hmpos : 0 < m).
    { destruct m as [|p|p]; [cbn in Hd; lia|lia|lia]. }
    pose proof (Zdigits2_bounds m Hmpos) as [Hlo _]. rewrite Hd in Hlo.
    rewrite Hm1. replace 52 with (n + 53 - 1 - n) by lia.
    apply div_pow2_lower; [lia|assumption]. }
  remember (round_nearest_even m1 (loc_of_shr_record mrs1)) as m2 eqn:Em2.
  assert (H2 : m1 <= m2).
  { destruct (round_nearest_even_cases m1 (loc_of_shr_record mrs1)) as [H|[H _]]; lia. }
  assert (A : (F2R m2 e1 <= F2R (Zpos mF) eF)%R).
  { destruct (round_nearest_even_cases m1 (loc_of_shr_record mrs1)) as [H|[H Hl]].
    - rewrite Em2, H. lra.
    - rewrite Em2, H. apply above_grid; try assumption.
      specialize (L1' Hl). lra. }
  assert (Hm2 : 0 <= m2) by lia.
  destruct (shr_fexp_shifted m2 e1 loc_Exact Hm2) as (mrs3 & E3 & S3). rewrite E3.
  remember (Z.max 0 (SpecFloat.fexp prec emax (Zdigits2 m2 + e1) - e1)) as n' eqn:En'.
  assert (Hn'0 : 0 <= n') by lia.
  pose proof (loc_of_shr_record_of_loc m2 loc_Exact) as [_ Hma2].
  pose proof (shifted_value_le n' m2 e1 _ _ Hn'0 Hma2 S3) as V3.
  assert (N3 : 0 <= shr_m mrs3).
  { apply (shifted_nonneg n' (shr_record_of_loc m2 loc_Exact)); [assumption| |assumption].
    now rewrite Hma2. }
  assert (Hm3 : shr_m mrs3 = m2 / 2 ^ n').
  { destruct S3 as [S3 _]. now rewrite S3, Hma2. }
  destruct (shr_m mrs3) as [|m3|m3] eqn:Em3; [| |lia].
  - split; [reflexivity|]. cbn [SFmag]. apply F2R_ge_0. lia.
  - destruct (Z.leb (e1 + n') (emax - prec)) eqn:Ele.
    + split; [reflexivity|]. cbn [SFmag]. lra.
    + exfalso. apply Z.leb_gt in Ele. change (emax - prec) with 971 in Ele.
      assert (H52 : 2 ^ 52 <= Zpos m3).
      { destruct (Z.eq_dec n' 0) as [Hz|Hnz].
        - rewrite Hm3, Hz, Z.pow_0_r, Z.div_1_r. apply Z.le_trans with m1; [|lia].
          apply Hcan. lia.
        - rewrite fexp_eq in En'.
          assert (Hd : Zdigits2 m2 = n' + 53) by lia.
          assert (Hmpos : 0 < m2).
          { destruct m2 as [|p|p]; [cbn in Hd; lia|lia|lia]. }
          pose proof (Zdigits2_bounds m2 Hmpos) as [Hlo _]. rewrite Hd in Hlo.
          rewrite Hm3. replace 52 with (n' + 53 - 1 - n') by lia.
          apply div_pow2_lower; [lia|assumption]. }
      assert (B1 : (F2R (2 ^ 52) 972 <= F2R (Zpos m3) (e1 + n'))%R).
      { apply Rle_trans with (F2R (Zpos m3) 972).
        - now apply F2R_le.
        - apply F2R_exp_le; lia. }
      assert (B2 : (F2R (Zpos mF) eF < F2R (2 ^ 52) 972)%R).
      { apply Rle_lt_trans with (F2R (Zpos mF) 971).
        - apply F2R_exp_le; lia.
        - replace 972 with (971 + 1) by lia. rewrite <- F2R_shift by lia.
          unfold F2R. pose proof (bpow_gt_0 971).
          assert (IZR (Zpos mF) < IZR (2 ^ 52 * 2 ^ 1))%R by (apply IZR_lt; exact HmF).
          nra. }
      lra.
Qed.

Lemma F2R_pos_gt_0 (p : positive) (e : Z) : (0 < F2R (Zpos p) e)%R.
Proof.
  unfold F2R. pose proof (bpow_gt_0 e).
  assert (0 < IZR (Zpos p))%R by (apply IZR_lt; lia). nra.
Qed.

Lemma signed_by_SF2R (s : bool) (r : spec_float) :
  signed_by s r ->
  SFfinite r = true /\ (0 <= SFmag r)%R /\
  SF2R r = (if s then - SFmag r else SFmag r)%R.
Proof.
  destruct r as [s'|s'| |s' m e]; cbn; try contradiction; intros ->.
  - repeat split; [lra|destruct s; lra].
  - repeat split.
    + pose proof (F2R_pos_gt_0 m e). lra.
    + destruct s; cbn [cond_Zopp]; [|reflexivity].
      change (Z.neg m) with (- Zpos m). apply F2R_opp.
Qed.

Lemma binary_round_le (s : bool) (p : positive) (e : Z) (mF : positive) (eF : Z) :
  SpecFloat.bounded prec emax mF eF = true ->
  (F2R (Zpos p) e <= F2R (Zpos mF) eF)%R ->
  signed_by s (binary_round prec emax s p e) /\
  (SFmag (binary_round prec emax s p e) <= F2R (Zpos mF) eF)%R.
Proof.
  intros HF Hle. unfold binary_round.
  pose proof (shl_align_spec p e (SpecFloat.fexp prec emax (Zpos (digits2_pos p) + e)))
    as [Hez Hmz].
  destruct (shl_align p e (SpecFloat.fexp prec emax (Zpos (digits2_pos p) + e)))
    as [mz ez]. cbn [fst snd] in Hez, Hmz.
  assert (Hval : F2R (Zpos mz) ez = F2R (Zpos p) e).
  { rewrite Hmz, F2R_shift by lia. f_equal. lia. }
  apply binary_round_aux_le with (x := F2R (Zpos p) e); try assumption.
  - lia.
  - rewrite Hmz, Zdigits2_shift by lia.
    change (Zdigits2 (Zpos p)) with (Zpos (digits2_pos p)).
    rewrite <- Hez.
    replace (Zpos (digits2_pos p) + (e - ez) + ez)
      with (Zpos (digits2_pos p) + e) by lia. lia.
  - split; [lra|]. intros H. now contradiction H.
Qed.

Lemma binary_normalize_le (m e : Z) (sz : bool) (mF : positive) (eF : Z) :
  SpecFloat.bounded prec emax mF eF = true ->
  (Rabs (F2R m e) <= F2R (Zpos mF) eF)%R ->
  SFfinite (binary_normalize prec emax m e sz) = true /\
  (Rabs (SF2R (binary_normalize prec emax m e sz)) <= F2R (Zpos mF) eF)%R /\
  (0 <= F2R m e -> 0 <= SF2R (binary_normalize prec emax m e sz))%R /\
  (F2R m e <= 0 -> SF2R (binary_normalize prec emax m e sz) <= 0)%R.
Proof.
  intros HF Hle. destruct m as [|p|p]; cbn [binary_normalize].
  - cbn. rewrite Rabs_R0. pose proof (F2R_pos_gt_0 mF eF). repeat split; lra.
  - pose proof (F2R_pos_gt_0 p e) as Hp.
    rewrite Rabs_pos_eq in Hle by lra.
    destruct (binary_round_le false p e mF eF HF Hle) as [Hs Hm].
    destruct (signed_by_SF2R _ _ Hs) as (Hf & H0 & HR). rewrite HR.
    rewrite Rabs_pos_eq by assumption. repeat split; try assumption; lra.
  - pose proof (F2R_pos_gt_0 p e) as Hp.
    change (Z.neg p) with (- Zpos p) in *. rewrite F2R_opp in *.
    rewrite Rabs_Ropp, Rabs_pos_eq in Hle by lra.
    destruct (binary_round_le true p e mF eF HF Hle) as [Hs Hm].
    destruct (signed_by_SF2R _ _ Hs) as (Hf & H0 & HR). rewrite HR.
    rewrite Rabs_Ropp, Rabs_pos_eq by assumption. repeat split; try assumption; lra.
Qed.

(** A value that fits the format is returned as it is, in canonical form. *)
Lemma binary_round_exact (s : bool) (p : positive) (e : Z) :
  -1074 <= e <= 971 -> Zpos p < 2 ^ 53 ->
  valid_binary (binary_round prec emax s p e) = true /\
  signed_by s (binary_round prec emax s p e) /\
  SFmag (binary_round prec emax s p e) = F2R (Zpos p) e.
Proof.
  intros He Hp. unfold binary_round.
  pose proof (shl_align_spec p e (SpecFloat.fexp prec emax (Zpos (digits2_pos p) + e)))
    as [Hez Hmz].
  destruct (shl_align p e (SpecFloat.fexp prec emax (Zpos (digits2_pos p) + e)))
    as [mz ez]. cbn [fst snd] in Hez, Hmz. rewrite <- Hez in Hmz.
  assert (Hd : Zpos (digits2_pos p) <= 53).
  { pose proof (digits2_bounds p) as [Hlo _].
    destruct (Z_le_gt_dec (Zpos (digits2_pos p)) 53) as [H|H]; [assumption|].
    assert (2 ^ 53 <= 2 ^ (Zpos (digits2_pos p) - 1)) by (apply pow2_le; lia). lia. }
  assert (Hfe : ez = SpecFloat.fexp prec emax (Zpos (digits2_pos p) + e)).
  { rewrite Hez. rewrite fexp_eq. lia. }
  assert (Hez' : -1074 <= ez <= e) by (rewrite fexp_eq in Hfe; lia).
  assert (Hval : F2R (Zpos mz) ez = F2R (Zpos p) e).
  { rewrite Hmz, F2R_shift by lia. f_equal. lia. }
  assert (Hdz : Zdigits2 (Zpos mz) + ez = Zpos (digits2_pos p) + e).
  { rewrite Hmz, Zdigits2_shift by lia.
    change (Zdigits2 (Zpos p)) with (Zpos (digits2_pos p)). lia. }
  assert (Hn : Z.max 0 (SpecFloat.fexp prec emax (Zdigits2 (Zpos mz) + ez) - ez) = 0).
  { rewrite Hdz, <- Hfe. lia. }
  unfold binary_round_aux.
  destruct (shr_fexp_shifted (Zpos mz) ez loc_Exact ltac:(lia)) as (mrs1 & E1 & S1).
  rewrite Hn, Z.add_0_r in E1. rewrite Hn in S1. rewrite E1.
  destruct S1 as [M1 X1]. cbn [shr_record_of_loc shr_m] in M1.
  rewrite Z.pow_0_r, Z.div_1_r in M1.
  assert (L1 : loc_of_shr_record mrs1 = loc_Exact).
  { apply loc_of_shr_record_exact, X1. split; [reflexivity|].
    now rewrite Z.pow_0_r, Z.mod_1_r. }
  rewrite M1, L1. cbn [round_nearest_even]. rewrite E1, M1.
  assert (Z.leb ez (emax - prec) = true) as ->.
  { apply Z.leb_le. change (emax - prec) with 971. lia. }
  cbn [valid_binary signed_by SFmag]. repeat split; [|assumption].
  unfold SpecFloat.bounded, canonical_mantissa.
  change (Zpos (digits2_pos mz)) with (Zdigits2 (Zpos mz)).
  rewrite Hdz, <- Hfe, Z.eqb_refl. cbn [andb].
  apply Z.leb_le. change (emax - prec) with 971. lia.
Qed.

Lemma binary_normalize_exact (s : bool) (r e : Z) :
  0 <= r < 2 ^ 53 -> -1074 <= e <= 971 ->
  valid_binary (binary_normalize prec emax (cond_Zopp s r) e s) = true /\
  signed_by s (binary_normalize prec emax (cond_Zopp s r) e s) /\
  SFmag (binary_normalize prec emax (cond_Zopp s r) e s) = F2R r e.
Proof.
  intros Hr He. destruct r as [|p|p]; [| |lia].
  - destruct s; cbn; unfold F2R; repeat split; lra.
  - destruct s; cbn [cond_Zopp Z.opp binary_normalize];
      apply binary_round_exact; lia.
Qed.

Lemma F2R_shl_align (s : bool) (m : positive) (e e' : Z) :
  F2R (cond_Zopp s (Zpos (fst (shl_align m e (Z.min e e'))))) (Z.min e e')
  = SF2R (S754_finite s m e).
Proof.
  destruct (shl_align_spec m e (Z.min e e')) as [_ H]. rewrite H.
  replace (Z.min e (Z.min e e')) with (Z.min e e') by lia.
  cbn [SF2R]. destruct s; cbn [cond_Zopp].
  - rewrite !F2R_opp. f_equal. rewrite F2R_shift by lia. f_equal. lia.
  - rewrite F2R_shift by lia. f_equal. lia.
Qed.

(** Subtraction: the result is finite, has the sign of the exact
    difference, and is within every float bounding that difference. *)
Lemma SFsub_le (x y : spec_float) (mF : positive) (eF : Z) :
  SFfinite x = true -> SFfinite y = true ->
  SpecFloat.bounded prec emax mF eF = true ->
  (Rabs (SF2R x - SF2R y) <= F2R (Zpos mF) eF)%R ->
  SFfinite (SFsub prec emax x y) = true /\
  (Rabs (SF2R (SFsub prec emax x y)) <= F2R (Zpos mF) eF)%R /\
  (0 <= SF2R x - SF2R y -> 0 <= SF2R (SFsub prec emax x y))%R /\
  (SF2R x - SF2R y <= 0 -> SF2R (SFsub prec emax x y) <= 0)%R.
Proof.
  intros Hx Hy HF Hle. pose proof (F2R_pos_gt_0 mF eF) as HFpos.
  destruct x as [sx|sx| |sx mx ex]; try discriminate;
  destruct y as [sy|sy| |sy my ey]; try discriminate.
  - assert (SFfinite (SFsub prec emax (S754_zero sx) (S754_zero sy)) = true /\
            SF2R (SFsub prec emax (S754_zero sx) (S754_zero sy)) = 0%R) as [H1 H2]
      by (destruct sx, sy; split; reflexivity).
    rewrite H2, Rabs_R0. repeat split; try assumption; lra.
  - cbn [SFsub SFfinite]. cbn [SF2R] in *.
    replace (0 - F2R (cond_Zopp sy (Zpos my)) ey)%R
      with (F2R (cond_Zopp (negb sy) (Zpos my)) ey) in *
      by (destruct sy; cbn [negb cond_Zopp];
          change (Z.neg my) with (- Zpos my); rewrite ?F2R_opp; lra).
    repeat split; tauto.
  - cbn [SFsub SFfinite]. cbn [SF2R] in *. rewrite Rminus_0_r in *.
    repeat split; tauto.
  - cbn [SFsub]. rewrite <- (F2R_shl_align sx mx ex ey), <- (F2R_shl_align sy my ey ex) in *.
    rewrite (Z.min_comm ey ex) in *.
    unfold F2R in Hle |- *. rewrite <- Rmult_minus_distr_r, <- minus_IZR in *.
    apply binary_normalize_le; assumption.
Qed.

(** The product of two binary64 numbers is not more precise than the
    format allows. *)
Lemma mul_not_overprecise (mx my : positive) (ex ey : Z) :
  SpecFloat.bounded prec emax mx ex = true ->
  SpecFloat.bounded prec emax my ey = true ->
  ex + ey <= SpecFloat.fexp prec emax (Zdigits2 (Zpos (mx * my)) + (ex + ey)).
Proof.
  intros Hx Hy.
  destruct (bounded_facts _ _ Hx) as (Hex & Hmx & Hnx).
  destruct (bounded_facts _ _ Hy) as (Hey & Hmy & Hny).
  rewrite fexp_eq.
  destruct (Z.eq_dec ex (-1074)) as [E1|N1]; destruct (Z.eq_dec ey (-1074)) as [E2|N2];
    try lia;
    (assert (H52 : 2 ^ 52 <= Zpos (mx * my)) by (rewrite Pos2Z.inj_mul; nia);
     pose proof (Zdigits2_bounds (Zpos (mx * my)) ltac:(lia)) as [_ Hhi];
     assert (52 < Zdigits2 (Zpos (mx * my)));
     [ destruct (Z_lt_le_dec 52 (Zdigits2 (Zpos (mx * my)))) as [H|H]; [assumption|];
       pose proof (Zdigits2_nonneg (Zpos (mx * my)));
       assert (2 ^ Zdigits2 (Zpos (mx * my)) <= 2 ^ 52) by (apply pow2_le; lia); lia
     | lia ]).
Qed.

Lemma SFmul_le (x y : spec_float) (mF : positive) (eF : Z) :
  SFfinite x = true -> SFfinite y = true ->
  valid_binary x = true -> valid_binary y = true ->
  SpecFloat.bounded prec emax mF eF = true ->
  (Rabs (SF2R x * SF2R y) <= F2R (Zpos mF) eF)%R ->
  SFfinite (SFmul prec emax x y) = true /\
  (Rabs (SF2R (SFmul prec emax x y)) <= F2R (Zpos mF) eF)%R /\
  (0 <= SF2R x * SF2R y -> 0 <= SF2R (SFmul prec emax x y))%R /\
  (SF2R x * SF2R y <= 0 -> SF2R (SFmul prec emax x y) <= 0)%R.
Proof.
  intros Hx Hy Vx Vy HF Hle. pose proof (F2R_pos_gt_0 mF eF) as HFpos.
  destruct x as [sx|sx| |sx mx ex]; try discriminate;
  destruct y as [sy|sy| |sy my ey]; try discriminate;
  try (cbn [SFmul SFfinite SF2R]; rewrite Rabs_R0; repeat split; lra).
  cbn [SFmul valid_binary] in *.
  pose proof (F2R_pos_gt_0 mx ex) as Px. pose proof (F2R_pos_gt_0 my ey) as Py.
  assert (Hprod : F2R (Zpos (mx * my)) (ex + ey) = (F2R (Zpos mx) ex * F2R (Zpos my) ey)%R).
  { unfold F2R. rewrite Pos2Z.inj_mul, mult_IZR, bpow_plus. ring. }
  assert (Habs : Rabs (SF2R (S754_finite sx mx ex) * SF2R (S754_finite sy my ey))
                 = F2R (Zpos (mx * my)) (ex + ey)).
  { rewrite Hprod, Rabs_mult. cbn [SF2R].
    destruct sx, sy; cbn [cond_Zopp]; change (Z.neg mx) with (- Zpos mx);
      change (Z.neg my) with (- Zpos my); rewrite ?F2R_opp, ?Rabs_Ropp;
      rewrite !Rabs_pos_eq by lra; reflexivity. }
  rewrite Habs in Hle.
  destruct (binary_round_aux_le (xorb sx sy) (Zpos (mx * my)) (ex + ey) loc_Exact
              (F2R (Zpos (mx * my)) (ex + ey)) mF eF) as [Hs Hm];
    try assumption; try lia.
  - now apply mul_not_overprecise.
  - split; [lra|]. intros H. now contradiction H.
  - destruct (signed_by_SF2R _ _ Hs) as (Hf & H0 & HR). rewrite HR.
    assert (Hsgn : (SF2R (S754_finite sx mx ex) * SF2R (S754_finite sy my ey)
                    = if xorb sx sy then - F2R (Zpos (mx * my)) (ex + ey)
                      else F2R (Zpos (mx * my)) (ex + ey))%R).
    { rewrite Hprod. cbn [SF2R].
      destruct sx, sy; cbn [cond_Zopp xorb]; change (Z.neg mx) with (- Zpos mx);
        change (Z.neg my) with (- Zpos my); rewrite ?F2R_opp; ring. }
    rewrite Hsgn. pose proof (F2R_pos_gt_0 (mx * my) (ex + ey)).
    destruct (xorb sx sy); rewrite ?Rabs_Ropp, Rabs_pos_eq by assumption;
      repeat split; try assumption; lra.
Qed.

Lemma new_location_exact (nb k : Z) :
  new_location nb k = loc_Exact <-> k = 0.
Proof.
  unfold new_location, new_location_even, new_location_odd.
  destruct (Z.even nb); destruct (Z.eqb_spec k 0) as [E|E];
    split; intros H; try assumption; try reflexivity; try discriminate;
    contradiction.
Qed.

(** The quotient computed by [SFdiv_core_binary]: where it lies and how
    many digits it has. *)
Lemma SFdiv_core_binary_spec (mx my : positive) (ex ey : Z) :
  let '(q, e', l) := SFdiv_core_binary prec emax (Zpos mx) ex (Zpos my) ey in
  0 <= q /\
  e' <= SpecFloat.fexp prec emax (Zdigits2 q + e') /\
  located (F2R (Zpos mx) ex / F2R (Zpos my) ey)%R q e' l.
Proof.
  unfold SFdiv_core_binary.
  set (d1 := Zdigits2 (Zpos mx)). set (d2 := Zdigits2 (Zpos my)).
  set (e' := Z.min (SpecFloat.fexp prec emax (d1 + ex - (d2 + ey))) (ex - ey)).
  set (s := ex - ey - e').
  assert (Hs : 0 <= s) by (unfold s, e'; lia).
  assert (Hm' : match s with
                | Zpos _ => Z.shiftl (Zpos mx) s
                | Z0 => Zpos mx
                | Zneg _ => 0
                end = Zpos mx * 2 ^ s).
  { destruct s as [|p|p] eqn:Es; [lia| |lia]. now rewrite Z.shiftl_mul_pow2 by lia. }
  rewrite Hm'. clear Hm'.
  pose proof (pow2_pos s Hs) as Ps.
  pose proof (Z.div_eucl_eq (Zpos mx * 2 ^ s) (Zpos my) ltac:(lia)) as Heq.
  pose proof (Z.mod_pos_bound (Zpos mx * 2 ^ s) (Zpos my) ltac:(lia)) as Hr.
  unfold Z.modulo in Hr.
  destruct (Z.div_eucl (Zpos mx * 2 ^ s) (Zpos my)) as [q r].
  assert (Hq : 0 <= q) by nia.
  pose proof (Zdigits2_bounds (Zpos mx) ltac:(lia)) as [L1 U1]. fold d1 in L1, U1.
  pose proof (Zdigits2_bounds (Zpos my) ltac:(lia)) as [L2 U2]. fold d2 in L2, U2.
  assert (D1 : 0 < d1) by (apply Zdigits2_pos; lia).
  assert (D2 : 0 < d2) by (apply Zdigits2_pos; lia).
  split; [assumption|]. split.
  - (* the quotient has at least [d1 + s - d2] digits *)
    assert (Hdq : d1 + s - d2 <= Zdigits2 q \/ (q = 0 /\ d1 + s <= d2)).
    { destruct (Z.eq_dec q 0) as [Hq0|Hq0].
      - right. split; [assumption|].
        destruct (Z_le_gt_dec (d1 + s) d2) as [H|H]; [assumption|exfalso].
        assert (2 ^ d2 <= 2 ^ (d1 - 1 + s)) by (apply pow2_le; lia).
        rewrite Z.pow_add_r in H0 by lia. nia.
      - left. pose proof (Zdigits2_bounds q ltac:(lia)) as [_ Uq].
        pose proof (Zdigits2_nonneg q) as Nq.
        destruct (Z_le_gt_dec (d1 + s - d2) (Zdigits2 q)) as [H|H]; [assumption|exfalso].
        assert (H1 : 2 ^ Zdigits2 q <= 2 ^ (d1 + s - d2 - 1)) by (apply pow2_le; lia).
        assert (H2 : 2 ^ (d1 - 1 + s) = 2 ^ (d1 + s - d2 - 1) * 2 ^ d2).
        { rewrite <- Z.pow_add_r by lia. f_equal. lia. }
        assert (H3 : 2 ^ (d1 - 1 + s) <= Zpos mx * 2 ^ s).
        { rewrite Z.pow_add_r by lia. nia. }
        assert (0 < 2 ^ (d1 + s - d2 - 1)) by (apply pow2_pos; lia).
        nia. }
    subst s e'. rewrite !fexp_eq in *.
    destruct Hdq as [H|[H0 H]].
    + lia.
    + rewrite H0. cbn [Zdigits2]. lia.
  - (* location of the exact quotient *)
    pose proof (F2R_pos_gt_0 my ey) as Py.
    assert (Hx : (F2R (Zpos mx) ex = F2R (Zpos mx * 2 ^ s) (e' + ey))%R).
    { rewrite F2R_shift by lia. f_equal. unfold s. lia. }
    assert (Hqy : forall k, (F2R k e' * F2R (Zpos my) ey = F2R (k * Zpos my) (e' + ey))%R).
    { intros k. unfold F2R. rewrite mult_IZR, bpow_plus. ring. }
    split.
    + apply Rmult_le_reg_r with (F2R (Zpos my) ey); [assumption|].
      unfold Rdiv. rewrite Rmult_assoc, Rinv_l, Rmult_1_r by lra.
      rewrite Hqy, Hx. apply F2R_le. lia.
    + intros Hl. assert (r <> 0) by (intros ->; apply Hl; now apply new_location_exact).
      apply Rmult_lt_reg_r with (F2R (Zpos my) ey); [assumption|].
      unfold Rdiv. rewrite Rmult_assoc, Rinv_l, Rmult_1_r by lra.
      rewrite Hqy, Hx. unfold F2R. pose proof (bpow_gt_0 (e' + ey)).
      assert (IZR (q * Zpos my) < IZR (Zpos mx * 2 ^ s))%R by (apply IZR_lt; lia).
      nra.
Qed.

Lemma SFdiv_le (x y : spec_float) (mF : positive) (eF : Z) :
  SFfinite x = true -> SFfinite y = true -> SF2R y <> 0%R ->
  SpecFloat.bounded prec emax mF eF = true ->
  (Rabs (SF2R x / SF2R y) <= F2R (Zpos mF) eF)%R ->
  SFfinite (SFdiv prec emax x y) = true /\
  (Rabs (SF2R (SFdiv prec emax x y)) <= F2R (Zpos mF) eF)%R /\
  (0 <= SF2R x / SF2R y -> 0 <= SF2R (SFdiv prec emax x y))%R /\
  (SF2R x / SF2R y <= 0 -> SF2R (SFdiv prec emax x y) <= 0)%R.
Proof.
  intros Hx Hy Hy0 HF Hle. pose proof (F2R_pos_gt_0 mF eF) as HFpos.
  destruct x as [sx|sx| |sx mx ex]; try discriminate;
  destruct y as [sy|sy| |sy my ey]; try discriminate;
  try (cbn [SF2R] in Hy0; lra).
  - cbn [SFdiv SFfinite SF2R]. rewrite Rabs_R0. repeat split; lra.
  - cbn [SFdiv].
    pose proof (SFdiv_core_binary_spec mx my ex ey) as Hspec.
    destruct (SFdiv_core_binary prec emax (Zpos mx) ex (Zpos my) ey) as [[q e'] l].
    destruct Hspec as (Hq & Hwf & Hloc).
    pose proof (F2R_pos_gt_0 mx ex) as Px. pose proof (F2R_pos_gt_0 my ey) as Py.
    assert (Pq : (0 < F2R (Zpos mx) ex / F2R (Zpos my) ey)%R).
    { apply Rdiv_pos_pos; assumption. }
    assert (Hsgn : (SF2R (S754_finite sx mx ex) / SF2R (S754_finite sy my ey)
                    = if xorb sx sy then - (F2R (Zpos mx) ex / F2R (Zpos my) ey)
                      else F2R (Zpos mx) ex / F2R (Zpos my) ey)%R).
    { cbn [SF2R].
      destruct sx, sy; cbn [cond_Zopp xorb]; change (Z.neg mx) with (- Zpos mx);
        change (Z.neg my) with (- Zpos my); rewrite ?F2R_opp; field; lra. }
    rewrite Hsgn in *.
    assert (Hle' : (F2R (Zpos mx) ex / F2R (Zpos my) ey <= F2R (Zpos mF) eF)%R).
    { destruct (xorb sx sy); rewrite ?Rabs_Ropp, Rabs_pos_eq in Hle by lra; assumption. }
    destruct (binary_round_aux_le (xorb sx sy) q e' l _ mF eF Hq Hwf Hloc HF Hle')
      as [Hs Hm].
    destruct (signed_by_SF2R _ _ Hs) as (Hf & H0 & HR). rewrite HR.
    destruct (xorb sx sy); rewrite ?Rabs_Ropp, Rabs_pos_eq by assumption;
      repeat split; try assumption; lra.
Qed.

End Rounding.

(** * Comparisons and the real order *)

Section Comparison.
Local Open Scope Z_scope.

Lemma canonical_lt (m1 m2 : positive) (e1 e2 : Z) :
  SpecFloat.bounded prec emax m1 e1 = true ->
  SpecFloat.bounded prec emax m2 e2 = true ->
  e1 < e2 -> (F2R (Zpos m1) e1 < F2R (Zpos m2) e2)%R.
Proof.
  intros H1 H2 He.
  destruct (bounded_facts _ _ H1) as (He1 & Hm1 & _).
  destruct (bounded_facts _ _ H2) as (He2 & _ & Hn2).
  assert (E : F2R (Zpos m2) e2 = F2R (Zpos m2 * 2 ^ (e2 - e1)) e1).
  { rewrite F2R_shift by lia. f_equal. lia. }
  rewrite E. unfold F2R. pose proof (bpow_gt_0 e1).
  assert (IZR (Zpos m1) < IZR (Zpos m2 * 2 ^ (e2 - e1)))%R; [|nra].
  apply IZR_lt.
  assert (2 ^ 1 <= 2 ^ (e2 - e1)) by (apply pow2_le; lia).
  change (2 ^ 1) with 2 in *. change (2 ^ 53) with (2 ^ 52 * 2) in Hm1.
  assert (2 ^ 52 <= Zpos m2) by (apply Hn2; lia). nia.
Qed.

Lemma Rcompare_Lt (a b : R) : (a < b)%R -> Rcompare a b = Lt.
Proof. unfold Rcompare. destruct (total_order_T a b) as [[H|H]|H]; intros; try reflexivity; lra. Qed.

Lemma Rcompare_Eq (a b : R) : a = b -> Rcompare a b = Eq.
Proof. unfold Rcompare. destruct (total_order_T a b) as [[H|H]|H]; intros; try reflexivity; lra. Qed.

Lemma Rcompare_Gt (a b : R) : (b < a)%R -> Rcompare a b = Gt.
Proof. unfold Rcompare. destruct (total_order_T a b) as [[H|H]|H]; intros; try reflexivity; lra. Qed.

Lemma Rcompare_cases (a b : R) :
  ((a < b)%R /\ Rcompare a b = Lt) \/ (a = b /\ Rcompare a b = Eq) \/
  ((b < a)%R /\ Rcompare a b = Gt).
Proof.
  destruct (total_order_T a b) as [[H|H]|H].
  - left. split; [assumption|now apply Rcompare_Lt].
  - right; left. split; [assumption|now apply Rcompare_Eq].
  - right; right. split; [assumption|now apply Rcompare_Gt].
Qed.

Lemma Rcompare_F2R (m1 m2 : positive) (e : Z) :
  Rcompare (F2R (Zpos m1) e) (F2R (Zpos m2) e) = Pos.compare_cont Eq m1 m2.
Proof.
  change (Pos.compare_cont Eq m1 m2) with (Pos.compare m1 m2).
  pose proof (bpow_gt_0 e). unfold F2R.
  destruct (Pos.compare_spec m1 m2) as [->|Hlt|Hgt].
  - now apply Rcompare_Eq.
  - apply Rcompare_Lt. assert (IZR (Zpos m1) < IZR (Zpos m2))%R by (apply IZR_lt; lia). nra.
  - apply Rcompare_Gt. assert (IZR (Zpos m2) < IZR (Zpos m1))%R by (apply IZR_lt; lia). nra.
Qed.

Lemma Rcompare_opp (a b : R) : Rcompare (- a) (- b) = CompOpp (Rcompare a b).
Proof.
  destruct (Rcompare_cases a b) as [[H ->]|[[H ->]|[H ->]]]; cbn.
  - apply Rcompare_Gt; lra.
  - apply Rcompare_Eq; lra.
  - apply Rcompare_Lt; lra.
Qed.

(** On finite binary64 numbers the comparison is the order of the reals. *)
Lemma SFcompare_Rcompare (x y : spec_float) :
  SFfinite x = true -> SFfinite y = true ->
  valid_binary x = true -> valid_binary y = true ->
  SFcompare x y = Some (Rcompare (SF2R x) (SF2R y)).
Proof.
  intros Hx Hy Vx Vy.
  destruct x as [sx|sx| |sx mx ex]; try discriminate;
  destruct y as [sy|sy| |sy my ey]; try discriminate; cbn [SFcompare SF2R valid_binary] in *.
  - now rewrite Rcompare_Eq.
  - pose proof (F2R_pos_gt_0 my ey). f_equal. symmetry.
    destruct sy; cbn [cond_Zopp]; [change (Z.neg my) with (- Zpos my); rewrite F2R_opp|].
    + apply Rcompare_Gt; lra.
    + apply Rcompare_Lt; lra.
  - pose proof (F2R_pos_gt_0 mx ex). f_equal. symmetry.
    destruct sx; cbn [cond_Zopp]; [change (Z.neg mx) with (- Zpos mx); rewrite F2R_opp|].
    + apply Rcompare_Lt; lra.
    + apply Rcompare_Gt; lra.
  - pose proof (F2R_pos_gt_0 mx ex). pose proof (F2R_pos_gt_0 my ey). f_equal. symmetry.
    destruct sx, sy; cbn [cond_Zopp];
      change (Z.neg mx) with (- Zpos mx); change (Z.neg my) with (- Zpos my);
      rewrite ?F2R_opp.
    + rewrite Rcompare_opp.
      destruct (Z.compare_spec ex ey) as [->|Hlt|Hgt].
      * now rewrite Rcompare_F2R.
      * pose proof (canonical_lt _ _ _ _ Vx Vy Hlt). now rewrite Rcompare_Lt.
      * pose proof (canonical_lt _ _ _ _ Vy Vx Hgt). now rewrite Rcompare_Gt.
    + apply Rcompare_Lt; lra.
    + apply Rcompare_Gt; lra.
    + destruct (Z.compare_spec ex ey) as [->|Hlt|Hgt].
      * now rewrite Rcompare_F2R.
      * pose proof (canonical_lt _ _ _ _ Vx Vy Hlt). now rewrite Rcompare_Lt.
      * pose proof (canonical_lt _ _ _ _ Vy Vx Hgt). now rewrite Rcompare_Gt.
Qed.

Lemma SF2R_abs (x : spec_float) : SF2R (SFabs x) = Rabs (SF2R x).
Proof.
  destruct x as [s|s| |s m e]; cbn [SFabs SF2R]; try (now rewrite Rabs_R0).
  pose proof (F2R_pos_gt_0 m e).
  destruct s; cbn [cond_Zopp]; [change (Z.neg m) with (- Zpos m); rewrite F2R_opp, Rabs_Ropp|];
    now rewrite Rabs_pos_eq by lra.
Qed.

Lemma SF2R_opp (x : spec_float) : SF2R (SFopp x) = (- SF2R x)%R.
Proof.
  destruct x as [s|s| |s m e]; cbn [SFopp SF2R]; try lra.
  destruct s; cbn [cond_Zopp negb]; change (Z.neg m) with (- Zpos m);
    rewrite ?F2R_opp; lra.
Qed.

End Comparison.

(** * The primitive operations, through their specifications *)

Section Primitive.
Local Open Scope float_scope.

Lemma Prim2SF_nan : Prim2SF nan = S754_nan.
Proof. reflexivity. Qed.

Lemma is_finite_SF (x : float) : is_finite x = SFfinite (Prim2SF x).
Proof.
  unfold is_finite, is_nan, is_infinity. rewrite !eqb_spec, abs_spec.
  change (Prim2SF infinity) with (S754_infinity false).
  destruct (Prim2SF x) as [s|s| |s m e]; try reflexivity; try (destruct s; reflexivity).
  unfold SFeqb. cbn [SFabs SFcompare SFfinite].
  rewrite Z.compare_refl.
  change (Pos.compare_cont Eq m m) with (Pos.compare m m). rewrite Pos.compare_refl.
  destruct s; reflexivity.
Qed.

Lemma is_nan_SF (x : float) :
  is_nan x = match Prim2SF x with S754_nan => true | _ => false end.
Proof.
  unfold is_nan. rewrite eqb_spec.
  destruct (Prim2SF x) as [s|s| |s m e]; try reflexivity; try (destruct s; reflexivity).
  unfold SFeqb. cbn [SFcompare].
  rewrite Z.compare_refl.
  change (Pos.compare_cont Eq m m) with (Pos.compare m m). rewrite Pos.compare_refl.
  destruct s; reflexivity.
Qed.

Lemma is_nan_eq (x : float) : is_nan x = true -> x = nan.
Proof.
  rewrite is_nan_SF. intros H. apply Prim2SF_inj. rewrite Prim2SF_nan.
  destruct (Prim2SF x); try discriminate. reflexivity.
Qed.

Lemma compare_B2R (x y : float) :
  is_finite x = true -> is_finite y = true ->
  SFcompare (Prim2SF x) (Prim2SF y) = Some (Rcompare (B2R x) (B2R y)).
Proof.
  rewrite !is_finite_SF. intros Hx Hy.
  apply SFcompare_Rcompare; auto using Prim2SF_valid.
Qed.

Lemma leb_B2R (x y : float) :
  is_finite x = true -> is_finite y = true ->
  (x <=? y) = true <-> (B2R x <= B2R y)%R.
Proof.
  intros Hx Hy. rewrite leb_spec. unfold SFleb. rewrite compare_B2R by assumption.
  destruct (Rcompare_cases (B2R x) (B2R y)) as [[H ->]|[[H ->]|[H ->]]];
    split; intros; try lra; try reflexivity; discriminate.
Qed.

Lemma ltb_B2R (x y : float) :
  is_finite x = true -> is_finite y = true ->
  (x <? y) = true <-> (B2R x < B2R y)%R.
Proof.
  intros Hx Hy. rewrite ltb_spec. unfold SFltb. rewrite compare_B2R by assumption.
  destruct (Rcompare_cases (B2R x) (B2R y)) as [[H ->]|[[H ->]|[H ->]]];
    split; intros; try lra; try reflexivity; discriminate.
Qed.

Lemma eqb_B2R (x y : float) :
  is_finite x = true -> is_finite y = true ->
  (x =? y) = true <-> (B2R x = B2R y)%R.
Proof.
  intros Hx Hy. rewrite eqb_spec. unfold SFeqb. rewrite compare_B2R by assumption.
  destruct (Rcompare_cases (B2R x) (B2R y)) as [[H ->]|[[H ->]|[H ->]]];
    split; intros; try lra; try reflexivity; discriminate.
Qed.

Lemma B2R_abs (x : float) : B2R (abs x) = Rabs (B2R x).
Proof. unfold B2R. rewrite abs_spec. apply SF2R_abs. Qed.

Lemma B2R_opp (x : float) : B2R (- x) = (- B2R x)%R.
Proof. unfold B2R. rewrite opp_spec. apply SF2R_opp. Qed.

Lemma is_finite_abs (x : float) : is_finite (abs x) = is_finite x.
Proof. rewrite !is_finite_SF, abs_spec. now destruct (Prim2SF x). Qed.

Lemma is_finite_opp (x : float) : is_finite (- x) = is_finite x.
Proof. rewrite !is_finite_SF, opp_spec. now destruct (Prim2SF x). Qed.

(** A number whose magnitude is at most a finite number is finite. *)
Lemma abs_leb_finite (x c : float) :
  is_finite c = true -> (abs x <=? c) = true -> is_finite x = true.
Proof.
  rewrite !is_finite_SF, leb_spec, abs_spec. unfold SFleb.
  destruct (Prim2SF x) as [s|s| |s m e]; try reflexivity;
    destruct (Prim2SF c) as [s'|s'| |s' m' e']; cbn; congruence.
Qed.

Lemma abs_ltb_finite (x c : float) :
  is_finite c = true -> (abs x <? c) = true -> is_finite x = true.
Proof.
  rewrite !is_finite_SF, ltb_spec, abs_spec. unfold SFltb.
  destruct (Prim2SF x) as [s|s| |s m e]; try reflexivity;
    destruct (Prim2SF c) as [s'|s'| |s' m' e']; cbn; congruence.
Qed.

Lemma B2R_finite_const (F : float) (s : bool) (mF : positive) (eF : Z) :
  Prim2SF F = S754_finite s mF eF ->
  is_finite F = true /\ B2R F = F2R (cond_Zopp s (Zpos mF)) eF.
Proof.
  intros H. rewrite is_finite_SF. unfold B2R. rewrite H. split; reflexivity.
Qed.

Lemma mul_le (x y : float) (mF : positive) (eF : Z) :
  SpecFloat.bounded prec emax mF eF = true ->
  is_finite x = true -> is_finite y = true ->
  (Rabs (B2R x * B2R y) <= F2R (Zpos mF) eF)%R ->
  is_finite (x * y) = true /\
  (Rabs (B2R (x * y)) <= F2R (Zpos mF) eF)%R /\
  (0 <= B2R x * B2R y -> 0 <= B2R (x * y))%R /\
  (B2R x * B2R y <= 0 -> B2R (x * y) <= 0)%R.
Proof.
  intros HF Hx Hy Hle.
  rewrite is_finite_SF in *. unfold B2R in *. rewrite mul_spec.
  apply SFmul_le; auto using Prim2SF_valid.
Qed.

Lemma sub_le (x y : float) (mF : positive) (eF : Z) :
  SpecFloat.bounded prec emax mF eF = true ->
  is_finite x = true -> is_finite y = true ->
  (Rabs (B2R x - B2R y) <= F2R (Zpos mF) eF)%R ->
  is_finite (x - y) = true /\
  (Rabs (B2R (x - y)) <= F2R (Zpos mF) eF)%R /\
  (0 <= B2R x - B2R y -> 0 <= B2R (x - y))%R /\
  (B2R x - B2R y <= 0 -> B2R (x - y) <= 0)%R.
Proof.
  intros HF Hx Hy Hle.
  rewrite is_finite_SF in *. unfold B2R in *. rewrite sub_spec.
  apply SFsub_le; auto.
Qed.

Lemma div_le (x y : float) (mF : positive) (eF : Z) :
  SpecFloat.bounded prec emax mF eF = true ->
  is_finite x = true -> is_finite y = true -> B2R y <> 0%R ->
  (Rabs (B2R x / B2R y) <= F2R (Zpos mF) eF)%R ->
  is_finite (x / y) = true /\
  (Rabs (B2R (x / y)) <= F2R (Zpos mF) eF)%R /\
  (0 <= B2R x / B2R y -> 0 <= B2R (x / y))%R /\
  (B2R x / B2R y <= 0 -> B2R (x / y) <= 0)%R.
Proof.
  intros HF Hx Hy Hy0 Hle.
  rewrite is_finite_SF in *. unfold B2R in *. rewrite div_spec.
  apply SFdiv_le; auto.
Qed.

(** A finite number at most [F] either is [F] or is at most the float
    just below it. *)
Lemma finite_le_cases (x : float) (mF : positive) (eF : Z) :
  SpecFloat.bounded prec emax mF eF = true ->
  (2 ^ 52 < Zpos mF)%Z ->
  is_finite x = true ->
  (Rabs (B2R x) <= F2R (Zpos mF) eF)%R ->
  (Rabs (B2R x) <= F2R (Zpos mF - 1) eF)%R \/
  (exists s, Prim2SF x = S754_finite s mF eF).
Proof.
  intros HF Hm Hx Hle. rewrite is_finite_SF in Hx. unfold B2R in *.
  pose proof (Prim2SF_valid x) as V.
  destruct (bounded_facts _ _ HF) as (HeF & HmF & _).
  destruct (Prim2SF x) as [s|s| |s m e]; try discriminate.
  - left. cbn [SF2R]. rewrite Rabs_R0. apply F2R_ge_0. lia.
  - cbn [valid_binary] in V.
    assert (Habs : Rabs (SF2R (S754_finite s m e)) = F2R (Zpos m) e).
    { change (S754_finite false m e) with (SFabs (S754_finite s m e)).
      symmetry. exact (SF2R_abs (S754_finite s m e)). }
    rewrite Habs in *.
    destruct (Rle_or_lt (F2R (Zpos m) e) (F2R (Zpos mF - 1) eF)) as [H|H];
      [left; assumption|right].
    pose proof (above_grid (Zpos mF - 1) eF m e V ltac:(lia) ltac:(lia) H) as H'.
    replace (Zpos mF - 1 + 1)%Z with (Zpos mF) in H' by lia.
    assert (E : F2R (Zpos m) e = F2R (Zpos mF) eF) by lra.
    assert (e = eF).
    { destruct (Z.lt_trichotomy e eF) as [L|[L|L]]; [|assumption|].
      - pose proof (canonical_lt _ _ _ _ V HF L). lra.
      - pose proof (canonical_lt _ _ _ _ HF V L). lra. }
    subst e. exists s. f_equal.
    assert (Zpos m = Zpos mF)%Z; [|congruence].
    apply Z.le_antisymm; apply (F2R_le_inv _ _ eF); lra.
Qed.

(** ** The remainder operator *)

Lemma SFrem_finite (sn : bool) (mn : positive) (en : Z) (sd : bool) (md : positive) (ed : Z) :
  SpecFloat.bounded prec emax mn en = true ->
  SpecFloat.bounded prec emax md ed = true ->
  valid_binary (SFrem (S754_finite sn mn en) (S754_finite sd md ed)) = true /\
  signed_by sn (SFrem (S754_finite sn mn en) (S754_finite sd md ed)) /\
  (SFmag (SFrem (S754_finite sn mn en) (S754_finite sd md ed)) < F2R (Zpos md) ed)%R.
Proof.
  intros Vn Vd. cbn [SFrem].
  destruct (bounded_facts _ _ Vn) as (Hen & Hmn & _).
  destruct (bounded_facts _ _ Vd) as (Hed & Hmd & _).
  destruct (shl_align_spec mn en (Z.min en ed)) as [_ HA].
  destruct (shl_align_spec md ed (Z.min en ed)) as [_ HB].
  replace (Z.min en (Z.min en ed)) with (Z.min en ed) in HA by lia.
  replace (Z.min ed (Z.min en ed)) with (Z.min en ed) in HB by lia.
  set (A := Zpos (fst (shl_align mn en (Z.min en ed)))) in *.
  set (B := Zpos (fst (shl_align md ed (Z.min en ed)))) in *.
  assert (PA : (0 < A)%Z) by (unfold A; lia).
  assert (PB : (0 < B)%Z) by (unfold B; lia).
  pose proof (Z.rem_bound_pos A B ltac:(lia) PB) as Hr.
  pose proof (Z.rem_le A B ltac:(lia) PB) as Hr'.
  assert (Hsmall : (Z.rem A B < 2 ^ 53)%Z).
  { destruct (Z_le_gt_dec en ed).
    - rewrite Z.min_l, Z.sub_diag, Z.pow_0_r in HA by lia. lia.
    - rewrite Z.min_r, Z.sub_diag, Z.pow_0_r in HB by lia. lia. }
  destruct (binary_normalize_exact sn (Z.rem A B) (Z.min en ed) ltac:(lia) ltac:(lia))
    as (V & S & M).
  repeat split; try assumption. rewrite M.
  replace (F2R (Zpos md) ed) with (F2R B (Z.min en ed)).
  - apply F2R_lt. lia.
  - rewrite HB, F2R_shift by lia. f_equal. lia.
Qed.

Lemma SFrem_valid (x y : spec_float) :
  valid_binary x = true -> valid_binary y = true -> valid_binary (SFrem x y) = true.
Proof.
  intros Vx Vy.
  destruct x as [sx|sx| |sx mx ex]; destruct y as [sy|sy| |sy my ey];
    try reflexivity; try assumption.
  now apply SFrem_finite.
Qed.

Lemma rem_spec (x y : float) : Prim2SF (x %% y) = SFrem (Prim2SF x) (Prim2SF y).
Proof.
  unfold rem. apply Prim2SF_SF2Prim. apply SFrem_valid; apply Prim2SF_valid.
Qed.

(** The remainder of finite numbers is finite, smaller in magnitude than
    the divisor, and has the sign of the dividend. *)
Lemma rem_bound (x y : float) :
  is_finite x = true -> is_finite y = true -> B2R y <> 0%R ->
  is_finite (x %% y) = true /\
  (Rabs (B2R (x %% y)) < Rabs (B2R y))%R /\
  (0 <= B2R x -> 0 <= B2R (x %% y))%R /\
  (B2R x <= 0 -> B2R (x %% y) <= 0)%R.
Proof.
  rewrite !is_finite_SF. unfold B2R. rewrite rem_spec.
  pose proof (Prim2SF_valid x) as Vx. pose proof (Prim2SF_valid y) as Vy.
  destruct (Prim2SF x) as [sx|sx| |sx mx ex]; try discriminate;
  destruct (Prim2SF y) as [sy|sy| |sy my ey]; try discriminate; intros _ _ Hy0;
    try (cbn [SF2R] in Hy0; lra).
  - cbn [SFrem SFfinite SF2R]. rewrite Rabs_R0.
    repeat split; try lra. now apply Rabs_pos_lt.
  - destruct (SFrem_finite sx mx ex sy my ey Vx Vy) as (_ & S & M).
    destruct (signed_by_SF2R _ _ S) as (Hf & H0 & HR). rewrite HR.
    assert (Hy : Rabs (SF2R (S754_finite sy my ey)) = F2R (Zpos my) ey).
    { change (S754_finite false my ey) with (SFabs (S754_finite sy my ey)).
      symmetry. exact (SF2R_abs (S754_finite sy my ey)). }
    rewrite Hy. pose proof (F2R_pos_gt_0 mx ex) as Px.
    cbn [SF2R]. destruct sx; cbn [cond_Zopp]; change (Z.neg mx) with (- Zpos mx)%Z;
      rewrite ?F2R_opp, ?Rabs_Ropp, Rabs_pos_eq by assumption;
      repeat split; try assumption; lra.
Qed.

(** ** NaN is absorbing *)

Lemma add_nan_l (y : float) : nan + y = nan.
Proof. apply Prim2SF_inj. rewrite add_spec. reflexivity. Qed.

Lemma add_nan_r (x : float) : x + nan = nan.
Proof. apply Prim2SF_inj. rewrite add_spec. change (Prim2SF nan) with S754_nan. now destruct (Prim2SF x). Qed.

Lemma sub_nan_l (y : float) : nan - y = nan.
Proof. apply Prim2SF_inj. rewrite sub_spec. reflexivity. Qed.

Lemma sub_nan_r (x : float) : x - nan = nan.
Proof. apply Prim2SF_inj. rewrite sub_spec. change (Prim2SF nan) with S754_nan. now destruct (Prim2SF x). Qed.

Lemma mul_nan_l (y : float) : nan * y = nan.
Proof. apply Prim2SF_inj. rewrite mul_spec. reflexivity. Qed.

Lemma mul_nan_r (x : float) : x * nan = nan.
Proof. apply Prim2SF_inj. rewrite mul_spec. change (Prim2SF nan) with S754_nan. now destruct (Prim2SF x). Qed.

Lemma div_nan_l (y : float) : nan / y = nan.
Proof. apply Prim2SF_inj. rewrite div_spec. reflexivity. Qed.

Lemma div_nan_r (x : float) : x / nan = nan.
Proof. apply Prim2SF_inj. rewrite div_spec. change (Prim2SF nan) with S754_nan. now destruct (Prim2SF x). Qed.

Lemma rem_nan_l (y : float) : nan %% y = nan.
Proof. apply Prim2SF_inj. rewrite rem_spec. reflexivity. Qed.

Lemma eqb_nan_l (y : float) : (nan =? y) = false.
Proof. rewrite eqb_spec. reflexivity. Qed.

Lemma ltb_nan_l (y : float) : (nan <? y) = false.
Proof. rewrite ltb_spec. reflexivity. Qed.

Lemma ltb_nan_r (x : float) : (x <? nan) = false.
Proof. rewrite ltb_spec. change (Prim2SF nan) with S754_nan. unfold SFltb. now destruct (Prim2SF x). Qed.

(** ** Symmetries *)

Lemma mul_comm (x y : float) : x * y = y * x.
Proof.
  apply Prim2SF_inj. rewrite !mul_spec.
  destruct (Prim2SF x) as [sx|sx| |sx mx ex]; destruct (Prim2SF y) as [sy|sy| |sy my ey];
    cbn [SF64mul SFmul]; unfold SF64mul; cbn [SFmul];
    rewrite ?(xorb_comm sx sy); try reflexivity.
  now rewrite (Pos.mul_comm mx my), (Z.add_comm ex ey).
Qed.

Lemma binary_round_aux_opp (s : bool) (m e : Z) (l : location) :
  binary_round_aux prec emax (negb s) m e l = SFopp (binary_round_aux prec emax s m e l).
Proof.
  unfold binary_round_aux.
  destruct (shr_fexp prec emax m e l) as [mrs1 e1].
  destruct (shr_fexp prec emax _ e1 loc_Exact) as [mrs2 e2].
  destruct (shr_m mrs2); try reflexivity.
  destruct (Z.leb e2 (emax - prec)); reflexivity.
Qed.

Lemma mul_opp_l (x y : float) : (- x) * y = - (x * y).
Proof.
  apply Prim2SF_inj. rewrite opp_spec, !mul_spec, opp_spec. unfold SF64mul.
  destruct (Prim2SF x) as [sx|sx| |sx mx ex]; destruct (Prim2SF y) as [sy|sy| |sy my ey];
    cbn [SFmul SFopp]; rewrite <- ?negb_xorb_l; try reflexivity.
  apply binary_round_aux_opp.
Qed.

Lemma mul_opp_opp (x y : float) : (- x) * (- y) = x * y.
Proof.
  apply Prim2SF_inj. rewrite !mul_spec, !opp_spec. unfold SF64mul.
  destruct (Prim2SF x) as [sx|sx| |sx mx ex]; destruct (Prim2SF y) as [sy|sy| |sy my ey];
    cbn [SFmul SFopp]; rewrite <- ?negb_xorb_l, <- ?negb_xorb_r, ?negb_involutive;
    reflexivity.
Qed.

Lemma div_opp_l (x y : float) : (- x) / y = - (x / y).
Proof.
  apply Prim2SF_inj. rewrite opp_spec, !div_spec, opp_spec. unfold SF64div.
  destruct (Prim2SF x) as [sx|sx| |sx mx ex]; destruct (Prim2SF y) as [sy|sy| |sy my ey];
    cbn [SFdiv SFopp]; rewrite <- ?negb_xorb_l; try reflexivity.
  destruct (SFdiv_core_binary prec emax (Zpos mx) ex (Zpos my) ey) as [[q e'] l].
  apply binary_round_aux_opp.
Qed.

Lemma opp_involutive (x : float) : - (- x) = x.
Proof.
  apply Prim2SF_inj. rewrite !opp_spec.
  destruct (Prim2SF x) as [s|s| |s m e]; cbn; rewrite ?negb_involutive; reflexivity.
Qed.

Lemma abs_opp (x : float) : abs (- x) = abs x.
Proof.
  apply Prim2SF_inj. rewrite !abs_spec, opp_spec.
  now destruct (Prim2SF x).
Qed.

Lemma binary_normalize_opp (m e : Z) :
  m <> 0%Z ->
  binary_normalize prec emax (- m) e false = SFopp (binary_normalize prec emax m e false).
Proof.
  intros Hm. destruct m as [|p|p]; [contradiction| |]; cbn [Z.opp binary_normalize];
    unfold binary_round;
    destruct (shl_align p e (SpecFloat.fexp prec emax (Zpos (digits2_pos p) + e))) as [mz ez].
  - exact (binary_round_aux_opp false (Zpos mz) ez loc_Exact).
  - change true with (negb false).
    rewrite (binary_round_aux_opp false (Zpos mz) ez loc_Exact).
    destruct (binary_round_aux prec emax false (Zpos mz) ez loc_Exact);
      cbn [SFopp]; rewrite ?negb_involutive; reflexivity.
Qed.

(** Swapping the operands of a subtraction negates the result, except
    that equal operands give [+0] both ways. *)
Lemma sub_swap (x y : float) :
  y - x = - (x - y) \/ (x - y = 0 /\ y - x = 0).
Proof.
  assert (H : SF64sub (Prim2SF y) (Prim2SF x) = SFopp (SF64sub (Prim2SF x) (Prim2SF y)) \/
              (SF64sub (Prim2SF x) (Prim2SF y) = S754_zero false /\
               SF64sub (Prim2SF y) (Prim2SF x) = S754_zero false)).
  { unfold SF64sub.
    destruct (Prim2SF x) as [sx|sx| |sx mx ex]; destruct (Prim2SF y) as [sy|sy| |sy my ey];
      cbn [SFsub SFopp];
      try (destruct sx, sy; cbn; auto; fail);
      try (left; cbn; rewrite ?negb_involutive; reflexivity).
    rewrite (Z.min_comm ey ex).
    set (a := cond_Zopp sx (Zpos (fst (shl_align mx ex (Z.min ex ey))))).
    set (b := cond_Zopp sy (Zpos (fst (shl_align my ey (Z.min ex ey))))).
    destruct (Z.eq_dec (a - b) 0) as [E|E].
    - right. replace (b - a)%Z with 0%Z by lia. rewrite E. split; reflexivity.
    - left. replace (b - a)%Z with (- (a - b))%Z by lia.
      now apply binary_normalize_opp. }
  destruct H as [H|[H1 H2]].
  - left. apply Prim2SF_inj. now rewrite opp_spec, !sub_spec.
  - right. split; apply Prim2SF_inj; rewrite sub_spec; assumption.
Qed.

(** A finite number minus itself is [+0]. *)
Lemma sub_diag (x : float) : is_finite x = true -> x - x = 0.
Proof.
  rewrite is_finite_SF. intros Hx. apply Prim2SF_inj. rewrite sub_spec.
  unfold SF64sub. destruct (Prim2SF x) as [s|s| |s m e]; try discriminate.
  - now destruct s.
  - cbn [SFsub]. now rewrite Z.sub_diag.
Qed.

End Primitive.

(** * Longitude wrapping and degree conversion stay in range *)

Section Ranges.
Local Open Scope float_scope.

Lemma B2R_zero : B2R 0 = 0%R.
Proof. reflexivity. Qed.

Lemma leb_0_B2R (x : float) :
  is_finite x = true -> (0 <=? x) = true <-> (0 <= B2R x)%R.
Proof. intros Hx. rewrite leb_B2R by auto. rewrite B2R_zero. tauto. Qed.

(** [s %% 360 - 180] for a finite [s >= 0]. *)
Lemma wrap_nonneg (s : float) :
  is_finite s = true -> (0 <=? s) = true ->
  is_finite (s %% 360 - 180) = true /\
  (-180 <=? s %% 360 - 180) = true /\ (s %% 360 - 180 <? 180) = true.
Proof.
  intros Hs H0. apply (leb_0_B2R s Hs) in H0.
  assert (C360 : Prim2SF 360 = S754_finite false 6333186975989760 (-44)) by reflexivity.
  assert (C180 : Prim2SF 180 = S754_finite false 6333186975989760 (-45)) by reflexivity.
  assert (Cm180 : Prim2SF (-180) = S754_finite true 6333186975989760 (-45)) by reflexivity.
  destruct (B2R_finite_const _ _ _ _ C360) as [F360 R360].
  destruct (B2R_finite_const _ _ _ _ C180) as [F180 R180].
  destruct (B2R_finite_const _ _ _ _ Cm180) as [Fm180 Rm180].
  cbn [cond_Zopp] in R360, R180, Rm180.
  change (Z.neg 6333186975989760) with (- 6333186975989760)%Z in Rm180.
  rewrite F2R_opp in Rm180.
  pose proof (F2R_pos_gt_0 6333186975989760 (-44)) as P360.
  destruct (rem_bound s 360 Hs F360 ltac:(rewrite R360; lra)) as (Fr & Br & Sr & _).
  specialize (Sr H0). rewrite R360, (Rabs_pos_eq (F2R _ _)) in Br by lra.
  assert (Hr : (B2R (s %% 360) <= F2R (6333186975989760 - 1) (-44))%R).
  { destruct (finite_le_cases (s %% 360) 6333186975989760 (-44)) as [H|[sg H]];
      try reflexivity; try assumption; try lra.
    - rewrite Rabs_pos_eq in H by assumption. exact H.
    - exfalso. revert Br. unfold B2R. rewrite H.
      change (S754_finite sg 6333186975989760 (-44))
        with (S754_finite sg 6333186975989760 (-44)).
      rewrite <- SF2R_abs. cbn [SFabs SF2R cond_Zopp]. lra. }
  assert (E44 : forall m, F2R m (-44) = (2 * F2R m (-45))%R).
  { intros m. unfold F2R. change (-44)%Z with (-45 + 1)%Z. rewrite bpow_succ. ring. }
  rewrite E44 in Hr.
  assert (HM : (F2R (6333186975989760 - 1) (-45)
                = F2R 6333186975989760 (-45) - F2R 1 (-45))%R).
  { unfold F2R. rewrite minus_IZR. ring. }
  assert (HM2 : (F2R 6333186975989758 (-45)
                 = F2R 6333186975989760 (-45) - 2 * F2R 1 (-45))%R).
  { unfold F2R. change 6333186975989758%Z with (6333186975989760 - 2)%Z.
    rewrite minus_IZR. ring. }
  pose proof (F2R_pos_gt_0 1 (-45)) as P1.
  pose proof (F2R_pos_gt_0 6333186975989760 (-45)) as P180.
  destruct (sub_le (s %% 360) 180 6333186975989760 (-45)) as (Fd & Bd & Pd & Nd);
    try reflexivity; try assumption.
  { rewrite R180. apply Rabs_le. lra. }
  split; [assumption|]. split.
  - apply leb_B2R; try assumption. rewrite Rm180.
    apply Rabs_le_inv in Bd. lra.
  - apply ltb_B2R; try assumption. rewrite R180.
    destruct (Rle_or_lt 0 (B2R (s %% 360) - B2R 180)) as [Hpos|Hneg].
    + destruct (sub_le (s %% 360) 180 6333186975989758 (-45)) as (_ & Bd' & _ & _);
        try reflexivity; try assumption.
      { rewrite R180, HM2. apply Rabs_le. lra. }
      apply Rabs_le_inv in Bd'. lra.
    + specialize (Nd ltac:(lra)). lra.
Qed.

(** Degrees from radians: an angle of magnitude at most [PI/2] converts
    to a latitude of magnitude at most [90], of the same sign. *)
Lemma toDegrees_quarter (φ : float) :
  (abs φ <=? Math.PI / 2) = true ->
  is_finite (toDegrees φ) = true /\
  (Rabs (B2R (toDegrees φ)) <= B2R 90)%R /\
  (0 <= B2R φ -> 0 <= B2R (toDegrees φ))%R /\
  (B2R φ <= 0 -> B2R (toDegrees φ) <= 0)%R.
Proof.
  intros Hφ.
  assert (CPI : Prim2SF Math.PI = S754_finite false 7074237752028440 (-51)) by reflexivity.
  assert (CH : Prim2SF (Math.PI / 2) = S754_finite false 7074237752028440 (-52)) by reflexivity.
  assert (C180 : Prim2SF 180 = S754_finite false 6333186975989760 (-45)) by reflexivity.
  assert (C90 : Prim2SF 90 = S754_finite false 6333186975989760 (-46)) by reflexivity.
  destruct (B2R_finite_const _ _ _ _ CPI) as [FPI RPI].
  destruct (B2R_finite_const _ _ _ _ CH) as [FH RH].
  destruct (B2R_finite_const _ _ _ _ C180) as [F180 R180].
  destruct (B2R_finite_const _ _ _ _ C90) as [F90 R90].
  cbn [cond_Zopp] in RPI, RH, R180, R90.
  assert (Fφ : is_finite φ = true) by (apply (abs_leb_finite φ (Math.PI / 2)); assumption).
  apply leb_B2R in Hφ; [|now rewrite is_finite_abs|assumption].
  rewrite B2R_abs, RH in Hφ.
  pose proof (F2R_pos_gt_0 7074237752028440 (-52)) as PH.
  pose proof (F2R_pos_gt_0 7074237752028440 (-51)) as PPI.
  pose proof (F2R_pos_gt_0 6333186975989760 (-45)) as P180.
  pose proof (F2R_pos_gt_0 6333186975989760 (-46)) as P90.
  unfold toDegrees.
  (* the product [φ * 180] *)
  assert (Hprod : (Rabs (B2R φ * B2R 180) <= F2R 4974073419394997 (-44))%R).
  { rewrite Rabs_mult, R180, (Rabs_pos_eq (F2R _ (-45))) by lra.
    apply Rle_trans with (F2R 7074237752028440 (-52) * F2R 6333186975989760 (-45))%R.
    - pose proof (Rabs_pos (B2R φ)). nra.
    - rewrite F2R_mult.
      replace (F2R 4974073419394997 (-44)) with (F2R (4974073419394997 * 2 ^ 53) (-97)).
      + apply F2R_le. vm_compute. discriminate.
      + rewrite F2R_shift by lia. reflexivity. }
  destruct (mul_le φ 180 4974073419394997 (-44)) as (Fy & By & Py & Ny);
    try reflexivity; try assumption.
  assert (Sy1 : (0 <= B2R φ -> 0 <= B2R (φ * 180))%R).
  { intros H. apply Py. rewrite R180. nra. }
  assert (Sy2 : (B2R φ <= 0 -> B2R (φ * 180) <= 0)%R).
  { intros H. apply Ny. rewrite R180. nra. }
  rewrite R90.
  destruct (finite_le_cases (φ * 180) 4974073419394997 (-44)) as [H|[sg H]];
    try reflexivity; try assumption.
  - (* below the largest product *)
    assert (Hq : (Rabs (B2R (φ * 180) / B2R Math.PI) <= F2R 6333186975989760 (-46))%R).
    { unfold Rdiv. rewrite Rabs_mult, RPI, (Rabs_inv (F2R _ (-51))).
      rewrite (Rabs_pos_eq (F2R _ (-51))) by lra.
      apply Rmult_le_reg_r with (F2R 7074237752028440 (-51)); [assumption|].
      rewrite Rmult_assoc, Rinv_l, Rmult_1_r by lra.
      apply Rle_trans with (1 := H). rewrite F2R_mult.
      replace (F2R (4974073419394997 - 1) (-44))
        with (F2R ((4974073419394997 - 1) * 2 ^ 53) (-97)).
      + apply F2R_le. vm_compute. discriminate.
      + rewrite F2R_shift by lia. reflexivity. }
    destruct (div_le (φ * 180) Math.PI 6333186975989760 (-46)) as (Fq & Bq & Pq & Nq);
      try reflexivity; try assumption.
    { rewrite RPI. lra. }
    repeat split; try assumption.
    + intros H1. apply Pq. rewrite RPI. apply Rmult_le_pos; [now apply Sy1|].
      apply Rlt_le, Rinv_0_lt_compat. assumption.
    + intros H1. apply Nq. rewrite RPI. specialize (Sy2 H1).
      assert (0 < / F2R 7074237752028440 (-51))%R by now apply Rinv_0_lt_compat.
      unfold Rdiv. nra.
  - (* the largest product itself: the quotient is exactly 90 or -90 *)
    assert (Ey : φ * 180 = SF2Prim (S754_finite sg 4974073419394997 (-44))).
    { rewrite <- H. symmetry. apply SF2Prim_Prim2SF. }
    assert (Hy : B2R (φ * 180) = SF2R (S754_finite sg 4974073419394997 (-44))).
    { unfold B2R. now rewrite H. }
    rewrite Hy in Sy1, Sy2. rewrite Ey.
    pose proof (F2R_pos_gt_0 4974073419394997 (-44)) as PY.
    destruct sg.
    + assert (Q : Prim2SF (SF2Prim (S754_finite true 4974073419394997 (-44)) / Math.PI)
                  = S754_finite true 6333186975989760 (-46)) by reflexivity.
      destruct (B2R_finite_const _ _ _ _ Q) as [FQ RQ]. rewrite RQ.
      cbn [cond_Zopp SF2R] in *.
      change (Z.neg 6333186975989760) with (- 6333186975989760)%Z.
      change (Z.neg 4974073419394997) with (- 4974073419394997)%Z in Sy1.
      rewrite F2R_opp in *. rewrite Rabs_Ropp, Rabs_pos_eq by lra.
      repeat split; try assumption; try lra.
    + assert (Q : Prim2SF (SF2Prim (S754_finite false 4974073419394997 (-44)) / Math.PI)
                  = S754_finite false 6333186975989760 (-46)) by reflexivity.
      destruct (B2R_finite_const _ _ _ _ Q) as [FQ RQ]. rewrite RQ.
      cbn [cond_Zopp SF2R] in *. rewrite Rabs_pos_eq by lra.
      repeat split; try assumption; try lra.
Qed.

Lemma toDegrees_quarter_leb (φ : float) :
  (abs φ <=? Math.PI / 2) = true ->
  (-90 <=? toDegrees φ) = true /\ (toDegrees φ <=? 90) = true.
Proof.
  intros H. destruct (toDegrees_quarter φ H) as (Fd & Bd & _ & _).
  assert (Cm90 : Prim2SF (-90) = S754_finite true 6333186975989760 (-46)) by reflexivity.
  assert (C90 : Prim2SF 90 = S754_finite false 6333186975989760 (-46)) by reflexivity.
  destruct (B2R_finite_const _ _ _ _ C90) as [F90 R90].
  destruct (B2R_finite_const _ _ _ _ Cm90) as [Fm90 Rm90].
  cbn [cond_Zopp] in R90, Rm90.
  change (Z.neg 6333186975989760) with (- 6333186975989760)%Z in Rm90.
  rewrite F2R_opp in Rm90. apply Rabs_le_inv in Bd.
  split; apply leb_B2R; try assumption; rewrite ?Rm90, ?R90 in *; lra.
Qed.

End Ranges.

(** * The executable host satisfies the laws *)

Section RefHostLaws.
Local Open Scope float_scope.

Lemma ltb_opp_0 (x : float) : (- x <? 0) = (0 <? x).
Proof.
  rewrite !ltb_spec, opp_spec. change (Prim2SF 0) with (S754_zero false).
  destruct (Prim2SF x) as [s|s| |s m e]; try reflexivity; destruct s; reflexivity.
Qed.

Lemma ltb_0_asym (x : float) : (x <? 0) = true -> (0 <? x) = false.
Proof.
  rewrite !ltb_spec. change (Prim2SF 0) with (S754_zero false).
  destruct (Prim2SF x) as [s|s| |s m e]; try discriminate; destruct s;
    try discriminate; reflexivity.
Qed.

Lemma sign_cases (x : float) :
  (0 <? x) = true \/ (x <? 0) = true \/ x = nan \/
  (Math.tiny x = true /\ (x <? 0) = false).
Proof.
  unfold Math.tiny. rewrite !ltb_spec, abs_spec.
  change (Prim2SF 0) with (S754_zero false).
  destruct (Prim2SF x) as [s|s| |s m e] eqn:E.
  - right; right; right. split; reflexivity.
  - destruct s; [right; left|left]; reflexivity.
  - right; right; left. apply Prim2SF_inj. now rewrite E.
  - destruct s; [right; left|left]; reflexivity.
Qed.

Lemma tiny_opp (x : float) : Math.tiny (- x) = Math.tiny x.
Proof. unfold Math.tiny. now rewrite abs_opp. Qed.

Lemma tiny_finite (x : float) : Math.tiny x = true -> is_finite x = true.
Proof. unfold Math.tiny. now apply abs_ltb_finite. Qed.

Lemma tiny_unit (x : float) : Math.tiny x = true -> (abs x <=? 1) = true.
Proof.
  intros H. pose proof (tiny_finite x H) as Hx. unfold Math.tiny in H.
  assert (C : Prim2SF 0x1p-27 = S754_finite false 4503599627370496 (-79)) by reflexivity.
  assert (C1 : Prim2SF 1 = S754_finite false 4503599627370496 (-52)) by reflexivity.
  destruct (B2R_finite_const _ _ _ _ C) as [Ft Rt].
  destruct (B2R_finite_const _ _ _ _ C1) as [F1 R1]. cbn [cond_Zopp] in Rt, R1.
  apply ltb_B2R in H; [|now rewrite is_finite_abs|assumption].
  apply leb_B2R; [now rewrite is_finite_abs|assumption|].
  rewrite Rt in H. rewrite R1.
  assert (F2R 4503599627370496 (-79) <= F2R 4503599627370496 (-52))%R
    by (apply F2R_exp_le; lia).
  lra.
Qed.

Lemma unit_or_zero_range (y : float) : (abs (RefHost.unit_or_zero y) <=? 1) = true.
Proof.
  unfold RefHost.unit_or_zero. destruct (abs y <=? 1) eqn:E; [assumption|reflexivity].
Qed.

Lemma sin_nonneg_range (x : float) :
  is_finite x = true -> (abs (RefHost.sin_nonneg x) <=? 1) = true.
Proof.
  intros Hx. unfold RefHost.sin_nonneg. destruct (Math.tiny x) eqn:T.
  - now apply tiny_unit.
  - rewrite Hx. apply unit_or_zero_range.
Qed.

Lemma leb_between_finite (a x b : float) :
  is_finite a = true -> is_finite b = true ->
  (a <=? x) = true -> (x <=? b) = true -> is_finite x = true.
Proof.
  rewrite !is_finite_SF, !leb_spec. unfold SFleb.
  destruct (Prim2SF a) as [sa|sa| |sa ma ea]; try discriminate;
    destruct (Prim2SF b) as [sb|sb| |sb mb eb]; try discriminate;
    destruct (Prim2SF x) as [s|s| |s m e]; try reflexivity; cbn;
    repeat match goal with b : bool |- _ => destruct b end;
    try discriminate; congruence.
Qed.

Lemma ltb_not_nan (a x : float) : (a <? x) = true -> is_nan x = false.
Proof.
  rewrite is_nan_SF, ltb_spec. unfold SFltb.
  destruct (Prim2SF x); try reflexivity. now destruct (Prim2SF a).
Qed.

Lemma unit_interval_abs (x : float) :
  (0 <=? x) = true -> (x <=? 1) = true -> (abs x <=? 1) = true.
Proof.
  intros H0 H1.
  assert (Hx : is_finite x = true) by (apply (leb_between_finite 0 x 1); auto).
  assert (C1 : Prim2SF 1 = S754_finite false 4503599627370496 (-52)) by reflexivity.
  destruct (B2R_finite_const _ _ _ _ C1) as [F1 R1].
  apply leb_0_B2R in H0; [|assumption].
  apply leb_B2R in H1; [|assumption|assumption].
  apply leb_B2R; [now rewrite is_finite_abs|assumption|].
  rewrite B2R_abs, Rabs_pos_eq; assumption.
Qed.

Lemma RefHost_laws : Math.laws RefHost.host.
Proof.
  constructor; cbn [Math.sin Math.cos Math.asin Math.acos Math.atan2 RefHost.host].
  - (* sin_tiny *)
    intros x T. unfold RefHost.sin, RefHost.sin_nonneg.
    rewrite tiny_opp, T. destruct (x <? 0); [apply opp_involutive|reflexivity].
  - (* sin_odd *)
    intros x. unfold RefHost.sin. rewrite ltb_opp_0, opp_involutive.
    destruct (sign_cases x) as [H|[H|[H|[T H]]]].
    + rewrite H. destruct (x <? 0) eqn:E; [|reflexivity].
      apply ltb_0_asym in E. congruence.
    + rewrite H, (ltb_0_asym x H). now rewrite opp_involutive.
    + subst x. reflexivity.
    + rewrite H. destruct (0 <? x) eqn:E.
      * reflexivity.
      * unfold RefHost.sin_nonneg. now rewrite tiny_opp, T.
  - (* sin_nan *) reflexivity.
  - (* sin_range *)
    intros x Hx. unfold RefHost.sin. destruct (x <? 0).
    + rewrite abs_opp. apply sin_nonneg_range. now rewrite is_finite_opp.
    + now apply sin_nonneg_range.
  - (* cos_tiny *) intros x T. unfold RefHost.cos. now rewrite T.
  - (* cos_nan *) reflexivity.
  - (* cos_range *)
    intros x Hx. unfold RefHost.cos. destruct (Math.tiny x); [reflexivity|].
    rewrite Hx. apply unit_or_zero_range.
  - (* asin_tiny *) intros x T. unfold RefHost.asin. now rewrite T.
  - (* asin_nan *) reflexivity.
  - (* acos_domain *) intros x H. unfold RefHost.acos. now rewrite H.
  - (* acos_range *)
    intros x H0 H1. unfold RefHost.acos.
    rewrite (unit_interval_abs x H0 H1), H0. unfold RefHost.quarter_turn.
    destruct ((0 <=? Math.PI / 2 - RefHost.asin x)
              && (Math.PI / 2 - RefHost.asin x <=? Math.PI / 2)) eqn:E.
    + apply andb_prop in E. exact E.
    + split; reflexivity.
  - (* atan2_nan_l *) reflexivity.
  - (* atan2_nan_r *)
    intros y. unfold RefHost.atan2. now rewrite orb_true_r.
  - (* atan2_zero_pos *)
    intros x H. unfold RefHost.atan2. rewrite (ltb_not_nan 0 x H), H. reflexivity.
Qed.

End RefHostLaws.

(** * Properties of the methods *)

Section Claims.
Local Open Scope float_scope.
Local Open Scope js_scope.

(** ** Symmetry of the haversine distance *)

Lemma mul_opp_r_twice (c s : float) : c * (- s) * (- s) = c * s * s.
Proof. now rewrite (mul_comm c (- s)), mul_opp_l, mul_opp_opp, (mul_comm s c). Qed.

Lemma haversine_term_swap {M : Math.host} (L : Math.laws M) (c x y : float) :
  c * Math.sin ((y - x) / 2) * Math.sin ((y - x) / 2)
  = c * Math.sin ((x - y) / 2) * Math.sin ((x - y) / 2).
Proof.
  destruct (sub_swap x y) as [H|[H1 H2]].
  - now rewrite H, div_opp_l, (Math.sin_odd M L), mul_opp_r_twice.
  - now rewrite H1, H2.
Qed.

Lemma haversine_square_swap {M : Math.host} (L : Math.laws M) (x y : float) :
  Math.sin ((y - x) / 2) * Math.sin ((y - x) / 2)
  = Math.sin ((x - y) / 2) * Math.sin ((x - y) / 2).
Proof.
  destruct (sub_swap x y) as [H|[H1 H2]].
  - now rewrite H, div_opp_l, (Math.sin_odd M L), mul_opp_opp.
  - now rewrite H1, H2.
Qed.

(** C5. The haversine distance is symmetric: for all points [a], [b] and
    every radius (given or defaulted), [a.distanceTo(b, radius)] and
    [b.distanceTo(a, radius)] are the same Number. *)
Theorem C5_distanceTo_symmetric (M : Math.host) (L : Math.laws M)
  (a b : LatLon) (radius : option float) :
  distanceTo a (VLatLon b) radius = distanceTo b (VLatLon a) radius.
Proof.
  unfold distanceTo. cbn [instanceof_LatLon bind].
  rewrite (haversine_square_swap L (toRadians (lat a)) (toRadians (lat b))).
  rewrite (haversine_term_swap L _ (toRadians (lon a)) (toRadians (lon b))).
  rewrite (mul_comm (Math.cos (toRadians (lat a))) (Math.cos (toRadians (lat b)))).
  reflexivity.
Qed.

Lemma C5_distanceTo_symmetric_witness :
  distanceTo (M := RefHost.host) (mkLatLon 52.205 0.119)
    (VLatLon (mkLatLon 48.857 2.351)) (Some 6371e3)
  = distanceTo (M := RefHost.host) (mkLatLon 48.857 2.351)
      (VLatLon (mkLatLon 52.205 0.119)) (Some 6371e3).
Proof.
  exact (C5_distanceTo_symmetric RefHost.host RefHost_laws
           (mkLatLon 52.205 0.119) (mkLatLon 48.857 2.351) (Some 6371e3)).
Defined.

(** ** The guard on the stretch factor *)

Lemma leb_ltb_false (x c : float) :
  is_finite c = true -> (x <=? c) = true -> (c <? x) = false.
Proof.
  intros Hc H.
  assert (Hx : is_nan x = false).
  { rewrite is_nan_SF. rewrite leb_spec in H. unfold SFleb in H.
    now destruct (Prim2SF x). }
  destruct (c <? x) eqn:E; [|reflexivity]. exfalso.
  rewrite leb_spec in H. rewrite ltb_spec in E. rewrite is_finite_SF in Hc.
  pose proof (Prim2SF_valid x) as Vx. pose proof (Prim2SF_valid c) as Vc.
  unfold SFleb in H. unfold SFltb in E.
  destruct (Prim2SF x) as [s|s| |s m e] eqn:Ex; try discriminate.
  - rewrite !SFcompare_Rcompare in * by (assumption || reflexivity).
    destruct (Rcompare_cases (SF2R (S754_zero s)) (SF2R (Prim2SF c))) as [[A B]|[[A B]|[A B]]];
    destruct (Rcompare_cases (SF2R (Prim2SF c)) (SF2R (S754_zero s))) as [[A' B']|[[A' B']|[A' B']]];
      rewrite ?B in H; rewrite ?B' in E; try discriminate; lra.
  - destruct (Prim2SF c) as [s'|s'| |s' m' e']; try discriminate;
      destruct s; cbn in H, E; discriminate.
  - rewrite !SFcompare_Rcompare in * by (assumption || reflexivity).
    destruct (Rcompare_cases (SF2R (S754_finite s m e)) (SF2R (Prim2SF c))) as [[A B]|[[A B]|[A B]]];
    destruct (Rcompare_cases (SF2R (Prim2SF c)) (SF2R (S754_finite s m e))) as [[A' B']|[[A' B']|[A' B']]];
      rewrite ?B in H; rewrite ?B' in E; try discriminate; lra.
Qed.

(** C6. In [rhumbDistanceTo] and [rhumbDestinationPoint] the stretch
    factor [q] is [Δφ / Δψ] whenever [|Δψ| > 1e-11] and is [cos φ1]
    whenever [|Δψ| <= 1e-11], so that no quotient by so small a [Δψ] is
    formed; both methods compute their result from this [q]. *)
Theorem C6_stretch_factor_guarded (M : Math.host) :
  (forall Δφ Δψ φ1,
     ((Math.abs Δψ >? 1e-11) = true -> rhumb_q Δφ Δψ φ1 = Δφ / Δψ) /\
     ((Math.abs Δψ <=? 1e-11) = true -> rhumb_q Δφ Δψ φ1 = Math.cos φ1)) /\
  (forall this point radius,
     let R := radius_or_default radius in
     let φ1 := toRadians (lat this) in
     let φ2 := toRadians (lat point) in
     let Δφ := φ2 - φ1 in
     let Δλ := toRadians (Math.abs (lon point - lon this)) in
     let Δλ := if Math.abs Δλ >? Math.PI
               then (if Δλ >? 0 then - (2 * Math.PI - Δλ) else 2 * Math.PI + Δλ)
               else Δλ in
     let q := rhumb_q Δφ (rhumb_dpsi φ1 φ2) φ1 in
     rhumbDistanceTo this (VLatLon point) radius
     = Normal (Math.sqrt (Δφ * Δφ + q * q * Δλ * Δλ) * R)) /\
  (forall this distance bearing radius,
     let δ := distance / radius_or_default radius in
     let φ1 := toRadians (lat this) in
     let λ1 := toRadians (lon this) in
     let θ := toRadians bearing in
     let Δφ := δ * Math.cos θ in
     let φ2 := rhumb_phi2 φ1 Δφ in
     let q := rhumb_q Δφ (rhumb_dpsi φ1 φ2) φ1 in
     rhumbDestinationPoint this distance bearing radius
     = Normal (mkLatLon (toDegrees φ2)
                 ((toDegrees (λ1 + δ * Math.sin θ / q) + 540) %% 360 - 180))).
Proof.
  split; [|split].
  - intros Δφ Δψ φ1. unfold rhumb_q. split.
    + intros H. change 10e-12 with 1e-11. now rewrite H.
    + intros H. change 10e-12 with 1e-11.
      now rewrite (leb_ltb_false (Math.abs Δψ) 1e-11 eq_refl H).
  - reflexivity.
  - reflexivity.
Qed.

(** ** The argument check *)

Lemma instanceof_LatLon_throws (v : value) (message : string) :
  is_LatLon v = false -> instanceof_LatLon v message = Throw (TypeError message).
Proof. destruct v; cbn; intros H; try reflexivity; discriminate. Qed.

(** Every method that tests its argument with [instanceof] throws a
    [TypeError] on anything that is not a [LatLon]. *)
Lemma guarded_methods_throw {M : Math.host} (this : LatLon) (v w : value)
  (radius : option float) (fraction brng1 brng2 : float) :
  is_LatLon v = false ->
  throws (distanceTo this v radius) /\
  throws (bearingTo this v) /\
  throws (finalBearingTo this v) /\
  throws (midpointTo this v) /\
  throws (intermediatePointTo this v fraction) /\
  throws (intersection v brng1 w brng2) /\
  throws (intersection (VLatLon this) brng1 v brng2) /\
  throws (crossTrackDistanceTo this v w radius) /\
  throws (crossTrackDistanceTo this (VLatLon this) v radius) /\
  throws (rhumbDistanceTo this v radius) /\
  throws (rhumbBearingTo this v) /\
  throws (rhumbMidpointTo this v).
Proof.
  intros H.
  unfold distanceTo, bearingTo, finalBearingTo, midpointTo, intermediatePointTo,
    intersection, crossTrackDistanceTo, rhumbDistanceTo, rhumbBearingTo,
    rhumbMidpointTo, throws.
  cbn [instanceof_LatLon bind].
  rewrite !(instanceof_LatLon_throws v) by assumption. cbn [bind].
  repeat split; eexists; reflexivity.
Qed.

(** C2. Every method that expects a point throws the one [TypeError]
    when given something that is not a [LatLon] -- except
    [LatLon.crossingParallels], which has no such check: given plain
    objects carrying numeric [lat] and [lon] it returns normally. *)
Theorem C2_crossingParallels_accepts_non_points (M : Math.host)
  (lat1 lon1 lat2 lon2 latitude : float) (this : LatLon) :
  is_LatLon (plain_point lat1 lon1) = false /\
  throws (distanceTo this (plain_point lat1 lon1) None) /\
  throws (intersection (plain_point lat1 lon1) 0 (VLatLon this) 0) /\
  (exists r, crossingParallels (plain_point lat1 lon1) (plain_point lat2 lon2) latitude
             = Normal r) /\
  (exists r, crossingParallels (plain_point lat1 lon1) (VLatLon this) latitude
             = Normal r).
Proof.
  split; [reflexivity|]. split; [eexists; reflexivity|]. split; [eexists; reflexivity|].
  unfold crossingParallels, plain_point.
  cbn [get own_property String.eqb Ascii.eqb Bool.eqb bind call_toRadians].
  split.
  - match goal with |- context [if ?c then _ else _] => destruct c end;
      eexists; reflexivity.
  - match goal with |- context [if ?c then _ else _] => destruct c end;
      eexists; reflexivity.
Qed.

(** ** Longitude normalisation *)

Lemma wrapping_normalised (x : float) : normalised x ((x + 540) %% 360 - 180).
Proof.
  split; [reflexivity|]. intros Hf H0.
  destruct (wrap_nonneg (x + 540) Hf H0) as (_ & Hlo & Hhi). now split.
Qed.

(** The claimed interval [(-180, 180]] fails at its lower end: starting on
    the antimeridian and travelling no distance gives longitude [-180]. *)
Lemma C1_counterexample :
  ~ (forall (M : Math.host), Math.laws M ->
     forall (this : LatLon) (distance bearing : float) (radius : option float)
            (p : LatLon),
       destinationPoint this distance bearing radius = Normal p ->
       (-180 <? lon p) = true /\ (lon p <=? 180) = true).
Proof.
  intros H.
  destruct (H RefHost.host RefHost_laws (mkLatLon 0 180) 0 0 None
              (mkLatLon 0 (-180)) eq_refl) as [H1 _].
  vm_compute in H1. discriminate.
Qed.

(** C1, amended. Every method that computes a new longitude
    ([midpointTo], [intermediatePointTo], [destinationPoint],
    [intersection], [crossingParallels], [rhumbDestinationPoint],
    [rhumbMidpointTo]) returns it as [(x + 540) % 360 - 180], where [x] is
    the longitude that method computed, converted to degrees; whenever
    [x + 540] is finite and not negative, the returned longitude lies in
    the half-open interval [[-180, 180)]. *)
Theorem C1_longitude_wrapped (M : Math.host) :
  (forall this point, exists p,
     midpointTo this (VLatLon point) = Normal p /\
     normalised (toDegrees (midpointTo_lambda3 this point)) (lon p)) /\
  (forall this point fraction, exists p,
     intermediatePointTo this (VLatLon point) fraction = Normal p /\
     normalised (toDegrees (intermediatePointTo_lambda3 this point fraction)) (lon p)) /\
  (forall this distance bearing radius, exists p,
     destinationPoint this distance bearing radius = Normal p /\
     normalised (toDegrees (destinationPoint_lambda2 this distance bearing radius)) (lon p)) /\
  (forall p1 brng1 p2 brng2 p,
     intersection (VLatLon p1) brng1 (VLatLon p2) brng2 = Normal (Some p) ->
     normalised (toDegrees (intersection_lambda3 p1 brng1 p2 brng2)) (lon p)) /\
  (forall p1 p2 latitude c,
     crossingParallels (VLatLon p1) (VLatLon p2) latitude = Normal (Some c) ->
     normalised (toDegrees (fst (crossingParallels_lambda p1 p2 latitude))) (lon1 c) /\
     normalised (toDegrees (snd (crossingParallels_lambda p1 p2 latitude))) (lon2 c)) /\
  (forall this distance bearing radius, exists p,
     rhumbDestinationPoint this distance bearing radius = Normal p /\
     normalised (toDegrees (rhumbDestinationPoint_lambda2 this distance bearing radius))
       (lon p)) /\
  (forall this point, exists p,
     rhumbMidpointTo this (VLatLon point) = Normal p /\
     normalised (toDegrees (rhumbMidpointTo_lambda3 this point)) (lon p)).
Proof.
  split; [|split; [|split; [|split; [|split; [|split]]]]].
  - intros this point. eexists. split; [reflexivity|]. apply wrapping_normalised.
  - intros this point fraction. eexists. split; [reflexivity|]. apply wrapping_normalised.
  - intros this distance bearing radius. eexists. split; [reflexivity|].
    apply wrapping_normalised.
  - intros p1 brng1 p2 brng2 p. unfold intersection.
    cbn [instanceof_LatLon bind]. cbv zeta.
    repeat match goal with
           | |- context [if ?c then Normal None else _] => destruct c; try discriminate
           end.
    intros [= <-]. apply wrapping_normalised.
  - intros p1 p2 latitude c. unfold crossingParallels, crossingParallels_lambda, crossing_xyz.
    cbn [get String.eqb Ascii.eqb Bool.eqb bind call_toRadians fst snd]. cbv zeta.
    match goal with
    | |- context [if ?c then Normal None else _] => destruct c; try discriminate
    end.
    intros [= <-]. split; apply wrapping_normalised.
  - intros this distance bearing radius. eexists. split; [reflexivity|].
    apply wrapping_normalised.
  - intros this point. eexists. split; [reflexivity|]. apply wrapping_normalised.
Qed.

Lemma C1_longitude_wrapped_witness :
  exists p,
    destinationPoint (M := RefHost.host) (mkLatLon 51.4778 (-0.0015)) 7794 300.7 None
    = Normal p /\
    (-180 <=? lon p) = true /\ (lon p <? 180) = true.
Proof.
  destruct (proj1 (proj2 (proj2 (C1_longitude_wrapped RefHost.host)))
              (mkLatLon 51.4778 (-0.0015)) 7794 300.7 None) as (p & E & _ & R).
  exists p. split; [exact E|]. apply R; reflexivity.
Defined.


(** ** Latitudes stay between the poles *)

Lemma ltb_false_B2R (x y : float) :
  is_finite x = true -> is_finite y = true ->
  (x <? y) = false -> (B2R y <= B2R x)%R.
Proof.
  intros Hx Hy H. destruct (Rle_or_lt (B2R y) (B2R x)) as [Hle|Hlt]; [assumption|].
  apply (ltb_B2R x y Hx Hy) in Hlt. congruence.
Qed.

Lemma B2R_one : B2R 1 = 1%R.
Proof.
  change (B2R 1) with (F2R (1 * 2 ^ 52) (-52)).
  rewrite F2R_shift by lia. unfold F2R, bpow. cbn. lra.
Qed.

Lemma abs_leb_B2R (x c : float) :
  is_finite c = true -> (abs x <=? c) = true ->
  is_finite x = true /\ (Rabs (B2R x) <= B2R c)%R.
Proof.
  intros Hc H. pose proof (abs_leb_finite x c Hc H) as Hx. split; [assumption|].
  apply leb_B2R in H; [|now rewrite is_finite_abs|assumption].
  now rewrite B2R_abs in H.
Qed.

Lemma B2R_abs_leb (x c : float) :
  is_finite c = true -> is_finite x = true -> (Rabs (B2R x) <= B2R c)%R ->
  (abs x <=? c) = true.
Proof.
  intros Hc Hx H. apply leb_B2R; [now rewrite is_finite_abs|assumption|].
  now rewrite B2R_abs.
Qed.

(** The three multiples of the quarter turn the code compares with. *)
Lemma quarter_turns :
  is_finite Math.PI = true /\ is_finite (Math.PI / 2) = true /\
  is_finite (3 * Math.PI / 2) = true /\
  (0 < B2R (Math.PI / 2))%R /\
  B2R Math.PI = (2 * B2R (Math.PI / 2))%R /\
  B2R (3 * Math.PI / 2) = (3 * B2R (Math.PI / 2))%R.
Proof.
  repeat split.
  - change (B2R (Math.PI / 2)) with (F2R 7074237752028440 (-52)).
    apply F2R_pos_gt_0.
  - change (B2R (Math.PI / 2)) with (F2R 7074237752028440 (-52)).
    change (B2R Math.PI) with (F2R 7074237752028440 (-52 + 1)).
    unfold F2R. rewrite bpow_succ. ring.
  - change (B2R (Math.PI / 2)) with (F2R 7074237752028440 (-52)).
    change (B2R (3 * Math.PI / 2)) with (F2R 5305678314021330 (-52 + 2)).
    rewrite <- F2R_shift by lia. unfold F2R.
    change (5305678314021330 * 2 ^ 2)%Z with (3 * 7074237752028440)%Z.
    rewrite mult_IZR. ring.
Qed.

(** The latitude kept by [rhumbDestinationPoint] is within a quarter
    turn of the equator whenever the projected one is within three. *)
Lemma rhumb_phi2_quarter (φ1 Δφ : float) :
  (abs (φ1 + Δφ) <=? 3 * Math.PI / 2) = true ->
  (abs (rhumb_phi2 φ1 Δφ) <=? Math.PI / 2) = true.
Proof.
  intros H. destruct quarter_turns as (FP & FH & F3 & Hpos & EP & E3).
  destruct (abs_leb_B2R _ _ F3 H) as [Fφ Bφ]. rewrite E3 in Bφ.
  apply Rabs_le_inv in Bφ.
  assert (CH : SpecFloat.bounded prec emax 7074237752028440 (-52) = true) by reflexivity.
  assert (RH : B2R (Math.PI / 2) = F2R 7074237752028440 (-52)) by reflexivity.
  unfold rhumb_phi2, Math.abs.
  destruct (abs (φ1 + Δφ) >? Math.PI / 2) eqn:E1.
  - apply ltb_B2R in E1; [|assumption|now rewrite is_finite_abs].
    rewrite B2R_abs in E1.
    destruct (φ1 + Δφ >? 0) eqn:E2.
    + apply ltb_B2R in E2; [|reflexivity|assumption]. rewrite B2R_zero in E2.
      rewrite Rabs_pos_eq in E1 by lra.
      assert (Hd : (Rabs (B2R Math.PI - B2R (φ1 + Δφ)) <= F2R 7074237752028440 (-52))%R).
      { rewrite <- RH, EP. apply Rabs_le. lra. }
      destruct (sub_le Math.PI (φ1 + Δφ) 7074237752028440 (-52) CH FP Fφ Hd)
        as (Fr & Br & _ & _).
      apply B2R_abs_leb; assumption.
    + apply ltb_false_B2R in E2; [|reflexivity|assumption]. rewrite B2R_zero in E2.
      rewrite Rabs_left1 in E1 by lra.
      assert (FmP : is_finite (- Math.PI) = true) by reflexivity.
      assert (Hd : (Rabs (B2R (- Math.PI) - B2R (φ1 + Δφ))
                    <= F2R 7074237752028440 (-52))%R).
      { rewrite <- RH, B2R_opp, EP. apply Rabs_le. lra. }
      destruct (sub_le (- Math.PI) (φ1 + Δφ) 7074237752028440 (-52) CH FmP Fφ Hd)
        as (Fr & Br & _ & _).
      apply B2R_abs_leb; assumption.
  - apply ltb_false_B2R in E1; [|assumption|now rewrite is_finite_abs].
    rewrite B2R_abs in E1. now apply B2R_abs_leb.
Qed.

(** C7. When the latitude projected by [rhumbDestinationPoint],
    [φ1 + (distance / radius) * cos θ], lies beyond a pole it is reflected,
    [π - φ2] or [-π - φ2] by its sign, neither clamped nor rejected; and
    whenever the projected latitude is at most [3π/2] in magnitude the
    returned latitude lies in [[-90, 90]]. *)
Theorem C7_rhumb_latitude_reflected (M : Math.host) (this : LatLon)
  (distance bearing : float) (radius : option float) :
  let φ1 := toRadians (lat this) in
  let Δφ := distance / radius_or_default radius * Math.cos (toRadians bearing) in
  let φ2 := φ1 + Δφ in
  (Math.abs φ2 <=? 3 * Math.PI / 2) = true ->
  exists p,
    rhumbDestinationPoint this distance bearing radius = Normal p /\
    lat p = toDegrees (if Math.abs φ2 >? Math.PI / 2
                       then (if φ2 >? 0 then Math.PI - φ2 else - Math.PI - φ2)
                       else φ2) /\
    (-90 <=? lat p) = true /\ (lat p <=? 90) = true.
Proof.
  intros φ1 Δφ φ2 H. eexists. split; [reflexivity|]. cbn [lat].
  split; [reflexivity|].
  apply toDegrees_quarter_leb. exact (rhumb_phi2_quarter φ1 Δφ H).
Qed.

Lemma C7_rhumb_latitude_reflected_witness :
  exists p,
    rhumbDestinationPoint (M := RefHost.host) (mkLatLon 80 0) 2000000 0 None = Normal p /\
    lat p = toDegrees (Math.PI - (toRadians 80 + 2000000 / 6371e3 * 1)) /\
    (-90 <=? lat p) = true /\ (lat p <=? 90) = true.
Proof.
  exact (C7_rhumb_latitude_reflected RefHost.host (mkLatLon 80 0) 2000000 0 None eq_refl).
Defined.

(** C10. For a point and a bearing whose radian values are finite,
    [maxLatitude] returns a value in [[0, 90]]; it reads only the latitude
    of the point, so changing the longitude does not change the result. *)
Theorem C10_maxLatitude_range (M : Math.host) (L : Math.laws M)
  (p : LatLon) (bearing : float) :
  is_finite (toRadians bearing) = true ->
  is_finite (toRadians (lat p)) = true ->
  exists r,
    maxLatitude p bearing = Normal r /\
    (0 <=? r) = true /\ (r <=? 90) = true /\
    (forall lon', maxLatitude (mkLatLon (lat p) lon') bearing = Normal r).
Proof.
  intros Hθ Hφ. eexists. split; [reflexivity|].
  destruct quarter_turns as (FP & FH & F3 & Hpos & EP & E3).
  pose proof (Math.sin_range M L _ Hθ) as Hs.
  pose proof (Math.cos_range M L _ Hφ) as Hc.
  set (s := Math.sin (toRadians bearing)) in *.
  set (c := Math.cos (toRadians (lat p))) in *.
  assert (F1 : is_finite 1 = true) by reflexivity.
  destruct (abs_leb_B2R s 1 F1 Hs) as [Fs Bs].
  destruct (abs_leb_B2R c 1 F1 Hc) as [Fc Bc].
  rewrite B2R_one in Bs, Bc.
  assert (C1 : SpecFloat.bounded prec emax 4503599627370496 (-52) = true) by reflexivity.
  assert (R1 : F2R 4503599627370496 (-52) = 1%R) by exact B2R_one.
  assert (Hm : (Rabs (B2R s * B2R c) <= F2R 4503599627370496 (-52))%R).
  { rewrite R1, Rabs_mult. pose proof (Rabs_pos (B2R s)). pose proof (Rabs_pos (B2R c)). nra. }
  destruct (mul_le s c 4503599627370496 (-52) C1 Fs Fc Hm) as (Fm & Bm & _ & _).
  rewrite R1 in Bm.
  assert (Hu0 : (0 <=? Math.abs (s * c)) = true).
  { unfold Math.abs. apply leb_B2R; [reflexivity|now rewrite is_finite_abs|].
    rewrite B2R_zero, B2R_abs. apply Rabs_pos. }
  assert (Hu1 : (Math.abs (s * c) <=? 1) = true).
  { unfold Math.abs. apply leb_B2R; [now rewrite is_finite_abs|reflexivity|].
    now rewrite B2R_abs, B2R_one. }
  destruct (Math.acos_range M L _ Hu0 Hu1) as [Ha0 Ha1].
  set (φMax := Math.acos (Math.abs (s * c))) in *.
  assert (Fa : is_finite φMax = true) by (apply (leb_between_finite 0 φMax (Math.PI / 2)); auto).
  apply leb_0_B2R in Ha0; [|assumption].
  apply leb_B2R in Ha1; [|assumption|assumption].
  assert (Hq : (abs φMax <=? Math.PI / 2) = true).
  { apply B2R_abs_leb; try assumption. now rewrite Rabs_pos_eq. }
  destruct (toDegrees_quarter φMax Hq) as (Fd & Bd & Pd & _).
  destruct (toDegrees_quarter_leb φMax Hq) as [_ Hhi].
  repeat split.
  - apply leb_0_B2R; [assumption|]. now apply Pd.
  - exact Hhi.
Qed.

Lemma C10_maxLatitude_range_witness :
  exists r,
    maxLatitude (M := RefHost.host) (mkLatLon 52.205 0.119) 45 = Normal r /\
    (0 <=? r) = true /\ (r <=? 90) = true /\
    (forall lon', maxLatitude (M := RefHost.host) (mkLatLon 52.205 lon') 45 = Normal r).
Proof.
  exact (C10_maxLatitude_range RefHost.host RefHost_laws (mkLatLon 52.205 0.119) 45
           eq_refl eq_refl).
Defined.

(** ** Coincident points *)

Lemma zero_cases (z : float) (s : bool) :
  Prim2SF z = S754_zero s -> z = 0 \/ z = - 0.
Proof.
  intros H. destruct s; [right|left]; apply Prim2SF_inj; now rewrite H.
Qed.

(** Numbers that compare equal are the same Number, or two zeros. *)
Lemma eqb_cases (x y : float) :
  (x =? y) = true ->
  x = y \/ ((x = 0 \/ x = - 0) /\ (y = 0 \/ y = - 0)).
Proof.
  rewrite eqb_spec. unfold SFeqb. intros H.
  destruct (Prim2SF x) as [sx|sx| |sx mx ex] eqn:Ex;
    destruct (Prim2SF y) as [sy|sy| |sy my ey] eqn:Ey; cbn in H; try discriminate;
    try (destruct sx; discriminate); try (destruct sy; discriminate).
  - right. split; eapply zero_cases; eassumption.
  - left. apply Prim2SF_inj. rewrite Ex, Ey. destruct sx, sy; try discriminate; reflexivity.
  - left. apply Prim2SF_inj. rewrite Ex, Ey.
    destruct sx, sy; try discriminate;
      destruct (Z.compare_spec ex ey) as [-> | ? | ?]; try discriminate;
      change (Pos.compare_cont Eq mx my) with (Pos.compare mx my) in H;
      destruct (Pos.compare_spec mx my) as [-> | ? | ?]; try discriminate; reflexivity.
Qed.

Lemma mul_0_r_cases (x : float) : x * 0 = 0 \/ x * 0 = - 0 \/ x * 0 = nan.
Proof.
  assert (H : exists r, Prim2SF (x * 0) = r /\
                        (r = S754_zero false \/ r = S754_zero true \/ r = S754_nan)).
  { rewrite mul_spec. change (Prim2SF 0) with (S754_zero false). unfold SF64mul.
    destruct (Prim2SF x) as [s|s| |s m e]; cbn [SFmul]; eexists; split; try reflexivity;
      try destruct s; cbn; auto. }
  destruct H as (r & Hr & [-> | [-> | ->]]);
    [left|right; left|right; right]; apply Prim2SF_inj; now rewrite Hr.
Qed.

Lemma finite_mul_zero (x z : float) :
  is_finite x = true -> z = 0 \/ z = - 0 -> x * z = 0 \/ x * z = - 0.
Proof.
  rewrite is_finite_SF. intros Hx Hz.
  assert (H : exists s, Prim2SF (x * z) = S754_zero s).
  { rewrite mul_spec. unfold SF64mul.
    destruct Hz as [-> | ->];
      [change (Prim2SF 0) with (S754_zero false)|change (Prim2SF (- 0)) with (S754_zero true)];
      destruct (Prim2SF x) as [s|s| |s m e]; try discriminate; cbn [SFmul];
      eexists; reflexivity. }
  destruct H as [s Hs]. exact (zero_cases _ _ Hs).
Qed.

Lemma toRadians_zero_cases (x : float) :
  x = 0 \/ x = - 0 -> toRadians x = 0 \/ toRadians x = - 0.
Proof. intros [-> | ->]; [left|right]; reflexivity. Qed.

(** The difference of the radian values of two coordinates that compare
    equal is a zero. *)
Lemma coincident_difference (x y : float) :
  is_finite (toRadians x) = true -> (x =? y) = true ->
  toRadians y - toRadians x = 0 \/ toRadians y - toRadians x = - 0.
Proof.
  intros Hx H. destruct (eqb_cases x y H) as [<- | [Zx Zy]].
  - left. now apply sub_diag.
  - destruct (toRadians_zero_cases x Zx) as [-> | ->];
      destruct (toRadians_zero_cases y Zy) as [-> | ->]; auto.
Qed.

Lemma sin_half_zero {M : Math.host} (L : Math.laws M) (d : float) :
  d = 0 \/ d = - 0 -> Math.sin (d / 2) = 0 \/ Math.sin (d / 2) = - 0.
Proof.
  intros [-> | ->]; [left|right]; now rewrite (Math.sin_tiny M L) by reflexivity.
Qed.

(** For coincident points the haversine term [a] is [+0]. *)
Lemma coincident_haversine {M : Math.host} (L : Math.laws M) (a b : LatLon) :
  radians_finite a -> radians_finite b -> coincident a b ->
  Math.sin ((toRadians (lat b) - toRadians (lat a)) / 2)
  * Math.sin ((toRadians (lat b) - toRadians (lat a)) / 2)
  + Math.cos (toRadians (lat a)) * Math.cos (toRadians (lat b))
    * Math.sin ((toRadians (lon b) - toRadians (lon a)) / 2)
    * Math.sin ((toRadians (lon b) - toRadians (lon a)) / 2) = 0.
Proof.
  intros [Fa1 Fa2] [Fb1 Fb2] [E1 E2].
  pose proof (sin_half_zero L _ (coincident_difference _ _ Fa1 E1)) as S1.
  pose proof (sin_half_zero L _ (coincident_difference _ _ Fa2 E2)) as S2.
  set (s1 := Math.sin ((toRadians (lat b) - toRadians (lat a)) / 2)) in *.
  set (s2 := Math.sin ((toRadians (lon b) - toRadians (lon a)) / 2)) in *.
  pose proof (Math.cos_range M L _ Fa1) as C1.
  pose proof (Math.cos_range M L _ Fb1) as C2.
  set (c1 := Math.cos (toRadians (lat a))) in *.
  set (c2 := Math.cos (toRadians (lat b))) in *.
  assert (F1 : is_finite 1 = true) by reflexivity.
  destruct (abs_leb_B2R c1 1 F1 C1) as [Fc1 Bc1].
  destruct (abs_leb_B2R c2 1 F1 C2) as [Fc2 Bc2].
  rewrite B2R_one in Bc1, Bc2.
  assert (Hm : (Rabs (B2R c1 * B2R c2) <= F2R 4503599627370496 (-52))%R).
  { change (F2R 4503599627370496 (-52)) with (B2R 1). rewrite B2R_one, Rabs_mult.
    pose proof (Rabs_pos (B2R c1)). pose proof (Rabs_pos (B2R c2)). nra. }
  destruct (mul_le c1 c2 4503599627370496 (-52) eq_refl Fc1 Fc2 Hm) as (Fm & _).
  pose proof (finite_mul_zero (c1 * c2) s2 Fm S2) as Z1.
  assert (Z2 : c1 * c2 * s2 * s2 = 0 \/ c1 * c2 * s2 * s2 = - 0).
  { destruct Z1 as [-> | ->]; destruct S2 as [-> | ->]; auto. }
  destruct S1 as [-> | ->]; destruct Z2 as [-> | ->]; reflexivity.
Qed.

(** ** The null results of [intersection] *)

Lemma intersection_coincident {M : Math.host} (L : Math.laws M) (p1 p2 : LatLon)
  (brng1 brng2 : float) :
  radians_finite p1 -> radians_finite p2 -> coincident p1 p2 ->
  intersection (VLatLon p1) brng1 (VLatLon p2) brng2 = Normal None.
Proof.
  intros F1 F2 E. unfold intersection. cbn [instanceof_LatLon bind]. cbv zeta.
  rewrite (coincident_haversine L p1 p2 F1 F2 E).
  change (Math.sqrt 0) with 0.
  rewrite (Math.asin_tiny M L 0 eq_refl).
  reflexivity.
Qed.

(** [intersection] returns [null] exactly when the computed separation
    [δ12] is zero, or both included angles have zero
    sine, or the sines of the two included angles have opposite sign
    (their product is negative); otherwise it returns a point.  In
    particular it returns [null] for coincident points. *)
Lemma intersection_null_iff (M : Math.host) (L : Math.laws M)
  (p1 : LatLon) (brng1 : float) (p2 : LatLon) (brng2 : float) :
  let δ12 := intersection_delta12 p1 p2 in
  let α1 := fst (intersection_alpha p1 brng1 p2 brng2) in
  let α2 := snd (intersection_alpha p1 brng1 p2 brng2) in
  let result := intersection (VLatLon p1) brng1 (VLatLon p2) brng2 in
  (result = Normal None <->
     (δ12 =? 0) = true \/
     ((Math.sin α1 =? 0) = true /\ (Math.sin α2 =? 0) = true) \/
     (Math.sin α1 * Math.sin α2 <? 0) = true) /\
  (result = Normal None \/ exists p, result = Normal (Some p)) /\
  (radians_finite p1 -> radians_finite p2 -> coincident p1 p2 ->
   result = Normal None).
Proof.
  cbv zeta. split; [|split].
  - unfold intersection, intersection_alpha, intersection_cos_theta_a, intersection_cos_theta_b,
      intersection_delta12.
    cbn [instanceof_LatLon bind fst snd]. cbv zeta.
    match goal with |- context [if ?c then Normal None else _] => destruct c eqn:E1 end.
    { split; auto. }
    match goal with |- context [if ?c then Normal None else _] => destruct c eqn:E2 end.
    { split; [|reflexivity]. intros _. right; left. now apply andb_prop in E2. }
    match goal with |- context [if ?c then Normal None else _] => destruct c eqn:E3 end.
    { split; auto. }
    split; [discriminate|].
    intros [H|[[H1 H2]|H]]; try discriminate.
    rewrite H1, H2 in E2. discriminate.
  - unfold intersection. cbn [instanceof_LatLon bind]. cbv zeta.
    repeat match goal with
           | |- context [if ?c then Normal None else _] => destruct c; [left; reflexivity|]
           end.
    right. eexists. reflexivity.
  - now apply intersection_coincident.
Qed.

(** ** NaN reaches the result *)

Lemma toDegrees_nan : toDegrees nan = nan.
Proof. reflexivity. Qed.

Lemma wrap_nan : (nan + 540) %% 360 - 180 = nan.
Proof. reflexivity. Qed.

Lemma acos_nan {M : Math.host} (L : Math.laws M) : Math.acos nan = nan.
Proof. now apply (Math.acos_domain M L). Qed.

(** Rewriting with the absorption laws, of the arithmetic and of a
    lawful host. *)
Ltac nan_simpl L :=
  repeat first
    [ rewrite add_nan_l | rewrite add_nan_r | rewrite sub_nan_l | rewrite sub_nan_r
    | rewrite mul_nan_l | rewrite mul_nan_r | rewrite div_nan_l | rewrite div_nan_r
    | rewrite rem_nan_l | rewrite eqb_nan_l | rewrite ltb_nan_l | rewrite ltb_nan_r
    | rewrite (Math.sin_nan _ L) | rewrite (Math.cos_nan _ L)
    | rewrite (Math.asin_nan _ L) | rewrite (acos_nan L)
    | rewrite (Math.atan2_nan_l _ L) | rewrite (Math.atan2_nan_r _ L)
    | rewrite toDegrees_nan | rewrite wrap_nan
    | rewrite andb_false_r ].

(** The sine of a product with zero, divided by the sine of zero. *)
Lemma sin_zero_quotient {M : Math.host} (L : Math.laws M) (t : float) :
  Math.sin (t * 0) / Math.sin 0 = nan.
Proof.
  rewrite (Math.sin_tiny M L 0 eq_refl).
  destruct (mul_0_r_cases t) as [-> | [-> | ->]].
  - now rewrite (Math.sin_tiny M L 0 eq_refl).
  - now rewrite (Math.sin_tiny M L (- 0) eq_refl).
  - now rewrite (Math.sin_nan M L).
Qed.

(** For coincident points the angular distance of [intermediatePointTo]
    is [+0]. *)
Lemma intermediatePointTo_delta_coincident {M : Math.host} (L : Math.laws M) (a b : LatLon) :
  radians_finite a -> radians_finite b -> coincident a b ->
  intermediatePointTo_delta a b = 0.
Proof.
  intros Fa Fb E. unfold intermediatePointTo_delta. cbv zeta.
  rewrite (coincident_haversine L a b Fa Fb E).
  change (Math.sqrt 0) with 0. change (Math.sqrt (1 - 0)) with 1.
  rewrite (Math.atan2_zero_pos M L 1 eq_refl).
  reflexivity.
Qed.

(** A finite Number times [+0] is a zero. *)
Lemma finite_mul_0_r (t : float) : is_finite t = true -> t * 0 = 0 \/ t * 0 = - 0.
Proof. intros Ft. apply finite_mul_zero; [assumption|now left]. Qed.

(** C8. [intermediatePointTo] computes its point from the angular
    distance [δ] and the two weights [sin((1-f)δ)/sin δ] and
    [sin(fδ)/sin δ]; for coincident points [δ] is [0], [sin δ] is [0],
    the numerators are zeros for a fraction between 0 and 1, both weights
    are NaN for every fraction, and nothing intercepts it: both
    coordinates of the returned point are NaN. *)
Theorem C8_intermediatePointTo_coincident (M : Math.host) (L : Math.laws M) :
  (forall (a b : LatLon) (fraction : float),
     intermediatePointTo a (VLatLon b) fraction
     = Normal (intermediatePointTo_weighted a b (intermediatePointTo_A a b fraction)
                 (intermediatePointTo_B a b fraction))) /\
  (forall (a b : LatLon) (fraction : float),
     radians_finite a -> radians_finite b -> coincident a b ->
     let δ := intermediatePointTo_delta a b in
     δ = 0 /\
     Math.sin δ = 0 /\
     ((0 <=? fraction) = true -> (fraction <=? 1) = true ->
      (Math.sin ((1 - fraction) * δ) = 0 \/ Math.sin ((1 - fraction) * δ) = - 0) /\
      (Math.sin (fraction * δ) = 0 \/ Math.sin (fraction * δ) = - 0)) /\
     intermediatePointTo_A a b fraction = nan /\
     intermediatePointTo_B a b fraction = nan /\
     intermediatePointTo a (VLatLon b) fraction = Normal (mkLatLon nan nan)).
Proof.
  split; [reflexivity|].
  intros a b fraction Fa Fb E. cbv zeta.
  pose proof (intermediatePointTo_delta_coincident L a b Fa Fb E) as Hδ.
  assert (HA : intermediatePointTo_A a b fraction = nan).
  { unfold intermediatePointTo_A. cbv zeta. rewrite Hδ. apply (sin_zero_quotient L). }
  assert (HB : intermediatePointTo_B a b fraction = nan).
  { unfold intermediatePointTo_B. cbv zeta. rewrite Hδ. apply (sin_zero_quotient L). }
  split; [exact Hδ|]. rewrite Hδ.
  split; [now rewrite (Math.sin_tiny M L 0 eq_refl)|].
  split.
  - intros H0 H1.
    assert (Ff : is_finite fraction = true).
    { rewrite is_finite_SF. rewrite leb_spec in H0, H1.
      change (Prim2SF 0) with (S754_zero false) in H0.
      change (Prim2SF 1) with (S754_finite false 4503599627370496 (-52)) in H1.
      destruct (Prim2SF fraction) as [s|s| |s m e]; try reflexivity; try discriminate.
      destruct s; discriminate. }
    apply (leb_0_B2R _ Ff) in H0. apply leb_B2R in H1; [|assumption|reflexivity].
    rewrite B2R_one in H1.
    destruct (sub_le 1 fraction 4503599627370496 (-52) eq_refl eq_refl Ff) as (F1 & _).
    { change (F2R 4503599627370496 (-52)) with (B2R 1). rewrite B2R_one.
      apply Rabs_le. lra. }
    split.
    + destruct (finite_mul_0_r _ F1) as [-> | ->];
        [left|right]; now rewrite (Math.sin_tiny M L) by reflexivity.
    + destruct (finite_mul_0_r _ Ff) as [-> | ->];
        [left|right]; now rewrite (Math.sin_tiny M L) by reflexivity.
  - split; [exact HA|]. split; [exact HB|].
    change (intermediatePointTo a (VLatLon b) fraction)
      with (Normal (intermediatePointTo_weighted a b (intermediatePointTo_A a b fraction)
                      (intermediatePointTo_B a b fraction))).
    rewrite HA, HB. unfold intermediatePointTo_weighted. cbv zeta.
    nan_simpl L. reflexivity.
Qed.

Lemma C8_intermediatePointTo_coincident_witness :
  intermediatePointTo_delta (M := RefHost.host) (mkLatLon 52.205 0.119) (mkLatLon 52.205 0.119)
  = 0 /\
  intermediatePointTo (M := RefHost.host) (mkLatLon 52.205 0.119)
    (VLatLon (mkLatLon 52.205 0.119)) 0.25 = Normal (mkLatLon nan nan).
Proof.
  destruct (proj2 (C8_intermediatePointTo_coincident RefHost.host RefHost_laws)
              (mkLatLon 52.205 0.119) (mkLatLon 52.205 0.119) 0.25
              (conj eq_refl eq_refl) (conj eq_refl eq_refl) (conj eq_refl eq_refl))
    as (D & _ & _ & _ & _ & N).
  exact (conj D N).
Defined.

(** ** The unguarded arc cosine *)

(** When the arc cosine behind [θb] is NaN and the points are apart, the
    point returned by [intersection] has NaN coordinates, whatever the
    bearings. *)
Lemma intersection_theta_b_nan {M : Math.host} (L : Math.laws M) (p1 p2 : LatLon)
  (brng1 brng2 : float) :
  (intersection_delta12 p1 p2 =? 0) = false ->
  Math.acos (intersection_cos_theta_b p1 p2) = nan ->
  intersection (VLatLon p1) brng1 (VLatLon p2) brng2 = Normal (Some (mkLatLon nan nan)).
Proof.
  unfold intersection_cos_theta_b, intersection_delta12, intersection.
  cbn [instanceof_LatLon bind]. cbv zeta. intros Hδ Hb.
  rewrite Hδ, Hb.
  assert (Hif : forall c : bool, (if c then 2 * Math.PI - nan else nan) = nan).
  { intros []; [apply sub_nan_r|reflexivity]. }
  rewrite Hif. nan_simpl L. reflexivity.
Qed.

(** The same drift in the arc cosine behind [θa] is caught by the guard:
    the angle is replaced by [0]. *)
Lemma intersection_theta_a_guard {M : Math.host} (L : Math.laws M) (p1 p2 : LatLon) :
  Math.acos (intersection_cos_theta_a p1 p2) = nan ->
  (let θa := Math.acos (intersection_cos_theta_a p1 p2) in
   if isNaN θa then 0 else θa) = 0.
Proof. cbv zeta. intros ->. reflexivity. Qed.

(** Two points on a meridian, the second [3e-160] degrees north of the
    first: the squared half-chord underflows, [δ12] comes out too small,
    and both arc-cosine arguments leave [[-1, 1]]. *)
Lemma drifted_pair {M : Math.host} (L : Math.laws M) :
  let p1 := mkLatLon 0 0 in
  let p2 := mkLatLon 3e-160 0 in
  intersection_delta12 p1 p2 = 4.445517498970155e-162 /\
  intersection_cos_theta_a p1 p2 = 1.1778128771725571 /\
  intersection_cos_theta_b p1 p2 = -1.1778128771725571.
Proof.
  cbv zeta.
  assert (Hδ : intersection_delta12 (mkLatLon 0 0) (mkLatLon 3e-160 0)
               = 4.445517498970155e-162).
  { unfold intersection_delta12. cbn [lat lon]. cbv zeta.
    rewrite !(Math.sin_tiny M L) by reflexivity.
    rewrite !(Math.cos_tiny M L) by reflexivity.
    rewrite (Math.asin_tiny M L) by reflexivity.
    reflexivity. }
  split; [exact Hδ|].
  unfold intersection_cos_theta_a, intersection_cos_theta_b. cbn [lat lon]. cbv zeta. rewrite Hδ.
  rewrite !(Math.sin_tiny M L) by reflexivity.
  rewrite !(Math.cos_tiny M L) by reflexivity.
  split; reflexivity.
Qed.

(** C4. The guard against a NaN arc cosine covers [θa] only.  On the
    points [(0, 0)] and [(3e-160, 0)] both arc-cosine arguments are out
    of range: [θa] is replaced by [0], [θb] stays NaN, and the returned
    point has NaN coordinates for every pair of bearings. *)
Theorem C4_theta_b_not_guarded (M : Math.host) (L : Math.laws M) (brng1 brng2 : float) :
  let p1 := mkLatLon 0 0 in
  let p2 := mkLatLon 3e-160 0 in
  Math.acos (intersection_cos_theta_a p1 p2) = nan /\
  Math.acos (intersection_cos_theta_b p1 p2) = nan /\
  intersection (VLatLon p1) brng1 (VLatLon p2) brng2
  = Normal (Some (mkLatLon nan nan)).
Proof.
  cbv zeta. destruct (drifted_pair L) as (Hδ & Ha & Hb). cbv zeta in Hδ, Ha, Hb.
  assert (Na : Math.acos (intersection_cos_theta_a (mkLatLon 0 0) (mkLatLon 3e-160 0)) = nan).
  { rewrite Ha. now apply (Math.acos_domain M L). }
  assert (Nb : Math.acos (intersection_cos_theta_b (mkLatLon 0 0) (mkLatLon 3e-160 0)) = nan).
  { rewrite Hb. now apply (Math.acos_domain M L). }
  repeat split; try assumption.
  apply (intersection_theta_b_nan L); [|assumption].
  rewrite Hδ. reflexivity.
Qed.

Lemma C4_theta_b_not_guarded_witness :
  intersection (M := RefHost.host) (VLatLon (mkLatLon 0 0)) 10
    (VLatLon (mkLatLon 3e-160 0)) 20 = Normal (Some (mkLatLon nan nan)).
Proof.
  exact (proj2 (proj2 (C4_theta_b_not_guarded RefHost.host RefHost_laws 10 20))).
Defined.

(** ** The parallels a great circle crosses *)

Section GreatCircleFacts.
Local Open Scope R_scope.

Lemma sin_cos_sq (t : R) : sin t * sin t + cos t * cos t = 1.
Proof. pose proof (sin2_cos2 t) as H. unfold Rsqr in H. exact H. Qed.

(** The point at latitude [φ] and longitude [λ] lies in the plane of the
    two points when [z + y sin μ - x cos μ = 0], with [μ = λ - λ1]. *)
Lemma plane_equation (φ1 λ1 φ2 λ2 φ λ : R) :
  let '(x, y, z) := crossing_xyz_exact φ φ1 φ2 (λ2 - λ1) in
  dot (cross (nvector φ1 λ1) (nvector φ2 λ2)) (nvector φ λ)
  = z + y * sin (λ - λ1) - x * cos (λ - λ1).
Proof.
  unfold crossing_xyz_exact, dot, cross, nvector.
  rewrite !sin_minus, !cos_minus.
  pose proof (sin_cos_sq λ1) as H.
  set (a := sin λ1) in *. set (b := cos λ1) in *.
  generalize (sin λ2) (cos λ2) (sin λ) (cos λ) (sin φ1) (cos φ1) (sin φ2) (cos φ2)
    (sin φ) (cos φ). intros. nsatz.
Qed.

Lemma unit_angle (u v : R) : u * u + v * v = 1 -> exists α, cos α = u /\ sin α = v.
Proof.
  intros H. assert (Hu : -1 <= u <= 1) by nra.
  destruct (Rle_or_lt 0 v) as [Hv|Hv].
  - exists (acos u). split; [now apply cos_acos|].
    rewrite sin_acos by assumption. unfold Rsqr.
    replace (1 - u * u) with (v * v) by lra. now apply sqrt_square.
  - exists (- acos u). rewrite cos_neg, sin_neg. split; [now apply cos_acos|].
    rewrite sin_acos by assumption. unfold Rsqr.
    replace (1 - u * u) with ((- v) * (- v)) by lra. rewrite sqrt_square by lra. lra.
Qed.

Lemma sinusoid_reaches (x y z : R) :
  (exists μ, z + y * sin μ - x * cos μ = 0) <-> z * z <= x * x + y * y.
Proof.
  split.
  - intros [μ H]. pose proof (sin_cos_sq μ) as P.
    assert (Hz : z = x * cos μ - y * sin μ) by lra.
    assert (E : x * x + y * y - z * z = (x * sin μ + y * cos μ) * (x * sin μ + y * cos μ)).
    { rewrite Hz.
      replace (x * x + y * y) with ((x * x + y * y) * (sin μ * sin μ + cos μ * cos μ))
        by (rewrite P; ring). ring. }
    pose proof (Rle_0_sqr (x * sin μ + y * cos μ)) as Q. unfold Rsqr in Q. lra.
  - intros H. destruct (Req_dec (x * x + y * y) 0) as [E|E].
    + exists 0. assert (x = 0) by nra. assert (y = 0) by nra. assert (z = 0) by nra.
      subst. ring.
    + assert (Hpos : 0 < x * x + y * y) by nra.
      set (ρ := sqrt (x * x + y * y)).
      assert (Hρ : 0 < ρ) by now apply sqrt_lt_R0.
      assert (Hρ2 : ρ * ρ = x * x + y * y) by (apply sqrt_sqrt; lra).
      destruct (unit_angle (x / ρ) (- y / ρ)) as (α & Hc & Hs).
      { replace (x / ρ * (x / ρ) + - y / ρ * (- y / ρ)) with ((x * x + y * y) / (ρ * ρ))
          by (field; lra).
        rewrite Hρ2. field. lra. }
      assert (Hzr : -1 <= z / ρ <= 1).
      { split.
        - apply Rmult_le_reg_r with ρ; [assumption|]. unfold Rdiv.
          rewrite Rmult_assoc, Rinv_l by lra. nra.
        - apply Rmult_le_reg_r with ρ; [assumption|]. unfold Rdiv.
          rewrite Rmult_assoc, Rinv_l by lra. nra. }
      set (μ := α + acos (z / ρ)).
      assert (Hcos : cos (μ - α) = z / ρ).
      { unfold μ. replace (α + acos (z / ρ) - α) with (acos (z / ρ)) by ring.
        now apply cos_acos. }
      exists μ. clearbody μ. rewrite cos_minus in Hcos.
      assert (Hz : z = ρ * (cos μ * cos α + sin μ * sin α)) by (rewrite Hcos; field; lra).
      assert (Hx : x = ρ * cos α) by (rewrite Hc; field; lra).
      assert (Hy : y = - ρ * sin α) by (rewrite Hs; field; lra).
      clearbody ρ. rewrite Hz, Hx, Hy. ring.
Qed.

(** In exact arithmetic the test of [crossingParallels] fails exactly
    when the great circle reaches the latitude. *)
Lemma reaches_latitude_iff (φ1 λ1 φ2 λ2 φ : R) :
  let '(x, y, z) := crossing_xyz_exact φ φ1 φ2 (λ2 - λ1) in
  ~ (z * z > x * x + y * y) <-> reaches_latitude φ1 λ1 φ2 λ2 φ.
Proof.
  pose proof (plane_equation φ1 λ1 φ2 λ2 φ) as P.
  unfold reaches_latitude.
  destruct (crossing_xyz_exact φ φ1 φ2 (λ2 - λ1)) as [[x y] z].
  assert (Hn : ~ (z * z > x * x + y * y) <-> z * z <= x * x + y * y)
    by (split; intros; lra).
  rewrite Hn, <- (sinusoid_reaches x y z). split.
  - intros [μ H]. exists (μ + λ1). rewrite P.
    replace (μ + λ1 - λ1) with μ by ring. exact H.
  - intros [λ H]. exists (λ - λ1). now rewrite <- P.
Qed.

End GreatCircleFacts.

(** [crossingParallels] returns [null] exactly when [z * z > x * x +
    y * y] for the components [x], [y], [z] it computes, and otherwise an
    object with two longitudes; in exact arithmetic that test holds
    exactly when the great circle through the two points does not reach
    the latitude. *)
Lemma crossingParallels_null_iff (M : Math.host) (p1 p2 : LatLon) (latitude : float) :
  let '(x, y, z) :=
    crossing_xyz (toRadians latitude) (toRadians (lat p1)) (toRadians (lat p2))
      (toRadians (lon p2) - toRadians (lon p1)) in
  (crossingParallels (VLatLon p1) (VLatLon p2) latitude = Normal None <->
   (z * z >? x * x + y * y) = true) /\
  ((z * z >? x * x + y * y) = false ->
   exists c, crossingParallels (VLatLon p1) (VLatLon p2) latitude = Normal (Some c)) /\
  (forall φ1 λ1 φ2 λ2 φ : R,
     let '(x, y, z) := crossing_xyz_exact φ φ1 φ2 (λ2 - λ1) in
     (z * z > x * x + y * y)%R <-> ~ reaches_latitude φ1 λ1 φ2 λ2 φ).
Proof.
  unfold crossing_xyz, crossingParallels.
  cbn [get String.eqb Ascii.eqb Bool.eqb bind call_toRadians]. cbv zeta.
  split; [|split].
  - match goal with |- context [if ?c then Normal None else _] => destruct c end;
      split; intros H; try reflexivity; discriminate.
  - intros H. rewrite H. eexists. reflexivity.
  - intros φ1 λ1 φ2 λ2 φ. pose proof (reaches_latitude_iff φ1 λ1 φ2 λ2 φ) as H.
    destruct (crossing_xyz_exact φ φ1 φ2 (λ2 - λ1)) as [[x y] z].
    split.
    + intros Hgt Hr. apply H in Hr. contradiction.
    + intros Hn. destruct (Rlt_or_le (x * x + y * y) (z * z))%R as [Hlt|Hle];
        [exact Hlt|].
      exfalso. apply Hn, H. lra.
Qed.

(** A positive Number below one as a real. *)
Lemma B2R_small_pos (x : float) (m : positive) (e : Z) :
  Prim2SF x = S754_finite false m e -> (Zpos m < 2 ^ 53)%Z -> (e <= -53)%Z ->
  (0 < B2R x < 1)%R.
Proof.
  intros H Hm He. unfold B2R. rewrite H. cbn [SF2R cond_Zopp]. split.
  - apply F2R_pos_gt_0.
  - apply Rlt_le_trans with (F2R (2 ^ 53) e).
    + now apply F2R_lt.
    + replace (2 ^ 53)%Z with (1 * 2 ^ 53)%Z by lia. rewrite F2R_shift by lia.
      unfold F2R. rewrite Rmult_1_l.
      change 1%R with (bpow 0). apply bpow_le. lia.
Qed.

(** C9. The test [z * z > x * x + y * y] does not decide whether the
    great circle reaches the latitude.  For the points [(0, 0)] and
    [(0, 1e-100)] on the equator and the latitude [1e-100] the square of
    [z] underflows: the test fails although in exact arithmetic it holds
    and the equator does not reach that latitude, and the method returns
    an object with two NaN longitudes instead of [null]. *)
Theorem C9_crossingParallels_unreached_latitude (M : Math.host) (L : Math.laws M) :
  let p1 := mkLatLon 0 0 in
  let p2 := mkLatLon 0 1e-100 in
  let latitude := 1e-100 in
  let φ := toRadians latitude in
  let φ1 := toRadians (lat p1) in let λ1 := toRadians (lon p1) in
  let φ2 := toRadians (lat p2) in let λ2 := toRadians (lon p2) in
  (let '(x, y, z) := crossing_xyz φ φ1 φ2 (λ2 - λ1) in
   (z * z >? x * x + y * y) = false) /\
  crossingParallels (VLatLon p1) (VLatLon p2) latitude
  = Normal (Some (mkCrossings nan nan)) /\
  (let '(x, y, z) := crossing_xyz_exact (B2R φ) (B2R φ1) (B2R φ2) (B2R λ2 - B2R λ1) in
   (z * z > x * x + y * y)%R) /\
  ~ reaches_latitude (B2R φ1) (B2R λ1) (B2R φ2) (B2R λ2) (B2R φ).
Proof.
  cbv zeta. cbn [lat lon].
  assert (Hxyz : crossing_xyz (toRadians 1e-100) (toRadians 0) (toRadians 0)
                   (toRadians 1e-100 - toRadians 0)
                 = (0, 0, toRadians 1e-100 * toRadians 1e-100)).
  { unfold crossing_xyz. cbv zeta.
    rewrite !(Math.sin_tiny M L) by reflexivity.
    rewrite !(Math.cos_tiny M L) by reflexivity.
    reflexivity. }
  assert (Hreal : let '(x, y, z) :=
                    crossing_xyz_exact (B2R (toRadians 1e-100)) (B2R (toRadians 0))
                      (B2R (toRadians 0)) (B2R (toRadians 1e-100) - B2R (toRadians 0)) in
                  (z * z > x * x + y * y)%R).
  { unfold crossing_xyz_exact. cbv zeta.
    change (B2R (toRadians 0)) with 0%R.
    destruct (B2R_small_pos (toRadians 1e-100) 8802492672234126 (-391) eq_refl) as [P1 P2];
      [reflexivity|lia|].
    set (t := B2R (toRadians 1e-100)) in *.
    rewrite Rminus_0_r, sin_0, cos_0.
    assert (St : (0 < sin t)%R).
    { apply sin_gt_0; [assumption|]. pose proof PI2_1. lra. }
    pose proof (Rmult_lt_0_compat _ _ St St) as S2.
    pose proof (Rmult_lt_0_compat _ _ S2 S2) as S4.
    match goal with |- (?l > ?r)%R =>
      replace r with 0%R by ring; replace l with (sin t * sin t * (sin t * sin t))%R by ring
    end.
    exact S4. }
  split; [now rewrite Hxyz|]. split; [|split; [exact Hreal|]].
  - unfold crossingParallels.
    cbn [get String.eqb Ascii.eqb Bool.eqb bind call_toRadians lat lon]. cbv zeta.
    rewrite !(Math.sin_tiny M L) by reflexivity.
    rewrite !(Math.cos_tiny M L) by reflexivity.
    change (toRadians 0 * 1 * 1 * (toRadians 1e-100 - toRadians 0)) with 0.
    change (toRadians 0 * 1 * 1 * 1 - 1 * toRadians 0 * 1) with 0.
    set (z := 1 * 1 * toRadians 1e-100 * (toRadians 1e-100 - toRadians 0)).
    change (z * z >? 0 * 0 + 0 * 0) with false. cbv iota.
    change (z / Math.sqrt (0 * 0 + 0 * 0)) with infinity.
    rewrite (Math.acos_domain M L infinity eq_refl), !sub_nan_r, !add_nan_r.
    reflexivity.
  - pose proof (reaches_latitude_iff (B2R (toRadians 0)) (B2R (toRadians 0))
                  (B2R (toRadians 0)) (B2R (toRadians 1e-100)) (B2R (toRadians 1e-100))) as I.
    destruct (crossing_xyz_exact _ _ _ _) as [[x y] z].
    intros R. apply I in R. apply R. exact Hreal.
Qed.

Lemma C9_crossingParallels_unreached_latitude_witness :
  crossingParallels (M := RefHost.host) (VLatLon (mkLatLon 0 0)) (VLatLon (mkLatLon 0 1e-100))
    1e-100 = Normal (Some (mkCrossings nan nan)).
Proof.
  exact (proj1 (proj2 (C9_crossingParallels_unreached_latitude RefHost.host RefHost_laws))).
Defined.


End Claims.

(** * Further properties of the code *)

(** ** Sums and scaled quotients stay in range *)

Section Scaling.
Local Open Scope float_scope.

(** Adding is subtracting the opposite. *)
Lemma add_sub_opp (x y : float) : x + y = x - (- y).
Proof.
  apply Prim2SF_inj. rewrite add_spec, sub_spec, opp_spec.
  unfold SF64add, SF64sub.
  destruct (Prim2SF x) as [sx|sx| |sx mx ex]; destruct (Prim2SF y) as [sy|sy| |sy my ey];
    cbn [SFadd SFsub SFopp]; try reflexivity;
    try (destruct sx, sy; reflexivity); try (destruct sy; reflexivity).
Qed.

Lemma add_le (x y : float) (mF : positive) (eF : Z) :
  SpecFloat.bounded prec emax mF eF = true ->
  is_finite x = true -> is_finite y = true ->
  (Rabs (B2R x + B2R y) <= F2R (Zpos mF) eF)%R ->
  is_finite (x + y) = true /\
  (Rabs (B2R (x + y)) <= F2R (Zpos mF) eF)%R /\
  (0 <= B2R x + B2R y -> 0 <= B2R (x + y))%R /\
  (B2R x + B2R y <= 0 -> B2R (x + y) <= 0)%R.
Proof.
  intros HF Hx Hy H. rewrite add_sub_opp.
  replace (B2R x + B2R y)%R with (B2R x - B2R (- y))%R in * by (rewrite B2R_opp; ring).
  apply sub_le; try assumption. now rewrite is_finite_opp.
Qed.

(** [x * k / d] for positive constants [k] and [d]: when [|x| <= c], the
    product [c * k] rounds to [P] and [P / d] to [T], the result is at
    most [T] in magnitude and has the sign of [x]. *)
Lemma mul_div_le (x k d : float) (mc mk md mP mT : positive) (ec ek ed eP eT : Z) :
  Prim2SF k = S754_finite false mk ek ->
  Prim2SF d = S754_finite false md ed ->
  SpecFloat.bounded prec emax mP eP = true -> (2 ^ 52 < Zpos mP)%Z ->
  SpecFloat.bounded prec emax mT eT = true ->
  (F2R (Zpos mc) ec * F2R (Zpos mk) ek <= F2R (Zpos mP) eP)%R ->
  (F2R (Zpos mP - 1) eP <= F2R (Zpos mT) eT * F2R (Zpos md) ed)%R ->
  (forall s, Prim2SF (SF2Prim (S754_finite s mP eP) / d) = S754_finite s mT eT) ->
  is_finite x = true -> (Rabs (B2R x) <= F2R (Zpos mc) ec)%R ->
  is_finite (x * k / d) = true /\
  (Rabs (B2R (x * k / d)) <= F2R (Zpos mT) eT)%R /\
  (0 <= B2R x -> 0 <= B2R (x * k / d))%R /\
  (B2R x <= 0 -> B2R (x * k / d) <= 0)%R.
Proof.
  intros Ck Cd HP HmP HT Hck HPd HQ Fx Bx.
  destruct (B2R_finite_const _ _ _ _ Ck) as [Fk Rk].
  destruct (B2R_finite_const _ _ _ _ Cd) as [Fd Rd].
  cbn [cond_Zopp] in Rk, Rd.
  pose proof (F2R_pos_gt_0 mk ek) as Pk.
  pose proof (F2R_pos_gt_0 md ed) as Pd.
  pose proof (F2R_pos_gt_0 mT eT) as PT.
  pose proof (F2R_pos_gt_0 mP eP) as PP.
  assert (Hprod : (Rabs (B2R x * B2R k) <= F2R (Zpos mP) eP)%R).
  { rewrite Rabs_mult, Rk, (Rabs_pos_eq (F2R _ ek)) by lra.
    apply Rle_trans with (2 := Hck). pose proof (Rabs_pos (B2R x)). nra. }
  destruct (mul_le x k mP eP HP Fx Fk Hprod) as (Fy & By & Py & Ny).
  assert (Sy1 : (0 <= B2R x -> 0 <= B2R (x * k))%R).
  { intros H. apply Py. rewrite Rk. nra. }
  assert (Sy2 : (B2R x <= 0 -> B2R (x * k) <= 0)%R).
  { intros H. apply Ny. rewrite Rk. nra. }
  destruct (finite_le_cases (x * k) mP eP HP HmP Fy By) as [H|[sg H]].
  - assert (Hq : (Rabs (B2R (x * k) / B2R d) <= F2R (Zpos mT) eT)%R).
    { unfold Rdiv. rewrite Rabs_mult, Rd, (Rabs_inv (F2R _ ed)).
      rewrite (Rabs_pos_eq (F2R _ ed)) by lra.
      apply Rmult_le_reg_r with (F2R (Zpos md) ed); [assumption|].
      rewrite Rmult_assoc, Rinv_l, Rmult_1_r by lra. lra. }
    destruct (div_le (x * k) d mT eT HT Fy Fd ltac:(rewrite Rd; lra) Hq)
      as (Fq & Bq & Pq & Nq).
    assert (0 < / F2R (Zpos md) ed)%R by now apply Rinv_0_lt_compat.
    repeat split; try assumption.
    + intros H1. apply Pq. rewrite Rd. specialize (Sy1 H1). unfold Rdiv. nra.
    + intros H1. apply Nq. rewrite Rd. specialize (Sy2 H1). unfold Rdiv. nra.
  - assert (Ey : x * k = SF2Prim (S754_finite sg mP eP)).
    { rewrite <- H. symmetry. apply SF2Prim_Prim2SF. }
    assert (Hy : B2R (x * k) = SF2R (S754_finite sg mP eP)).
    { unfold B2R. now rewrite H. }
    rewrite Hy in Sy1, Sy2. rewrite Ey.
    destruct (B2R_finite_const _ _ _ _ (HQ sg)) as [FQ RQ]. rewrite RQ.
    destruct sg; cbn [cond_Zopp SF2R] in *.
    + change (Z.neg mT) with (- Zpos mT)%Z.
      change (Z.neg mP) with (- Zpos mP)%Z in Sy1.
      rewrite F2R_opp in *. rewrite Rabs_Ropp, Rabs_pos_eq by lra.
      repeat split; try assumption; try lra.
    + rewrite Rabs_pos_eq by lra.
      repeat split; try assumption; try lra.
Qed.


Lemma F2R_le_align (m1 e1 m2 e2 : Z) :
  (e1 <= e2)%Z -> (m1 <= m2 * 2 ^ (e2 - e1))%Z -> (F2R m1 e1 <= F2R m2 e2)%R.
Proof.
  intros He Hm. replace e2 with (e1 + (e2 - e1))%Z at 1 by lia.
  rewrite <- F2R_shift by lia. now apply F2R_le.
Qed.

Lemma F2R_le_align_l (m1 e1 m2 e2 : Z) :
  (e2 <= e1)%Z -> (m1 * 2 ^ (e1 - e2) <= m2)%Z -> (F2R m1 e1 <= F2R m2 e2)%R.
Proof.
  intros He Hm. replace e1 with (e2 + (e1 - e2))%Z at 1 by lia.
  rewrite <- F2R_shift by lia. now apply F2R_le.
Qed.

(** Degrees from radians: an angle of magnitude at most [PI] converts to
    at most [180] degrees, of the same sign. *)
Lemma toDegrees_half (θ : float) :
  (abs θ <=? Math.PI) = true ->
  is_finite (toDegrees θ) = true /\
  (Rabs (B2R (toDegrees θ)) <= B2R 180)%R /\
  (0 <= B2R θ -> 0 <= B2R (toDegrees θ))%R /\
  (B2R θ <= 0 -> B2R (toDegrees θ) <= 0)%R.
Proof.
  intros H.
  destruct (abs_leb_B2R θ Math.PI eq_refl H) as [Fθ Bθ].
  change (B2R Math.PI) with (F2R 7074237752028440 (-51)) in Bθ.
  change (B2R 180) with (F2R 6333186975989760 (-45)).
  apply (mul_div_le θ 180 Math.PI 7074237752028440 6333186975989760 7074237752028440
           4974073419394997 6333186975989760 (-51) (-45) (-51) (-43) (-45));
    try reflexivity; try assumption.
  - rewrite F2R_mult. apply F2R_le_align; [lia|]. vm_compute. discriminate.
  - rewrite F2R_mult. apply F2R_le_align_l; [lia|]. vm_compute. discriminate.
  - intros []; reflexivity.
Qed.

(** Radians from degrees: [|x| <= 90], [180], [360] degrees convert to at
    most [PI/2], [PI], [2 PI], of the same sign. *)
Lemma toRadians_quarter (x : float) :
  (abs x <=? 90) = true ->
  is_finite (toRadians x) = true /\
  (Rabs (B2R (toRadians x)) <= B2R (Math.PI / 2))%R /\
  (0 <= B2R x -> 0 <= B2R (toRadians x))%R /\
  (B2R x <= 0 -> B2R (toRadians x) <= 0)%R.
Proof.
  intros H.
  destruct (abs_leb_B2R x 90 eq_refl H) as [Fx Bx].
  change (B2R 90) with (F2R 6333186975989760 (-46)) in Bx.
  change (B2R (Math.PI / 2)) with (F2R 7074237752028440 (-52)).
  apply (mul_div_le x Math.PI 180 6333186975989760 7074237752028440 6333186975989760
           4974073419394997 7074237752028440 (-46) (-51) (-45) (-44) (-52));
    try reflexivity; try assumption.
  - rewrite F2R_mult. apply F2R_le_align; [lia|]. vm_compute. discriminate.
  - rewrite F2R_mult. apply F2R_le_align_l; [lia|]. vm_compute. discriminate.
  - intros []; reflexivity.
Qed.

Lemma toRadians_half (x : float) :
  (abs x <=? 180) = true ->
  is_finite (toRadians x) = true /\
  (Rabs (B2R (toRadians x)) <= B2R Math.PI)%R /\
  (0 <= B2R x -> 0 <= B2R (toRadians x))%R /\
  (B2R x <= 0 -> B2R (toRadians x) <= 0)%R.
Proof.
  intros H.
  destruct (abs_leb_B2R x 180 eq_refl H) as [Fx Bx].
  change (B2R 180) with (F2R 6333186975989760 (-45)) in Bx.
  change (B2R Math.PI) with (F2R 7074237752028440 (-51)).
  apply (mul_div_le x Math.PI 180 6333186975989760 7074237752028440 6333186975989760
           4974073419394997 7074237752028440 (-45) (-51) (-45) (-43) (-51));
    try reflexivity; try assumption.
  - rewrite F2R_mult. apply F2R_le_align; [lia|]. vm_compute. discriminate.
  - rewrite F2R_mult. apply F2R_le_align_l; [lia|]. vm_compute. discriminate.
  - intros []; reflexivity.
Qed.

Lemma toRadians_full (x : float) :
  (abs x <=? 360) = true ->
  is_finite (toRadians x) = true /\
  (Rabs (B2R (toRadians x)) <= B2R (2 * Math.PI))%R /\
  (0 <= B2R x -> 0 <= B2R (toRadians x))%R /\
  (B2R x <= 0 -> B2R (toRadians x) <= 0)%R.
Proof.
  intros H.
  destruct (abs_leb_B2R x 360 eq_refl H) as [Fx Bx].
  change (B2R 360) with (F2R 6333186975989760 (-44)) in Bx.
  change (B2R (2 * Math.PI)) with (F2R 7074237752028440 (-50)).
  apply (mul_div_le x Math.PI 180 6333186975989760 7074237752028440 6333186975989760
           4974073419394997 7074237752028440 (-44) (-51) (-45) (-42) (-50));
    try reflexivity; try assumption.
  - rewrite F2R_mult. apply F2R_le_align; [lia|]. vm_compute. discriminate.
  - rewrite F2R_mult. apply F2R_le_align_l; [lia|]. vm_compute. discriminate.
  - intros []; reflexivity.
Qed.

End Scaling.

(** ** Bearings *)

Section Bearings.
Local Open Scope float_scope.
Local Open Scope js_scope.

(** The remainder by 360 of a finite number that is not negative. *)
Lemma turn_compass (s : float) :
  is_finite s = true -> (0 <= B2R s)%R -> compass (s %% 360).
Proof.
  intros Fs Hs.
  assert (R360 : B2R 360 = F2R 6333186975989760 (-44)) by reflexivity.
  pose proof (F2R_pos_gt_0 6333186975989760 (-44)) as P360.
  assert (N360 : B2R 360 <> 0%R) by (rewrite R360; lra).
  destruct (rem_bound s 360 Fs eq_refl N360) as (Fr & Br & Sr & _).
  specialize (Sr Hs). rewrite R360, (Rabs_pos_eq (F2R _ _)) in Br by lra.
  rewrite Rabs_pos_eq in Br by assumption.
  split.
  - apply leb_0_B2R; assumption.
  - apply ltb_B2R; [assumption|reflexivity|]. rewrite R360. exact Br.
Qed.

(** An angle of at most [PI] in magnitude gives a compass bearing. *)
Lemma theta_compass (θ : float) :
  (abs θ <=? Math.PI) = true -> compass ((toDegrees θ + 360) %% 360).
Proof.
  intros H. destruct (toDegrees_half θ H) as (Fd & Bd & _).
  assert (R180 : B2R 180 = F2R 6333186975989760 (-45)) by reflexivity.
  assert (R360 : B2R 360 = F2R 6333186975989760 (-45 + 1)) by reflexivity.
  assert (E540 : F2R 4749890231992320 (-43) = (3 * F2R 6333186975989760 (-45))%R).
  { change (-43)%Z with (-45 + 2)%Z. rewrite <- F2R_shift by lia.
    change (4749890231992320 * 2 ^ 2)%Z with (3 * 6333186975989760)%Z.
    unfold F2R. rewrite mult_IZR. ring. }
  pose proof (F2R_pos_gt_0 6333186975989760 (-45)) as P180.
  assert (E360 : B2R 360 = (2 * F2R 6333186975989760 (-45))%R).
  { rewrite R360. unfold F2R. rewrite bpow_succ. ring. }
  rewrite R180 in Bd. apply Rabs_le_inv in Bd.
  destruct (add_le (toDegrees θ) 360 4749890231992320 (-43) eq_refl Fd eq_refl)
    as (Fs & _ & Ps & _).
  { rewrite E540, E360. apply Rabs_le. lra. }
  apply turn_compass; [assumption|]. apply Ps. rewrite E360. lra.
Qed.

(** Half a turn added to a compass bearing is again one after wrapping. *)
Lemma reverse_compass (b : float) : compass b -> compass ((b + 180) %% 360).
Proof.
  intros [H0 H1].
  assert (Fb : is_finite b = true).
  { rewrite is_finite_SF. rewrite leb_spec in H0. rewrite ltb_spec in H1.
    change (Prim2SF 0) with (S754_zero false) in H0.
    change (Prim2SF 360) with (S754_finite false 6333186975989760 (-44)) in H1.
    destruct (Prim2SF b) as [s|s| |s m e]; try reflexivity; try discriminate.
    destruct s; discriminate. }
  apply leb_0_B2R in H0; [|assumption].
  apply ltb_B2R in H1; [|assumption|reflexivity].
  assert (R180 : B2R 180 = F2R 6333186975989760 (-45)) by reflexivity.
  assert (R360 : B2R 360 = F2R 6333186975989760 (-45 + 1)) by reflexivity.
  assert (E540 : F2R 4749890231992320 (-43) = (3 * F2R 6333186975989760 (-45))%R).
  { change (-43)%Z with (-45 + 2)%Z. rewrite <- F2R_shift by lia.
    change (4749890231992320 * 2 ^ 2)%Z with (3 * 6333186975989760)%Z.
    unfold F2R. rewrite mult_IZR. ring. }
  pose proof (F2R_pos_gt_0 6333186975989760 (-45)) as P180.
  assert (E360 : B2R 360 = (2 * F2R 6333186975989760 (-45))%R).
  { rewrite R360. unfold F2R. rewrite bpow_succ. ring. }
  destruct (add_le b 180 4749890231992320 (-43) eq_refl Fb eq_refl)
    as (Fs & _ & Ps & _).
  { rewrite E540, R180. apply Rabs_le. lra. }
  apply turn_compass; [assumption|]. apply Ps. lra.
Qed.

Lemma abs_abs (x : float) : abs (abs x) = abs x.
Proof. apply Prim2SF_inj. rewrite !abs_spec. now destruct (Prim2SF x). Qed.

Lemma bound_leb (x c : float) :
  is_finite c = true ->
  is_finite x = true /\ (Rabs (B2R x) <= B2R c)%R -> (abs x <=? c) = true.
Proof. intros Fc [Fx Bx]. now apply B2R_abs_leb. Qed.

(** X1. [toRadians] and [toDegrees] keep the usual ranges in spite of
    their two roundings: at most 90, 180 and 360 degrees convert to at
    most [PI/2], [PI] and [2 PI] radians, and at most [PI/2] and [PI]
    radians convert to at most 90 and 180 degrees. *)
Theorem conversions_keep_ranges (x : float) :
  ((abs x <=? 90) = true -> (abs (toRadians x) <=? Math.PI / 2) = true) /\
  ((abs x <=? 180) = true -> (abs (toRadians x) <=? Math.PI) = true) /\
  ((abs x <=? 360) = true -> (abs (toRadians x) <=? 2 * Math.PI) = true) /\
  ((abs x <=? Math.PI / 2) = true -> (abs (toDegrees x) <=? 90) = true) /\
  ((abs x <=? Math.PI) = true -> (abs (toDegrees x) <=? 180) = true).
Proof.
  repeat split; intros H; apply bound_leb; try reflexivity.
  - destruct (toRadians_quarter x H) as (F & B & _); now split.
  - destruct (toRadians_half x H) as (F & B & _); now split.
  - destruct (toRadians_full x H) as (F & B & _); now split.
  - destruct (toDegrees_quarter x H) as (F & B & _); now split.
  - destruct (toDegrees_half x H) as (F & B & _); now split.
Qed.

(** X2. Whenever the arc tangent behind it lies within [[-PI, PI]],
    [bearingTo] returns a bearing [b] with [0 <= b < 360]. *)
Theorem bearingTo_compass (M : Math.host) (this point : LatLon) :
  (Math.abs (bearingTo_theta this point) <=? Math.PI) = true ->
  exists b, bearingTo this (VLatLon point) = Normal b /\
            b = (toDegrees (bearingTo_theta this point) + 360) %% 360 /\
            (0 <=? b) = true /\ (b <? 360) = true.
Proof.
  intros H. eexists. split; [reflexivity|]. split; [reflexivity|].
  exact (theta_compass _ H).
Qed.

Lemma bearingTo_compass_witness :
  exists b, bearingTo (M := RefHost.host) (mkLatLon 52.205 0.119)
              (VLatLon (mkLatLon 48.857 2.351)) = Normal b /\
            (0 <=? b) = true /\ (b <? 360) = true.
Proof.
  destruct (bearingTo_compass RefHost.host (mkLatLon 52.205 0.119) (mkLatLon 48.857 2.351)
              eq_refl) as (b & E & _ & H).
  exists b. split; assumption.
Defined.

(** X3. [finalBearingTo] is the bearing from the other point back to
    this one, turned by 180 degrees and wrapped; whenever the arc tangent
    behind that bearing lies within [[-PI, PI]], the result [b] has
    [0 <= b < 360]. *)
Theorem finalBearingTo_compass (M : Math.host) (this point : LatLon) :
  (Math.abs (bearingTo_theta point this) <=? Math.PI) = true ->
  exists b0 b,
    bearingTo point (VLatLon this) = Normal b0 /\
    finalBearingTo this (VLatLon point) = Normal b /\
    b = (b0 + 180) %% 360 /\
    (0 <=? b) = true /\ (b <? 360) = true.
Proof.
  intros H. do 2 eexists. split; [reflexivity|]. split; [reflexivity|].
  split; [reflexivity|].
  exact (reverse_compass _ (theta_compass _ H)).
Qed.

Lemma finalBearingTo_compass_witness :
  exists b0 b,
    bearingTo (M := RefHost.host) (mkLatLon 48.857 2.351)
      (VLatLon (mkLatLon 52.205 0.119)) = Normal b0 /\
    finalBearingTo (M := RefHost.host) (mkLatLon 52.205 0.119)
      (VLatLon (mkLatLon 48.857 2.351)) = Normal b /\
    b = (b0 + 180) %% 360 /\
    (0 <=? b) = true /\ (b <? 360) = true.
Proof.
  exact (finalBearingTo_compass RefHost.host (mkLatLon 52.205 0.119)
           (mkLatLon 48.857 2.351) eq_refl).
Defined.

(** X4. Whenever the arc tangent behind it lies within [[-PI, PI]],
    [rhumbBearingTo] returns a bearing [b] with [0 <= b < 360]. *)
Theorem rhumbBearingTo_compass (M : Math.host) (this point : LatLon) :
  (Math.abs (rhumbBearingTo_theta this point) <=? Math.PI) = true ->
  exists b, rhumbBearingTo this (VLatLon point) = Normal b /\
            b = (toDegrees (rhumbBearingTo_theta this point) + 360) %% 360 /\
            (0 <=? b) = true /\ (b <? 360) = true.
Proof.
  intros H. eexists. split; [reflexivity|]. split; [reflexivity|].
  exact (theta_compass _ H).
Qed.

Lemma rhumbBearingTo_compass_witness :
  exists b, rhumbBearingTo (M := RefHost.host) (mkLatLon 51.127 1.338)
              (VLatLon (mkLatLon 50.964 1.853)) = Normal b /\
            (0 <=? b) = true /\ (b <? 360) = true.
Proof.
  destruct (rhumbBearingTo_compass RefHost.host (mkLatLon 51.127 1.338)
              (mkLatLon 50.964 1.853) eq_refl) as (b & E & _ & H).
  exists b. split; assumption.
Defined.

(** The shorter way round is at most half a turn. *)
Lemma rhumb_dlon_half (Δλ : float) :
  (abs Δλ <=? 2 * Math.PI) = true -> (abs (rhumb_dlon Δλ) <=? Math.PI) = true.
Proof.
  intros H.
  destruct (abs_leb_B2R Δλ (2 * Math.PI) eq_refl H) as [FΔ BΔ].
  assert (RP : B2R Math.PI = F2R 7074237752028440 (-51)) by reflexivity.
  assert (R2P : B2R (2 * Math.PI) = (2 * B2R Math.PI)%R).
  { change (B2R (2 * Math.PI)) with (F2R 7074237752028440 (-51 + 1)).
    rewrite RP. unfold F2R. rewrite bpow_succ. ring. }
  pose proof (F2R_pos_gt_0 7074237752028440 (-51)) as PP.
  rewrite R2P in BΔ. apply Rabs_le_inv in BΔ.
  unfold rhumb_dlon, Math.abs.
  destruct (abs Δλ >? Math.PI) eqn:E1.
  - apply ltb_B2R in E1; [|reflexivity|now rewrite is_finite_abs].
    rewrite B2R_abs in E1.
    destruct (Δλ >? 0) eqn:E2.
    + apply ltb_B2R in E2; [|reflexivity|assumption]. rewrite B2R_zero in E2.
      rewrite Rabs_pos_eq in E1 by lra.
      destruct (sub_le (2 * Math.PI) Δλ 7074237752028440 (-51) eq_refl eq_refl FΔ)
        as (Fr & Br & _ & _).
      { rewrite R2P, <- RP. apply Rabs_le. lra. }
      rewrite abs_opp. apply B2R_abs_leb; try assumption; reflexivity.
    + apply ltb_false_B2R in E2; [|reflexivity|assumption]. rewrite B2R_zero in E2.
      rewrite Rabs_left1 in E1 by lra.
      destruct (add_le (2 * Math.PI) Δλ 7074237752028440 (-51) eq_refl eq_refl FΔ)
        as (Fr & Br & _ & _).
      { rewrite R2P, <- RP. apply Rabs_le. lra. }
      apply B2R_abs_leb; try assumption; reflexivity.
  - apply ltb_false_B2R in E1; [|reflexivity|now rewrite is_finite_abs].
    rewrite B2R_abs in E1.
    apply B2R_abs_leb; try assumption; reflexivity.
Qed.

(** X5. For longitudes at most 360 degrees apart, the difference of
    longitudes that [rhumbBearingTo] and [rhumbDistanceTo] work with,
    after their step across the anti-meridian, is at most [PI] in
    magnitude. *)
Theorem rhumb_shorter_way (M : Math.host) (this point : LatLon) :
  (Math.abs (lon point - lon this) <=? 360) = true ->
  let φ1 := toRadians (lat this) in
  let φ2 := toRadians (lat point) in
  let Δφ := φ2 - φ1 in
  let Δλb := rhumb_dlon (toRadians (lon point - lon this)) in
  let Δλd := rhumb_dlon (toRadians (Math.abs (lon point - lon this))) in
  let q := rhumb_q Δφ (rhumb_dpsi φ1 φ2) φ1 in
  (Math.abs Δλb <=? Math.PI) = true /\
  (Math.abs Δλd <=? Math.PI) = true /\
  rhumbBearingTo this (VLatLon point)
  = Normal ((toDegrees (Math.atan2 Δλb (rhumb_dpsi φ1 φ2)) + 360) %% 360) /\
  (forall radius,
     rhumbDistanceTo this (VLatLon point) radius
     = Normal (Math.sqrt (Δφ * Δφ + q * q * Δλd * Δλd) * radius_or_default radius)).
Proof.
  intros H. cbv zeta. repeat split.
  - apply rhumb_dlon_half, bound_leb; [reflexivity|].
    destruct (toRadians_full _ H) as (F & B & _). now split.
  - apply rhumb_dlon_half, bound_leb; [reflexivity|].
    destruct (toRadians_full (Math.abs (lon point - lon this))) as (F & B & _);
      [|now split].
    unfold Math.abs in *. now rewrite abs_abs.
Qed.

Lemma rhumb_shorter_way_witness :
  let Δλb := rhumb_dlon (toRadians (-179 - 179)) in
  (Math.abs Δλb <=? Math.PI) = true /\ (0 <? Δλb) = true.
Proof.
  split.
  - exact (proj1 (rhumb_shorter_way RefHost.host (mkLatLon 10 179) (mkLatLon 10 (-179))
                    eq_refl)).
  - reflexivity.
Defined.

End Bearings.

(** ** Degenerate and mirrored inputs *)

Section Degenerate.
Local Open Scope float_scope.
Local Open Scope js_scope.

Lemma zero_like_eqb (z : float) : zero_like z -> (z =? 0) = true.
Proof. intros [-> | ->]; reflexivity. Qed.

(** X6. The haversine distance between two points with equal
    coordinates is zero, for every finite radius. *)
Theorem distanceTo_coincident (M : Math.host) (L : Math.laws M) (a b : LatLon)
  (radius : option float) :
  radians_finite a -> radians_finite b -> coincident a b ->
  is_finite (radius_or_default radius) = true ->
  exists d, distanceTo a (VLatLon b) radius = Normal d /\ (d =? 0) = true.
Proof.
  intros Fa Fb E FR. eexists. split; [reflexivity|]. cbv zeta.
  rewrite (coincident_haversine L a b Fa Fb E).
  change (Math.sqrt 0) with 0. change (Math.sqrt (1 - 0)) with 1.
  rewrite (Math.atan2_zero_pos M L 1 eq_refl).
  change (2 * 0) with 0.
  apply zero_like_eqb. apply finite_mul_zero; [assumption|now left].
Qed.

Lemma distanceTo_coincident_witness :
  exists d, distanceTo (M := RefHost.host) (mkLatLon 52.205 0.119)
              (VLatLon (mkLatLon 52.205 0.119)) None = Normal d /\ (d =? 0) = true.
Proof.
  refine (distanceTo_coincident RefHost.host RefHost_laws (mkLatLon 52.205 0.119)
            (mkLatLon 52.205 0.119) None _ _ _ _); try (split; reflexivity); reflexivity.
Defined.




(** A zero divided by a number of magnitude above a positive bound. *)
Lemma zero_div_large (z y c : float) :
  zero_like z -> (0 <=? c) = true -> (abs y >? c) = true -> zero_like (z / y).
Proof.
  intros Hz Hc Hy. rewrite ltb_spec, abs_spec in Hy. rewrite leb_spec in Hc.
  change (Prim2SF 0) with (S754_zero false) in Hc.
  assert (H : exists s, Prim2SF (z / y) = S754_zero s).
  { rewrite div_spec. unfold SF64div.
    destruct Hz as [-> | ->];
      [change (Prim2SF 0) with (S754_zero false)|change (Prim2SF (- 0)) with (S754_zero true)];
      destruct (Prim2SF y) as [s|s| |s m e]; cbn [SFdiv SFabs] in *;
      try (eexists; reflexivity); exfalso;
      destruct (Prim2SF c) as [s'|s'| |s' m' e']; try destruct s'; discriminate. }
  destruct H as [s Hs]. exact (zero_cases _ _ Hs).
Qed.



Lemma toRadians_opp (x : float) : toRadians (- x) = - toRadians x.
Proof. unfold toRadians. now rewrite mul_opp_l, div_opp_l. Qed.

(** X8. [maxLatitude] is the same for a bearing and for its opposite. *)
Theorem maxLatitude_mirror (M : Math.host) (L : Math.laws M) (this : LatLon)
  (bearing : float) :
  maxLatitude this (- bearing) = maxLatitude this bearing.
Proof.
  unfold maxLatitude. cbv zeta.
  now rewrite toRadians_opp, (Math.sin_odd M L), mul_opp_l, abs_opp.
Qed.

Lemma maxLatitude_mirror_witness :
  maxLatitude (M := RefHost.host) (mkLatLon 52.205 0.119) (- 30)
  = maxLatitude (M := RefHost.host) (mkLatLon 52.205 0.119) 30.
Proof.
  exact (maxLatitude_mirror RefHost.host RefHost_laws (mkLatLon 52.205 0.119) 30).
Defined.

(** X9. For two latitudes within [[-90, 90]], the latitude of
    [rhumbMidpointTo] is the converted mean of their radian values and
    lies within [[-90, 90]]. *)
Theorem rhumbMidpointTo_latitude (M : Math.host) (this point : LatLon) :
  (Math.abs (lat this) <=? 90) = true -> (Math.abs (lat point) <=? 90) = true ->
  exists p, rhumbMidpointTo this (VLatLon point) = Normal p /\
            lat p = toDegrees ((toRadians (lat this) + toRadians (lat point)) / 2) /\
            (-90 <=? lat p) = true /\ (lat p <=? 90) = true.
Proof.
  intros H1 H2. eexists. split; [reflexivity|]. cbn [lat]. split; [reflexivity|].
  apply toDegrees_quarter_leb.
  destruct (toRadians_quarter _ H1) as (F1 & B1 & _).
  destruct (toRadians_quarter _ H2) as (F2 & B2 & _).
  destruct quarter_turns as (FP & FH & _ & Hpos & EP & _).
  apply Rabs_le_inv in B1. apply Rabs_le_inv in B2.
  assert (RP : B2R Math.PI = F2R 7074237752028440 (-51)) by reflexivity.
  assert (RH : B2R (Math.PI / 2) = F2R 7074237752028440 (-52)) by reflexivity.
  destruct (add_le (toRadians (lat this)) (toRadians (lat point)) 7074237752028440 (-51)
              eq_refl F1 F2) as (Fs & Bs & _).
  { rewrite <- RP, EP. apply Rabs_le. lra. }
  rewrite <- RP, EP in Bs. apply Rabs_le_inv in Bs.
  assert (R2 : B2R 2 = 2%R).
  { pose proof B2R_one as O. change (B2R 1) with (F2R 4503599627370496 (-52)) in O.
    change (B2R 2) with (F2R 4503599627370496 (-52 + 1)). unfold F2R in *.
    rewrite bpow_succ. lra. }
  destruct (div_le (toRadians (lat this) + toRadians (lat point)) 2
              7074237752028440 (-52) eq_refl Fs eq_refl) as (Fq & Bq & _).
  { rewrite R2. lra. }
  { rewrite R2, <- RH. apply Rabs_le. lra. }
  apply B2R_abs_leb; assumption.
Qed.

Lemma rhumbMidpointTo_latitude_witness :
  exists p, rhumbMidpointTo (M := RefHost.host) (mkLatLon 51.127 1.338)
              (VLatLon (mkLatLon 50.964 1.853)) = Normal p /\
            lat p = toDegrees ((toRadians 51.127 + toRadians 50.964) / 2) /\
            (-90 <=? lat p) = true /\ (lat p <=? 90) = true.
Proof.
  exact (rhumbMidpointTo_latitude RefHost.host (mkLatLon 51.127 1.338)
           (mkLatLon 50.964 1.853) eq_refl eq_refl).
Defined.

(** X10. Whenever the arc sine behind it lies within [[-PI/2, PI/2]],
    the latitude returned by [destinationPoint] lies within [[-90, 90]]. *)
Theorem destinationPoint_latitude (M : Math.host) (this : LatLon)
  (distance bearing : float) (radius : option float) :
  (Math.abs (destinationPoint_phi2 this distance bearing radius) <=? Math.PI / 2) = true ->
  exists p, destinationPoint this distance bearing radius = Normal p /\
            lat p = toDegrees (destinationPoint_phi2 this distance bearing radius) /\
            (-90 <=? lat p) = true /\ (lat p <=? 90) = true.
Proof.
  intros H. eexists. split; [reflexivity|]. cbn [lat]. split; [reflexivity|].
  now apply toDegrees_quarter_leb.
Qed.

Lemma destinationPoint_latitude_witness :
  exists p, destinationPoint (M := RefHost.host) (mkLatLon 51.4778 (-0.0015)) 7794 300.7 None
            = Normal p /\
            lat p = toDegrees (destinationPoint_phi2 (M := RefHost.host)
                                 (mkLatLon 51.4778 (-0.0015)) 7794 300.7 None) /\
            (-90 <=? lat p) = true /\ (lat p <=? 90) = true.
Proof.
  exact (destinationPoint_latitude RefHost.host (mkLatLon 51.4778 (-0.0015)) 7794 300.7 None
           eq_refl).
Defined.

Lemma compass_toRadians (b : float) :
  compass b ->
  is_finite (toRadians b) = true /\ (Rabs (B2R (toRadians b)) <= B2R (2 * Math.PI))%R.
Proof.
  intros [H0 H1].
  assert (Fb : is_finite b = true).
  { rewrite is_finite_SF. rewrite leb_spec in H0. rewrite ltb_spec in H1.
    change (Prim2SF 0) with (S754_zero false) in H0.
    change (Prim2SF 360) with (S754_finite false 6333186975989760 (-44)) in H1.
    destruct (Prim2SF b) as [s|s| |s m e]; try reflexivity; try discriminate.
    destruct s; discriminate. }
  apply leb_0_B2R in H0; [|assumption].
  apply ltb_B2R in H1; [|assumption|reflexivity].
  destruct (toRadians_full b) as (F & B & _); [|now split].
  apply B2R_abs_leb; try assumption; try reflexivity.
  rewrite Rabs_pos_eq by assumption. lra.
Qed.

(** A finite number other than zero has a positive magnitude. *)
Lemma nonzero_abs (x : float) :
  is_finite x = true -> (x =? 0) = false -> (abs x >? 0) = true.
Proof.
  rewrite is_finite_SF, eqb_spec, ltb_spec, abs_spec.
  change (Prim2SF 0) with (S754_zero false).
  destruct (Prim2SF x) as [s|s| |s m e]; try discriminate; try reflexivity.
Qed.

(** X11. The cross-track distance of the start of the path itself is
    zero, for a finite radius other than zero and arc tangents within
    [[-PI, PI]] behind the two bearings. *)
Theorem crossTrackDistanceTo_at_start (M : Math.host) (L : Math.laws M)
  (this pathStart pathEnd : LatLon) (radius : option float) :
  radians_finite pathStart -> radians_finite this -> coincident pathStart this ->
  is_finite (radius_or_default radius) = true ->
  (radius_or_default radius =? 0) = false ->
  (Math.abs (bearingTo_theta pathStart this) <=? Math.PI) = true ->
  (Math.abs (bearingTo_theta pathStart pathEnd) <=? Math.PI) = true ->
  exists d, crossTrackDistanceTo this (VLatLon pathStart) (VLatLon pathEnd) radius
            = Normal d /\ (d =? 0) = true.
Proof.
  intros Fs Ft E FR NR H13 H12. eexists. split; [reflexivity|]. cbv zeta.
  rewrite (coincident_haversine L pathStart this Fs Ft E).
  change (Math.sqrt 0) with 0. change (Math.sqrt (1 - 0)) with 1.
  rewrite (Math.atan2_zero_pos M L 1 eq_refl). change (2 * 0) with 0.
  set (R := radius_or_default radius) in *.
  pose proof (theta_compass _ H13) as C13. pose proof (theta_compass _ H12) as C12.
  fold (bearingTo_theta pathStart this). fold (bearingTo_theta pathStart pathEnd).
  set (b13 := (toDegrees (bearingTo_theta pathStart this) + 360) %% 360) in *.
  set (b12 := (toDegrees (bearingTo_theta pathStart pathEnd) + 360) %% 360) in *.
  destruct (compass_toRadians b13 C13) as [F13 B13].
  destruct (compass_toRadians b12 C12) as [F12 B12].
  assert (R2P : B2R (2 * Math.PI) = F2R 7074237752028440 (-50)) by reflexivity.
  assert (E4P : F2R 7074237752028440 (-49) = (2 * F2R 7074237752028440 (-50))%R).
  { change (-49)%Z with (-50 + 1)%Z. unfold F2R. rewrite bpow_succ. ring. }
  rewrite R2P in B13, B12. apply Rabs_le_inv in B13. apply Rabs_le_inv in B12.
  destruct (sub_le (toRadians b13) (toRadians b12) 7074237752028440 (-49) eq_refl F13 F12)
    as (Fd & _).
  { rewrite E4P. apply Rabs_le. lra. }
  pose proof (Math.sin_range M L _ Fd) as Sr.
  pose proof (abs_leb_finite _ 1 eq_refl Sr) as Fsin.
  set (s := Math.sin (toRadians b13 - toRadians b12)) in *.
  assert (Z1 : zero_like (R * 0)) by (apply finite_mul_zero; [assumption|now left]).
  assert (Z2 : zero_like (R * 0 / R)).
  { apply (zero_div_large _ R 0 Z1 eq_refl). now apply nonzero_abs. }
  assert (Z3 : zero_like (Math.sin (R * 0 / R))).
  { destruct Z2 as [-> | ->]; [left|right]; now rewrite (Math.sin_tiny M L) by reflexivity. }
  assert (Z4 : zero_like (Math.sin (R * 0 / R) * s)).
  { rewrite mul_comm. now apply finite_mul_zero. }
  assert (Z5 : zero_like (Math.asin (Math.sin (R * 0 / R) * s))).
  { destruct Z4 as [-> | ->]; [left|right]; now rewrite (Math.asin_tiny M L) by reflexivity. }
  apply zero_like_eqb. rewrite mul_comm. now apply finite_mul_zero.
Qed.

Lemma crossTrackDistanceTo_at_start_witness :
  exists d, crossTrackDistanceTo (M := RefHost.host) (mkLatLon 53.3206 (-1.7297))
              (VLatLon (mkLatLon 53.3206 (-1.7297))) (VLatLon (mkLatLon 53.1887 0.1334)) None
            = Normal d /\ (d =? 0) = true.
Proof.
  refine (crossTrackDistanceTo_at_start RefHost.host RefHost_laws
            (mkLatLon 53.3206 (-1.7297)) (mkLatLon 53.3206 (-1.7297))
            (mkLatLon 53.1887 0.1334) None _ _ _ _ _ _ _);
    try (split; reflexivity); reflexivity.
Defined.

End Degenerate.

(** ** Paths along one great circle *)

Section ScaledRounding.
Local Open Scope Z_scope.

(** Rounding a binary64 number that was scaled by [2^52] gives it back. *)
Lemma binary_round_aux_scaled (s : bool) (m : positive) (e : Z) :
  SpecFloat.bounded prec emax m e = true ->
  binary_round_aux prec emax s (Zpos m * 2 ^ 52) (e - 52) loc_Exact = S754_finite s m e.
Proof.
  intros HB. pose proof HB as HB'.
  unfold SpecFloat.bounded, canonical_mantissa in HB'.
  apply andb_prop in HB'. destruct HB' as [Hc He].
  apply Z.eqb_eq in Hc. apply Z.leb_le in He.
  unfold binary_round_aux.
  assert (Hd : Zdigits2 (Zpos m * 2 ^ 52) = Zpos (digits2_pos m) + 52).
  { rewrite Zdigits2_shift by lia. reflexivity. }
  destruct (shr_fexp_shifted (Zpos m * 2 ^ 52) (e - 52) loc_Exact ltac:(lia))
    as (mrs & E1 & S1).
  rewrite Hd in E1, S1.
  replace (Zpos (digits2_pos m) + 52 + (e - 52)) with (Zpos (digits2_pos m) + e) in E1, S1
    by lia.
  rewrite Hc in E1, S1.
  replace (Z.max 0 (e - (e - 52))) with 52 in E1, S1 by lia.
  replace (e - 52 + 52) with e in E1 by lia.
  rewrite E1.
  destruct S1 as [Sm Se]. cbn [shr_record_of_loc shr_m] in Sm, Se.
  rewrite Z.div_mul in Sm by lia.
  assert (Hex : shr_exact mrs = true).
  { apply Se. split; [reflexivity|]. apply Z.mod_mul. lia. }
  assert (Hl : loc_of_shr_record mrs = loc_Exact) by now apply loc_of_shr_record_exact.
  rewrite Hl, Sm. cbn [round_nearest_even].
  destruct (shr_fexp_shifted (Zpos m) e loc_Exact ltac:(lia)) as (mrs2 & E2 & S2).
  change (Zdigits2 (Zpos m)) with (Zpos (digits2_pos m)) in E2, S2.
  rewrite Hc in E2, S2. replace (Z.max 0 (e - e)) with 0 in E2, S2 by lia.
  rewrite Z.add_0_r in E2. rewrite E2.
  destruct S2 as [Sm2 _]. cbn [shr_record_of_loc shr_m] in Sm2.
  rewrite Z.pow_0_r, Z.div_1_r in Sm2. rewrite Sm2.
  apply Z.leb_le in He. now rewrite He.
Qed.

End ScaledRounding.

Section SameGreatCircle.
Local Open Scope float_scope.
Local Open Scope js_scope.

(** Multiplying by one changes nothing. *)
Lemma mul_1_r (x : float) : x * 1 = x.
Proof.
  apply Prim2SF_inj. rewrite mul_spec. unfold SF64mul.
  change (Prim2SF 1) with (S754_finite false 4503599627370496 (-52)).
  pose proof (Prim2SF_valid x) as V.
  destruct (Prim2SF x) as [s|s| |s m e]; cbn [SFmul]; rewrite ?xorb_false_r;
    try reflexivity.
  cbn [valid_binary] in V.
  rewrite Pos2Z.inj_mul.
  change (Zpos 4503599627370496) with (2 ^ 52)%Z.
  change (e + -52)%Z with (e - 52)%Z.
  now apply binary_round_aux_scaled.
Qed.

(** Whether [intersection] returns a point is decided by its three
    tests. *)
Lemma intersection_passes_tests {M : Math.host} (p1 : LatLon) (brng1 : float)
  (p2 : LatLon) (brng2 : float) :
  let α := intersection_alpha p1 brng1 p2 brng2 in
  (intersection_delta12 p1 p2 =? 0) = false ->
  ((Math.sin (fst α) =? 0) && (Math.sin (snd α) =? 0)) = false ->
  (Math.sin (fst α) * Math.sin (snd α) <? 0) = false ->
  exists p, intersection (VLatLon p1) brng1 (VLatLon p2) brng2 = Normal (Some p).
Proof.
  unfold intersection_alpha, intersection_cos_theta_a, intersection_cos_theta_b,
    intersection_delta12, intersection.
  cbn [instanceof_LatLon bind fst snd]. cbv zeta. intros H1 H2 H3.
  rewrite H1, H2, H3. eexists. reflexivity.
Qed.

(** On the equator the arguments of both arc cosines are zeros. *)
Lemma equator_cos_theta {M : Math.host} (L : Math.laws M) (λ1 λ2 : float) :
  let p1 := mkLatLon 0 λ1 in
  let p2 := mkLatLon 0 λ2 in
  let δ12 := intersection_delta12 p1 p2 in
  is_finite δ12 = true -> (Math.sin δ12 =? 0) = false ->
  zero_like (intersection_cos_theta_a p1 p2) /\
  zero_like (intersection_cos_theta_b p1 p2).
Proof.
  cbv zeta. intros FD SD.
  unfold intersection_cos_theta_a, intersection_cos_theta_b. cbn [lat lon]. cbv zeta.
  set (D := intersection_delta12 (mkLatLon 0 λ1) (mkLatLon 0 λ2)) in *.
  change (toRadians 0) with 0.
  rewrite (Math.sin_tiny M L 0 eq_refl), (Math.cos_tiny M L 0 eq_refl), mul_1_r.
  pose proof (Math.cos_range M L D FD) as CR.
  pose proof (abs_leb_finite _ 1 eq_refl CR) as FC.
  pose proof (Math.sin_range M L D FD) as SR.
  pose proof (abs_leb_finite _ 1 eq_refl SR) as FS.
  assert (Z : zero_like (0 - 0 * Math.cos D)).
  { assert (Z0 : zero_like (0 * Math.cos D)).
    { rewrite mul_comm. apply finite_mul_zero; [assumption|now left]. }
    destruct Z0 as [-> | ->]; left; reflexivity. }
  split; apply (zero_div_large _ (Math.sin D) 0 Z eq_refl); now apply nonzero_abs.
Qed.

(** C3. [intersection] does not recognise two paths along one great
    circle.  For two points on the equator, a distance apart, both with
    bearing 90, the included angles come out as [0] and [-PI]: both have
    zero sine in exact arithmetic, but the sine of the double [-PI] is
    not zero, so the test for infinitely many intersections fails and a
    point is returned instead of [null].  In the other direction [null]
    is returned for two points that do not coincide, [(0, 0)] and
    [(1e-170, 0)], whose computed separation is zero. *)
Theorem C3_intersection_same_great_circle (M : Math.host) (L : Math.laws M)
  (λ1 λ2 : float) :
  let p1 := mkLatLon 0 λ1 in
  let p2 := mkLatLon 0 λ2 in
  let δ12 := intersection_delta12 p1 p2 in
  let α := intersection_alpha p1 90 p2 90 in
  Math.acos 0 = Math.PI / 2 -> Math.acos (- 0) = Math.PI / 2 ->
  (Math.sin (- Math.PI) =? 0) = false ->
  is_finite δ12 = true -> (δ12 =? 0) = false -> (Math.sin δ12 =? 0) = false ->
  ((fst α = 0 /\ snd α = - Math.PI) \/ (fst α = - Math.PI /\ snd α = 0)) /\
  (sin 0 = 0 /\ sin (- PI) = 0)%R /\
  (exists p, intersection (VLatLon p1) 90 (VLatLon p2) 90 = Normal (Some p)) /\
  ~ coincident (mkLatLon 0 0) (mkLatLon 1e-170 0) /\
  (forall brng1 brng2,
     intersection (VLatLon (mkLatLon 0 0)) brng1 (VLatLon (mkLatLon 1e-170 0)) brng2
     = Normal None).
Proof.
  cbv zeta. intros A0 A0' SP FD ND SD.
  destruct (equator_cos_theta L λ1 λ2 FD SD) as [Za Zb].
  assert (Ha : Math.acos (intersection_cos_theta_a (mkLatLon 0 λ1) (mkLatLon 0 λ2))
               = Math.PI / 2) by (destruct Za as [-> | ->]; assumption).
  assert (Hb : Math.acos (intersection_cos_theta_b (mkLatLon 0 λ1) (mkLatLon 0 λ2))
               = Math.PI / 2) by (destruct Zb as [-> | ->]; assumption).
  assert (Hα : (intersection_alpha (mkLatLon 0 λ1) 90 (mkLatLon 0 λ2) 90
                = (0, - Math.PI)) \/
               (intersection_alpha (mkLatLon 0 λ1) 90 (mkLatLon 0 λ2) 90
                = (- Math.PI, 0))).
  { unfold intersection_alpha. cbv zeta. rewrite Ha, Hb.
    change (isNaN (Math.PI / 2)) with false. cbv iota.
    destruct (Math.sin _ >? 0); [left|right]; reflexivity. }
  assert (S0 : Math.sin 0 = 0) by now apply (Math.sin_tiny M L).
  pose proof (Math.sin_range M L (- Math.PI) eq_refl) as SR.
  pose proof (abs_leb_finite _ 1 eq_refl SR) as FS.
  assert (Zp : zero_like (Math.sin (- Math.PI) * 0) /\ zero_like (0 * Math.sin (- Math.PI))).
  { split; [|rewrite mul_comm]; apply finite_mul_zero; try assumption; now left. }
  destruct Zp as [Zp1 Zp2].
  split; [|split; [|split; [|split]]].
  - destruct Hα as [-> | ->]; [left|right]; split; reflexivity.
  - split; [apply sin_0|]. rewrite sin_neg, sin_PI. ring.
  - apply intersection_passes_tests; cbv zeta; try assumption.
    + destruct Hα as [-> | ->]; cbn [fst snd]; rewrite S0, SP;
        [apply andb_false_r|reflexivity].
    + destruct Hα as [-> | ->]; cbn [fst snd]; rewrite S0.
      * destruct Zp2 as [-> | ->]; reflexivity.
      * destruct Zp1 as [-> | ->]; reflexivity.
  - intros [H _]. cbn [lat] in H. discriminate.
  - intros brng1 brng2. unfold intersection.
    cbn [instanceof_LatLon bind lat lon]. cbv zeta.
    rewrite !(Math.sin_tiny M L) by reflexivity.
    rewrite !(Math.cos_tiny M L) by reflexivity.
    match goal with |- context [Math.asin ?x] => change x with 0 end.
    rewrite (Math.asin_tiny M L 0 eq_refl). reflexivity.
Qed.

Lemma C3_intersection_same_great_circle_witness :
  exists p, intersection (M := RefHost.host) (VLatLon (mkLatLon 0 0)) 90
              (VLatLon (mkLatLon 0 10)) 90 = Normal (Some p).
Proof.
  exact (proj1 (proj2 (proj2
           (C3_intersection_same_great_circle RefHost.host RefHost_laws 0 10
              eq_refl eq_refl eq_refl eq_refl eq_refl eq_refl)))).
Defined.


End SameGreatCircle.

(** ** Not-a-Number coordinates and unchecked arguments *)

Section NotANumber.
Local Open Scope float_scope.
Local Open Scope js_scope.

Ltac absorb_nan L :=
  repeat first
    [ rewrite add_nan_l | rewrite add_nan_r | rewrite sub_nan_l | rewrite sub_nan_r
    | rewrite mul_nan_l | rewrite mul_nan_r | rewrite div_nan_l | rewrite div_nan_r
    | rewrite rem_nan_l | rewrite eqb_nan_l | rewrite ltb_nan_l | rewrite ltb_nan_r
    | rewrite (Math.sin_nan _ L) | rewrite (Math.cos_nan _ L)
    | rewrite (Math.asin_nan _ L) | rewrite (acos_nan L)
    | rewrite (Math.atan2_nan_l _ L) | rewrite (Math.atan2_nan_r _ L)
    | rewrite toDegrees_nan | rewrite wrap_nan
    | rewrite andb_false_r ].

Lemma toRadians_nan : toRadians nan = nan.
Proof. reflexivity. Qed.

Lemma sqrt_nan : Math.sqrt nan = nan.
Proof. reflexivity. Qed.

Lemma abs_nan : Math.abs nan = nan.
Proof. reflexivity. Qed.

Lemma opp_nan : - nan = nan.
Proof. reflexivity. Qed.


(** With a NaN latitude [intersection] passes all three of its tests. *)
Lemma intersection_nan_lat {M : Math.host} (L : Math.laws M)
  (this other : LatLon) (brng1 brng2 : float) :
  lat this = nan ->
  intersection (VLatLon this) brng1 (VLatLon other) brng2 = Normal (Some (mkLatLon nan nan)).
Proof.
  intros H. unfold intersection.
  cbn [instanceof_LatLon bind]. cbv zeta.
  rewrite H, toRadians_nan.
  absorb_nan L; rewrite ?sqrt_nan; absorb_nan L.
  unfold isNaN. change (is_nan nan) with true. cbv iota.
  destruct (Math.sin (toRadians (lon other) - toRadians (lon this)) >? 0);
    absorb_nan L; reflexivity.
Qed.

(** The same with the NaN latitude at the second point. *)
Lemma intersection_nan_lat_r {M : Math.host} (L : Math.laws M)
  (this other : LatLon) (brng1 brng2 : float) :
  lat this = nan ->
  intersection (VLatLon other) brng1 (VLatLon this) brng2 = Normal (Some (mkLatLon nan nan)).
Proof.
  intros H. unfold intersection.
  cbn [instanceof_LatLon bind]. cbv zeta.
  rewrite H, toRadians_nan.
  absorb_nan L; rewrite ?sqrt_nan; absorb_nan L.
  unfold isNaN. change (is_nan nan) with true. cbv iota.
  destruct (Math.sin (toRadians (lon this) - toRadians (lon other)) >? 0);
    absorb_nan L; reflexivity.
Qed.

(** X12. A point whose latitude is NaN, as the constructor makes it from
    a value that is not numeric, is accepted by every method, as receiver
    and as argument: none throws and none returns [null].  The Numbers
    and points returned are NaN in every coordinate, except that
    [rhumbDestinationPoint] and [rhumbMidpointTo] return a point whose
    latitude is NaN and [rhumbBearingTo] returns some Number. *)
Theorem nan_latitude_propagates (M : Math.host) (L : Math.laws M)
  (this other third : LatLon) (radius : option float)
  (fraction distance bearing brng1 brng2 latitude : float) :
  lat this = nan ->
  (distanceTo this (VLatLon other) radius = Normal nan /\
   distanceTo other (VLatLon this) radius = Normal nan) /\
  (bearingTo this (VLatLon other) = Normal nan /\
   bearingTo other (VLatLon this) = Normal nan) /\
  (finalBearingTo this (VLatLon other) = Normal nan /\
   finalBearingTo other (VLatLon this) = Normal nan) /\
  (midpointTo this (VLatLon other) = Normal (mkLatLon nan nan) /\
   midpointTo other (VLatLon this) = Normal (mkLatLon nan nan)) /\
  (intermediatePointTo this (VLatLon other) fraction = Normal (mkLatLon nan nan) /\
   intermediatePointTo other (VLatLon this) fraction = Normal (mkLatLon nan nan)) /\
  destinationPoint this distance bearing radius = Normal (mkLatLon nan nan) /\
  (intersection (VLatLon this) brng1 (VLatLon other) brng2
   = Normal (Some (mkLatLon nan nan)) /\
   intersection (VLatLon other) brng1 (VLatLon this) brng2
   = Normal (Some (mkLatLon nan nan))) /\
  (crossTrackDistanceTo this (VLatLon other) (VLatLon third) radius = Normal nan /\
   crossTrackDistanceTo other (VLatLon this) (VLatLon third) radius = Normal nan /\
   crossTrackDistanceTo other (VLatLon third) (VLatLon this) radius = Normal nan) /\
  maxLatitude this bearing = Normal nan /\
  (crossingParallels (VLatLon this) (VLatLon other) latitude
   = Normal (Some (mkCrossings nan nan)) /\
   crossingParallels (VLatLon other) (VLatLon this) latitude
   = Normal (Some (mkCrossings nan nan))) /\
  (rhumbDistanceTo this (VLatLon other) radius = Normal nan /\
   rhumbDistanceTo other (VLatLon this) radius = Normal nan) /\
  ((exists b, rhumbBearingTo this (VLatLon other) = Normal b) /\
   (exists b, rhumbBearingTo other (VLatLon this) = Normal b)) /\
  (exists p, rhumbDestinationPoint this distance bearing radius = Normal p /\ lat p = nan) /\
  ((exists p, rhumbMidpointTo this (VLatLon other) = Normal p /\ lat p = nan) /\
   (exists p, rhumbMidpointTo other (VLatLon this) = Normal p /\ lat p = nan)).
Proof.
  intros H.
  assert (I1 := intersection_nan_lat L this other brng1 brng2 H).
  assert (I2 := intersection_nan_lat_r L this other brng1 brng2 H).
  revert I1 I2.
  generalize (intersection (VLatLon this) brng1 (VLatLon other) brng2).
  generalize (intersection (VLatLon other) brng1 (VLatLon this) brng2).
  intros c2 c1 I1 I2.
  assert (RB : (exists b, rhumbBearingTo this (VLatLon other) = Normal b) /\
               (exists b, rhumbBearingTo other (VLatLon this) = Normal b))
    by (split; eexists; reflexivity).
  revert RB.
  generalize (rhumbBearingTo this (VLatLon other)) (rhumbBearingTo other (VLatLon this)).
  intros rb1 rb2 RB.
  assert (RD : exists p, rhumbDestinationPoint this distance bearing radius = Normal p /\
                         lat p = nan).
  { eexists. split; [reflexivity|]. cbn [lat]. rewrite H, toRadians_nan.
    absorb_nan L. rewrite ?abs_nan. absorb_nan L. reflexivity. }
  revert RD. generalize (rhumbDestinationPoint this distance bearing radius). intros rd RD.
  assert (RM : (exists p, rhumbMidpointTo this (VLatLon other) = Normal p /\ lat p = nan) /\
               (exists p, rhumbMidpointTo other (VLatLon this) = Normal p /\ lat p = nan)).
  { split; eexists; (split; [reflexivity|]); cbn [lat]; rewrite H, toRadians_nan;
      absorb_nan L; reflexivity. }
  revert RM.
  generalize (rhumbMidpointTo this (VLatLon other)) (rhumbMidpointTo other (VLatLon this)).
  intros rm1 rm2 RM.
  unfold distanceTo, bearingTo, finalBearingTo, midpointTo, intermediatePointTo,
    destinationPoint, crossTrackDistanceTo, maxLatitude, crossingParallels, rhumbDistanceTo.
  unfold distanceTo, bearingTo.
  cbn [instanceof_LatLon bind get call_toRadians String.eqb Ascii.eqb Bool.eqb]. cbv zeta.
  rewrite H, toRadians_nan.
  repeat match goal with |- _ /\ _ => split end;
    try exact I1; try exact I2; try exact RD; try (apply RB); try (apply RM);
    absorb_nan L; rewrite ?sqrt_nan, ?abs_nan, ?opp_nan, ?toRadians_nan;
    absorb_nan L; rewrite ?sqrt_nan, ?abs_nan, ?opp_nan, ?toRadians_nan; absorb_nan L;
    reflexivity.
Qed.

Lemma nan_latitude_propagates_witness :
  distanceTo (M := RefHost.host) (mkLatLon nan 0.119) (VLatLon (mkLatLon 48.857 2.351)) None
  = Normal nan.
Proof.
  exact (proj1 (proj1 (nan_latitude_propagates RefHost.host RefHost_laws (mkLatLon nan 0.119)
                         (mkLatLon 48.857 2.351) (mkLatLon 10 20) None 0.5 1000 90 30 60 50
                         eq_refl))).
Defined.

(** X13. [LatLon.crossingParallels] throws a [TypeError] exactly when one
    of [point1.lat], [point1.lon], [point2.lat], [point2.lon] is not a
    Number, which covers [undefined], [null] and primitive arguments; on
    any two objects carrying the four Numbers it returns normally. *)
Theorem crossingParallels_TypeError (M : Math.host) (point1 point2 : value)
  (latitude : float) :
  let checked := numeric point1 "lat" && numeric point1 "lon"
                 && numeric point2 "lat" && numeric point2 "lon" in
  (checked = true -> exists r, crossingParallels point1 point2 latitude = Normal r) /\
  (checked = false -> throws (crossingParallels point1 point2 latitude)).
Proof.
  cbv zeta. unfold crossingParallels, numeric, throws.
  destruct (get point1 "lat") as [[]|[]]; cbn [bind call_toRadians andb];
    try (split; [discriminate|intros _; eexists; reflexivity]).
  destruct (get point1 "lon") as [[]|[]]; cbn [bind call_toRadians andb];
    try (split; [discriminate|intros _; eexists; reflexivity]).
  destruct (get point2 "lat") as [[]|[]]; cbn [bind call_toRadians andb];
    try (split; [discriminate|intros _; eexists; reflexivity]).
  destruct (get point2 "lon") as [[]|[]]; cbn [bind call_toRadians andb];
    try (split; [discriminate|intros _; eexists; reflexivity]).
  split; [intros _|discriminate].
  match goal with |- context [if ?c then Normal None else _] => destruct c end;
    eexists; reflexivity.
Qed.

End NotANumber.

(** ** The worker's listener *)

Section WorkerFacts.
Local Open Scope float_scope.
Local Open Scope js_scope.
Local Open Scope string_scope.

Lemma flat_own_property (props : list (string * value)) (name : string) :
  flat props = true -> primitive (own_property props name) = true.
Proof.
  unfold flat. induction props as [|[k v] rest IH]; cbn [forallb own_property snd].
  - reflexivity.
  - intros H. apply andb_prop in H. destruct H as [Hv Hr].
    destruct (String.eqb k name); auto.
Qed.

Lemma ToNumber_primitive {C : conversions} (v : value) :
  primitive v = true -> exists n, ToNumber v = Normal n.
Proof. destruct v; cbn; intros H; try discriminate; eexists; reflexivity. Qed.

(** X14. On a message whose fields are all primitive values the listener
    does not throw and posts exactly one reply, which carries the [nr] of
    the request and a [data] object holding [distance] when the action is
    ['distance'] and [lat] and [lon] otherwise. *)
Theorem on_message_replies (M : Math.host) (C : conversions)
  (props : list (string * value)) (posted : list value) :
  flat props = true ->
  exists payload,
    on_message (VObject props) posted
    = Normal (posted ++ [VObject [("nr", own_property props "nr");
                                  ("data", VObject payload)]])%list /\
    if strict_equals (own_property props "action") "distance"
    then exists d, payload = [("distance", VNumber d)]
    else exists φ λ, payload = [("lat", VNumber φ); ("lon", VNumber λ)].
Proof.
  intros H. pose proof (fun name => ToNumber_primitive _ (flat_own_property props name H)) as P.
  destruct (P "lat1") as [a1 E1]. destruct (P "lon1") as [b1 F1].
  destruct (P "lat2") as [a2 E2]. destruct (P "lon2") as [b2 F2].
  destruct (P "lat") as [a E]. destruct (P "lon") as [b F].
  destruct (P "distance") as [d D]. destruct (P "degree") as [g G].
  unfold on_message, new_LatLon, message. cbn [get bind].
  destruct (strict_equals (own_property props "action") "distance").
  - rewrite E1, F1, E2, F2. cbn [bind instanceof_LatLon distanceTo].
    eexists. split; [reflexivity|]. eexists. reflexivity.
  - destruct (strict_equals (own_property props "action") "midpoint").
    + rewrite E1, F1, E2, F2. cbn [bind instanceof_LatLon midpointTo].
      eexists. split; [reflexivity|]. do 2 eexists. reflexivity.
    + rewrite E, F, D, G. cbn [bind destinationPoint].
      eexists. split; [reflexivity|]. do 2 eexists. reflexivity.
Qed.

Lemma on_message_replies_witness :
  exists payload,
    on_message (M := RefHost.host) (C := RefConversions.conversions)
      (distance_request (VNumber 7) 52.205 0.119 48.857 2.351) []
    = Normal [VObject [("nr", VNumber 7); ("data", VObject payload)]] /\
    exists d, payload = [("distance", VNumber d)].
Proof.
  exact (on_message_replies RefHost.host RefConversions.conversions
           [("action", VString "distance"); ("nr", VNumber 7);
            ("lat1", VNumber 52.205); ("lon1", VNumber 0.119);
            ("lat2", VNumber 48.857); ("lon2", VNumber 2.351)] [] eq_refl).
Defined.



(** The haversine distance does not depend on the order of the points. *)
Lemma distanceTo_swap {M : Math.host} (L : Math.laws M) (a b : LatLon)
  (radius : option float) :
  distanceTo a (VLatLon b) radius = distanceTo b (VLatLon a) radius.
Proof.
  unfold distanceTo. cbn [instanceof_LatLon bind].
  rewrite (haversine_square_swap L (toRadians (lat a)) (toRadians (lat b))).
  rewrite (haversine_term_swap L _ (toRadians (lon a)) (toRadians (lon b))).
  rewrite (mul_comm (Math.cos (toRadians (lat a))) (Math.cos (toRadians (lat b)))).
  reflexivity.
Qed.

(** X16. The reply to a distance request is the same when the two points
    of the request are exchanged. *)
Theorem on_message_distance_symmetric (M : Math.host) (L : Math.laws M) (C : conversions)
  (nr : value) (lat1 lon1 lat2 lon2 : float) (posted : list value) :
  on_message (distance_request nr lat1 lon1 lat2 lon2) posted
  = on_message (distance_request nr lat2 lon2 lat1 lon1) posted.
Proof.
  unfold on_message, distance_request, new_LatLon.
  cbn [get own_property String.eqb Ascii.eqb Bool.eqb strict_equals bind ToNumber].
  now rewrite (distanceTo_swap L (mkLatLon lat1 lon1) (mkLatLon lat2 lon2)).
Qed.

Lemma on_message_distance_symmetric_witness :
  on_message (M := RefHost.host) (C := RefConversions.conversions)
    (distance_request (VNumber 1) 52.205 0.119 48.857 2.351) []
  = on_message (M := RefHost.host) (C := RefConversions.conversions)
      (distance_request (VNumber 1) 48.857 2.351 52.205 0.119) [].
Proof.
  exact (on_message_distance_symmetric RefHost.host RefHost_laws RefConversions.conversions
           (VNumber 1) 52.205 0.119 48.857 2.351 []).
Defined.

End WorkerFacts.
